(** * GPA calculator (src/App.tsx): domain model, GPA engine, state container
      and persistence adapter, with the properties its specification states.

    The development follows the source file top to bottom: the records of the
    data model, the grade table, the IndexedDB stores, the handlers of the
    [App] component, and [calculateGPA]. *)

From Stdlib Require Import ZArith QArith Qround Qabs Qpower Lqa SpecFloat Ascii Lia.
From stdpp Require Import gmap strings list pretty sorting.

Local Open Scope Z_scope.

(** ** JavaScript numbers

    A JavaScript number is an IEEE 754 binary64 value.  Where the program
    computes with fractions (the grade points and the GPA) the model uses
    [spec_float] at precision 53, so that sums, products and quotients round
    exactly as they do in the engine. *)

Module Double.

Definition prec : Z := 53.
Definition emax : Z := 1024.

Abbreviation double := spec_float.

Definition zero : double := S754_zero false.
Definition nan : double := S754_nan.

(** The double nearest to an integer (exact up to 2^53). *)
Definition of_Z (z : Z) : double := binary_normalize prec emax z 0 false.

(** The double nearest to the fraction n/d (n >= 0, d > 0), with sign [neg]:
    the value of a decimal literal such as [3.7] (n = 37, d = 10) and of a
    decimal numeral read back by [parseFloat]. *)
Definition of_ratio (neg : bool) (n d : Z) : double :=
  match n with
  | 0 => S754_zero neg
  | _ =>
      let '(mz, ez, lz) := SFdiv_core_binary prec emax n 0 d 0 in
      binary_round_aux prec emax neg mz ez lz
  end.

Definition add : double → double → double := SFadd prec emax.
Definition mul : double → double → double := SFmul prec emax.
Definition div : double → double → double := SFdiv prec emax.

(** [x > y]; false when either side is NaN. *)
Definition gt (x y : double) : bool := SFltb y x.

(** The real number a finite double stands for; zeros, infinities and NaN
    are sent to 0 and are told apart by case analysis where it matters. *)
Definition to_Q (x : double) : Q :=
  match x with
  | S754_finite s m e =>
      ((if s then -1 else 1) * inject_Z (Z.pos m) * (2 # 1) ^ e)%Q
  | _ => 0%Q
  end.

(** The string [x.toFixed(2)] produces.  Either the digits of an integer
    [n] with a point before the last two and an optional minus sign, or,
    when [x] is not finite or is at least 10^21 in magnitude, the general
    rendering [String(x)]. *)
Inductive fixedString : Type :=
  | Fixed (neg : bool) (n : Z)
  | General (x : double).

(** Step 9 of Number.prototype.toFixed: the integer n for which
    n / 100 - x is as close to zero as possible, the larger one when there
    are two. *)
Definition nearestHundredths (x : Q) : Z := Qfloor (100 * x + (1 # 2))%Q.

Definition toFixed2 (x : double) : fixedString :=
  match x with
  | S754_zero _ => Fixed false 0
  | S754_finite s _ _ =>
      let a := Qabs (to_Q x) in
      if Qle_bool (inject_Z (10 ^ 21)) a then General x
      else Fixed s (nearestHundredths a)
  | _ => General x
  end.

(** [parseFloat] on the strings [toFixed2] produces: a decimal numeral is
    read as the nearest double, and [String(x)] reads back as [x]. *)
Definition parseFloat (s : fixedString) : double :=
  match s with
  | Fixed neg n => of_ratio neg n 100
  | General x => x
  end.

(** The number of binary digits of a mantissa, and the double of a
    non-zero integer of magnitude [p] below 2^53: its mantissa shifted to
    fill 53 bits. *)
Definition digits (p : positive) : Z := Z.pos (digits2_pos p).

Definition canonical (s : bool) (p : positive) : double :=
  S754_finite s (Z.to_pos (Z.pos p * 2 ^ (53 - digits p))) (digits p - 53).

Definition signed (s : bool) (p : positive) : Z := cond_Zopp s (Z.pos p).

End Double.

Abbreviation double := spec_float.

(** Integer-valued numbers that may also be NaN: the id counter and the
    results of [parseInt]. *)
Inductive jsnum : Type :=
  | NaN
  | Int (z : Z).

(** [n + 1] *)
Definition incr (n : jsnum) : jsnum :=
  match n with
  | NaN => NaN
  | Int z => Int (z + 1)
  end.

(** [n.toString()] and template-literal interpolation of a number. *)
Definition toString (n : jsnum) : string :=
  match n with
  | NaN => "NaN"
  | Int z => pretty z
  end.

(** [Math.max] of one or more arguments: NaN as soon as one argument is. *)
Definition max2 (a b : jsnum) : jsnum :=
  match a, b with
  | Int x, Int y => Int (Z.max x y)
  | _, _ => NaN
  end.

Definition Math_max (x : jsnum) (xs : list jsnum) : jsnum := foldl max2 x xs.

(** *** parseInt

    [parseInt(s)] with no radix: leading white space is skipped, an optional
    sign is read, a [0x] prefix selects radix 16, and the longest prefix of
    digits is the value; NaN when there is no digit.  Strings are sequences of
    bytes here, so only the ASCII white space characters are recognised. *)

Definition isWhiteSpace (c : ascii) : bool :=
  let n := N_of_ascii c in
  ((9 <=? n) && (n <=? 13) || (n =? 32))%N.

Fixpoint trimStart (s : string) : string :=
  match s with
  | String c s' => if isWhiteSpace c then trimStart s' else s
  | EmptyString => s
  end.

Definition digitValue (c : ascii) : option Z :=
  let n := Z.of_N (N_of_ascii c) in
  if (48 <=? n) && (n <=? 57) then Some (n - 48)
  else if (97 <=? n) && (n <=? 122) then Some (n - 87)
  else if (65 <=? n) && (n <=? 90) then Some (n - 55)
  else None.

Fixpoint parseDigits (radix : Z) (s : string) (acc : option Z) : option Z :=
  match s with
  | String c s' =>
      match digitValue c with
      | Some d =>
          if d <? radix
          then parseDigits radix s' (Some (default 0 acc * radix + d))
          else acc
      | None => acc
      end
  | EmptyString => acc
  end.

Definition parseInt (s : string) : jsnum :=
  let s := trimStart s in
  let '(neg, s) :=
    match s with
    | String "-" r => (true, r)
    | String "+" r => (false, r)
    | _ => (false, s)
    end in
  let '(radix, s) :=
    match s with
    | String "0" (String "x" r) => (16, r)
    | String "0" (String "X" r) => (16, r)
    | _ => (10, s)
    end in
  match parseDigits radix s None with
  | Some v => Int (if neg then - v else v)
  | None => NaN
  end.

(** [n || 0] for a number n: NaN and 0 are falsy. *)
Definition orZero (n : jsnum) : Z :=
  match n with
  | NaN => 0
  | Int z => z
  end.

(** ** Data model *)

(** [credits] is a number in the source; every value the program writes there
    is an integer (3, or the result of [parseInt(..) || 0]), and the model
    keeps that integer.  It becomes a double where [calculateGPA] computes
    with it. *)
Record Course : Type := mkCourse {
  course_id : string;
  course_name : string;
  course_grade : string;
  course_credits : Z;
}.

Record Semester : Type := mkSemester {
  semester_id : string;
  semester_name : string;
  semester_courses : list Course;
}.

Record Year : Type := mkYear {
  year_id : string;
  year_name : string;
  year_semesters : list Semester;
}.

Record UserProfile : Type := mkUserProfile {
  profile_name : string;
  profile_indexNumber : string;
  profile_university : string;
  profile_photo : string;
}.

(** The keys of the grade table, in the order of the source; they are also
    the options of the grade selector. *)
Inductive Grade : Type :=
  | GA | GA_minus
  | GB_plus | GB | GB_minus
  | GC_plus | GC | GC_minus
  | GD_plus | GD | GD_minus
  | GF.

Definition gradeName (g : Grade) : string :=
  match g with
  | GA => "A" | GA_minus => "A-"
  | GB_plus => "B+" | GB => "B" | GB_minus => "B-"
  | GC_plus => "C+" | GC => "C" | GC_minus => "C-"
  | GD_plus => "D+" | GD => "D" | GD_minus => "D-"
  | GF => "F"
  end.

(** The literal of each grade in tenths: 4.0 is 40/10, 3.7 is 37/10. *)
Definition gradeTenths (g : Grade) : Z :=
  match g with
  | GA => 40 | GA_minus => 37
  | GB_plus => 33 | GB => 30 | GB_minus => 27
  | GC_plus => 23 | GC => 20 | GC_minus => 17
  | GD_plus => 13 | GD => 10 | GD_minus => 7
  | GF => 0
  end.

Definition allGrades : list Grade :=
  [GA; GA_minus; GB_plus; GB; GB_minus; GC_plus; GC; GC_minus;
   GD_plus; GD; GD_minus; GF].

Definition gradeOfName (key : string) : option Grade :=
  snd <$> list_find (λ g, gradeName g = key) allGrades.

(** [gradePoints[key]]: the double of the literal, [None] for [undefined]. *)
Definition gradePoints (key : string) : option double :=
  (λ g, Double.of_ratio false (gradeTenths g) 10) <$> gradeOfName key.

(** ** GPA engine *)

(** [gradePoints[course.grade] * course.credits]; [undefined * n] is NaN. *)
Definition coursePoints (course : Course) : double :=
  match gradePoints (course_grade course) with
  | Some p => Double.mul p (Double.of_Z (course_credits course))
  | None => Double.nan
  end.

(** The body of the [forEach] of [calculateGPA], on the pair
    (totalPoints, totalCredits). *)
Definition accumulate (acc : double * double) (course : Course) : double * double :=
  (Double.add acc.1 (coursePoints course),
   Double.add acc.2 (Double.of_Z (course_credits course))).

Definition calculateGPA (courses : list Course) : double :=
  let '(totalPoints, totalCredits) :=
    foldl accumulate (Double.zero, Double.zero) courses in
  if Double.gt totalCredits Double.zero
  then Double.parseFloat (Double.toFixed2 (Double.div totalPoints totalCredits))
  else Double.zero.

Definition calculateSemesterGPA (semester : Semester) : double :=
  calculateGPA (semester_courses semester).

Definition calculateYearGPA (year : Year) : double :=
  calculateGPA (year_semesters year ≫= semester_courses).

(** ** Persistence adapter *)

(** The record [saveUserProfile] stores: the profile with the key added. *)
Record ProfileRecord : Type := mkProfileRecord {
  record_profile : UserProfile;
  record_id : string;
}.

(** The database [gpaCalculator] at version 3: two object stores, each keyed
    by the [id] of its records. *)
Record Database : Type := mkDatabase {
  yearsStore : gmap string Year;
  userProfileStore : gmap string ProfileRecord;
}.

Definition emptyDatabase : Database := mkDatabase ∅ ∅.

(** [store.add(year)]: fails with a ConstraintError when the key is taken. *)
Definition store_add (store : gmap string Year) (year : Year)
    : option (gmap string Year) :=
  match store !! year_id year with
  | Some _ => None
  | None => Some (<[year_id year := year]> store)
  end.

Fixpoint store_addAll (store : gmap string Year) (data : list Year)
    : option (gmap string Year) :=
  match data with
  | [] => Some store
  | year :: rest =>
      match store_add store year with
      | Some store' => store_addAll store' rest
      | None => None
      end
  end.

(** [store.getAll()]: the records in ascending order of their keys. *)
Definition getAll {V} (store : gmap string V) : list V :=
  snd <$> merge_sort (λ a b, String.le a.1 b.1) (map_to_list store).

(** [saveData]: one read-write transaction that clears the store and adds
    every year.  A failed [add] aborts the transaction, which undoes the
    [clear] as well. *)
Definition saveData (data : list Year) (db : Database) : Database :=
  match store_addAll ∅ data with
  | Some store => mkDatabase store (userProfileStore db)
  | None => db
  end.

Definition saveUserProfile (profile : UserProfile) (db : Database) : Database :=
  mkDatabase (yearsStore db)
    (<["user" := mkProfileRecord profile "user"]> (userProfileStore db)).

(** ** State container *)

(** The state of the [App] component together with the database it writes
    to.  Each save is taken to have completed before the next event. *)
Record State : Type := mkState {
  years : list Year;
  expandedYears : gset string;
  nextId : jsnum;
  userProfile : UserProfile;
  isEditingProfile : bool;
  database : Database;
}.

Definition emptyProfile : UserProfile := mkUserProfile "" "" "" "".

Definition set_years (ys : list Year) (st : State) : State :=
  mkState ys (expandedYears st) (nextId st) (userProfile st)
    (isEditingProfile st) (database st).
Definition set_expandedYears (e : gset string) (st : State) : State :=
  mkState (years st) e (nextId st) (userProfile st)
    (isEditingProfile st) (database st).
Definition set_nextId (n : jsnum) (st : State) : State :=
  mkState (years st) (expandedYears st) n (userProfile st)
    (isEditingProfile st) (database st).
Definition set_userProfile (p : UserProfile) (st : State) : State :=
  mkState (years st) (expandedYears st) (nextId st) p
    (isEditingProfile st) (database st).
Definition set_isEditingProfile (b : bool) (st : State) : State :=
  mkState (years st) (expandedYears st) (nextId st) (userProfile st)
    b (database st).
Definition set_database (db : Database) (st : State) : State :=
  mkState (years st) (expandedYears st) (nextId st) (userProfile st)
    (isEditingProfile st) db.

(** [setYears(newYears)] followed by [saveData(newYears)], the tail of every
    handler that edits the tree. *)
Definition commitYears (newYears : list Year) (st : State) : State :=
  set_database (saveData newYears (database st)) (set_years newYears st).

(** Computations that read and bump [nextId.current]. *)
Definition Gen (T : Type) : Type := jsnum → T * jsnum.

Global Instance gen_ret : MRet Gen := λ _ x n, (x, n).
Global Instance gen_bind : MBind Gen := λ _ _ f m n, let '(x, n') := m n in f x n'.

Definition generateId : Gen string :=
  λ n, let n' := incr n in (toString n', n').

(** The year [loadData] seeds an empty store with. *)
Definition initialYear : Year :=
  mkYear "1" "Year 1"
    [mkSemester "1-1" "Semester 1" []; mkSemester "1-2" "Semester 2" []].

(** The ids of a tree, each parsed by [parseInt], in the order [loadData]
    passes them to [Math.max]: for each year its own id, then for each of its
    semesters the semester's id and the ids of its courses.  The first
    argument is therefore the id of the first year loaded. *)
Definition semesterIdNumbers (semester : Semester) : list jsnum :=
  parseInt (semester_id semester)
    :: (parseInt ∘ course_id <$> semester_courses semester).

Definition yearIdNumbers (year : Year) : list jsnum :=
  parseInt (year_id year) :: (year_semesters year ≫= semesterIdNumbers).

Definition loadData (st : State) : State :=
  let loadedYears := getAll (yearsStore (database st)) in
  let loadedProfile := userProfileStore (database st) !! "user" in
  let st1 :=
    match loadedYears with
    | year :: rest =>
        set_nextId
          (incr (Math_max (parseInt (year_id year))
                   ((year_semesters year ≫= semesterIdNumbers)
                    ++ (rest ≫= yearIdNumbers))))
          (set_expandedYears (list_to_set (year_id <$> loadedYears))
             (set_years loadedYears st))
    | [] =>
        set_database (saveData [initialYear] (database st))
          (set_expandedYears {["1"]} (set_years [initialYear] st))
    end in
  match loadedProfile with
  | Some r => set_userProfile (record_profile r) st1
  | None => st1
  end.

(** The component as first rendered, before [loadData] has run. *)
Definition initialState (db : Database) : State :=
  mkState [] ∅ (Int 1) emptyProfile false db.

(** Opening the page on a database: mount, then [loadData]. *)
Definition startup (db : Database) : State := loadData (initialState db).

Definition addYear (st : State) : State :=
  let prevYears := years st in
  let '(newYearId, n) := generateId (nextId st) in
  let newYears :=
    prevYears ++
    [mkYear newYearId
       ("Year " +:+ toString (Int (Z.of_nat (length prevYears) + 1)))
       [mkSemester (newYearId +:+ "-1") "Semester 1" [];
        mkSemester (newYearId +:+ "-2") "Semester 2" []]] in
  set_expandedYears ({[newYearId]} ∪ expandedYears st)
    (commitYears newYears (set_nextId n st)).

Definition deleteYear (yearId : string) (st : State) : State :=
  let newYears := filter (λ year, year_id year ≠ yearId) (years st) in
  set_expandedYears (expandedYears st ∖ {[yearId]}) (commitYears newYears st).

Definition addSemester_year (yearId : string) (year : Year) : Gen Year :=
  if decide (year_id year = yearId) then
    newSemesterId ← generateId;
    mret (mkYear (year_id year) (year_name year)
            (year_semesters year ++
             [mkSemester newSemesterId
                ("Semester " +:+
                 toString (Int (Z.of_nat (length (year_semesters year)) + 1)))
                []]))
  else mret year.

Definition addSemester (yearId : string) (st : State) : State :=
  let '(newYears, n) := mapM (addSemester_year yearId) (years st) (nextId st) in
  commitYears newYears (set_nextId n st).

Definition deleteSemester (yearId semesterId : string) (st : State) : State :=
  let newYears :=
    (λ year,
       if decide (year_id year = yearId) then
         mkYear (year_id year) (year_name year)
           (filter (λ semester, semester_id semester ≠ semesterId)
              (year_semesters year))
       else year) <$> years st in
  commitYears newYears st.

Definition addCourse_semester (semesterId : string) (semester : Semester)
    : Gen Semester :=
  if decide (semester_id semester = semesterId) then
    newCourseId ← generateId;
    mret (mkSemester (semester_id semester) (semester_name semester)
            (semester_courses semester ++ [mkCourse newCourseId "" "A" 3]))
  else mret semester.

Definition addCourse_year (yearId semesterId : string) (year : Year) : Gen Year :=
  if decide (year_id year = yearId) then
    semesters ← mapM (addCourse_semester semesterId) (year_semesters year);
    mret (mkYear (year_id year) (year_name year) semesters)
  else mret year.

Definition addCourse (yearId semesterId : string) (st : State) : State :=
  let '(newYears, n) :=
    mapM (addCourse_year yearId semesterId) (years st) (nextId st) in
  commitYears newYears (set_nextId n st).

(** [keyof Course], and the type of the values each key holds. *)
Inductive CourseField : Type :=
  | Field_id | Field_name | Field_grade | Field_credits.

Definition FieldValue (field : CourseField) : Type :=
  match field with
  | Field_credits => Z
  | _ => string
  end.

(** [{ ...course, [field]: value }] *)
Definition setField (course : Course) (field : CourseField)
    : FieldValue field → Course :=
  match field with
  | Field_id => λ value,
      mkCourse value (course_name course) (course_grade course)
        (course_credits course)
  | Field_name => λ value,
      mkCourse (course_id course) value (course_grade course)
        (course_credits course)
  | Field_grade => λ value,
      mkCourse (course_id course) (course_name course) value
        (course_credits course)
  | Field_credits => λ value,
      mkCourse (course_id course) (course_name course) (course_grade course)
        value
  end.

Definition updateCourse_years (yearId semesterId courseId : string)
    (field : CourseField) (value : FieldValue field)
    (prevYears : list Year) : list Year :=
  (λ year,
     if decide (year_id year = yearId) then
       mkYear (year_id year) (year_name year)
         ((λ semester,
             if decide (semester_id semester = semesterId) then
               mkSemester (semester_id semester) (semester_name semester)
                 ((λ course,
                     if decide (course_id course = courseId)
                     then setField course field value
                     else course) <$> semester_courses semester)
             else semester) <$> year_semesters year)
     else year) <$> prevYears.

Definition updateCourse (yearId semesterId courseId : string)
    (field : CourseField) (value : FieldValue field) (st : State) : State :=
  commitYears
    (updateCourse_years yearId semesterId courseId field value (years st)) st.

Definition removeCourse (yearId semesterId courseId : string) (st : State)
    : State :=
  let newYears :=
    (λ year,
       if decide (year_id year = yearId) then
         mkYear (year_id year) (year_name year)
           ((λ semester,
               if decide (semester_id semester = semesterId) then
                 mkSemester (semester_id semester) (semester_name semester)
                   (filter (λ course, course_id course ≠ courseId)
                      (semester_courses semester))
               else semester) <$> year_semesters year)
       else year) <$> years st in
  commitYears newYears st.

(** [keyof UserProfile] *)
Inductive ProfileField : Type :=
  | Profile_name | Profile_indexNumber | Profile_university | Profile_photo.

Definition handleProfileChange (field : ProfileField) (value : string)
    (st : State) : State :=
  let prev := userProfile st in
  set_userProfile
    match field with
    | Profile_name =>
        mkUserProfile value (profile_indexNumber prev)
          (profile_university prev) (profile_photo prev)
    | Profile_indexNumber =>
        mkUserProfile (profile_name prev) value
          (profile_university prev) (profile_photo prev)
    | Profile_university =>
        mkUserProfile (profile_name prev) (profile_indexNumber prev)
          value (profile_photo prev)
    | Profile_photo =>
        mkUserProfile (profile_name prev) (profile_indexNumber prev)
          (profile_university prev) value
    end st.

Definition handleSaveProfile (st : State) : State :=
  set_isEditingProfile false
    (set_database (saveUserProfile (userProfile st) (database st)) st).

Definition handleDeleteProfile (st : State) : State :=
  set_isEditingProfile false
    (set_database (saveUserProfile emptyProfile (database st))
       (set_userProfile emptyProfile st)).

Definition calculateCumulativeGPA (st : State) : double :=
  calculateGPA (years st ≫= λ year, year_semesters year ≫= semester_courses).

Definition toggleYearExpansion (yearId : string) (st : State) : State :=
  set_expandedYears
    (if decide (yearId ∈ expandedYears st)
     then expandedYears st ∖ {[yearId]}
     else {[yearId]} ∪ expandedYears st) st.

(** ** Presentation layer: the events of the page *)

(** What the user can do, with the arguments the rendered handlers pass.  The
    grade selector offers the keys of the grade table only; the credits and
    text inputs deliver the text typed or pasted. *)
Inductive Event : Type :=
  | ClickAddYear
  | ClickDeleteYear (yearId : string)
  | ClickToggleYear (yearId : string)
  | ClickAddSemester (yearId : string)
  | ClickDeleteSemester (yearId semesterId : string)
  | ClickAddCourse (yearId semesterId : string)
  | ChangeCourseName (yearId semesterId courseId : string) (text : string)
  | ChangeCourseGrade (yearId semesterId courseId : string) (option : Grade)
  | ChangeCourseCredits (yearId semesterId courseId : string) (text : string)
  | ClickRemoveCourse (yearId semesterId courseId : string)
  | ClickEditProfile
  | ChangeProfile (field : ProfileField) (text : string)
  | ClickSaveProfile
  | ClickDeleteProfile
  | Reload.

(** The credits input: [parseInt(e.target.value) || 0]. *)
Definition creditsOfInput (text : string) : Z := orZero (parseInt text).

Definition handle (ev : Event) (st : State) : State :=
  match ev with
  | ClickAddYear => addYear st
  | ClickDeleteYear y => deleteYear y st
  | ClickToggleYear y => toggleYearExpansion y st
  | ClickAddSemester y => addSemester y st
  | ClickDeleteSemester y s => deleteSemester y s st
  | ClickAddCourse y s => addCourse y s st
  | ChangeCourseName y s c text => updateCourse y s c Field_name text st
  | ChangeCourseGrade y s c g => updateCourse y s c Field_grade (gradeName g) st
  | ChangeCourseCredits y s c text =>
      updateCourse y s c Field_credits (creditsOfInput text) st
  | ClickRemoveCourse y s c => removeCourse y s c st
  | ClickEditProfile => set_isEditingProfile true st
  | ChangeProfile field text => handleProfileChange field text st
  | ClickSaveProfile => handleSaveProfile st
  | ClickDeleteProfile => handleDeleteProfile st
  | Reload => startup (database st)
  end.

Definition run (evs : list Event) (st : State) : State :=
  foldl (λ st ev, handle ev st) st evs.

(** The states the page can be in: first opened on an empty database, then
    driven by events. *)
Inductive reachable : State → Prop :=
  | reachable_start : reachable (startup emptyDatabase)
  | reachable_handle ev st : reachable st → reachable (handle ev st).

(** Every id of the tree: each year's, then its semesters', each followed by
    its courses'. *)
Definition semesterIds (semester : Semester) : list string :=
  semester_id semester :: (course_id <$> semester_courses semester).

Definition yearIds (year : Year) : list string :=
  year_id year :: (year_semesters year ≫= semesterIds).

Definition treeIds (ys : list Year) : list string := ys ≫= yearIds.

Definition allCourses (ys : list Year) : list Course :=
  ys ≫= λ year, year_semesters year ≫= semester_courses.

(** ** The GPA as the specification words it

    Exact arithmetic on the decimal values of the grade table, and the usual
    rounding to hundredths (halves upward). *)

Definition exactPoints (key : string) : Q :=
  match gradeOfName key with
  | Some g => gradeTenths g # 10
  | None => 0
  end.

Definition sumCredits (courses : list Course) : Z :=
  foldr (λ course acc, course_credits course + acc) 0 courses.

Definition exactTotalPoints (courses : list Course) : Q :=
  foldr (λ course acc,
           exactPoints (course_grade course)
           * inject_Z (course_credits course) + acc)%Q 0%Q courses.

Definition exactGPA (courses : list Course) : Q :=
  (exactTotalPoints courses / inject_Z (sumCredits courses))%Q.

Definition roundedGPA (courses : list Course) : Z :=
  Double.nearestHundredths (exactGPA courses).

(** The courses of the worked example of the specification, and a second
    list whose exact average, 3.675, lies halfway between two hundredths. *)
Definition exampleCourses : list Course :=
  [mkCourse "2" "" "A" 3; mkCourse "3" "" "B+" 4].

Definition halfwayCourses : list Course :=
  [mkCourse "2" "" "A" 3; mkCourse "3" "" "B-" 1].

(** [n] applications of [generateId] leave the counter at [bump n]. *)
Definition bump (k : nat) (n : jsnum) : jsnum := Nat.iter k incr n.

Definition matching (yearId : string) (ys : list Year) : nat :=
  length (filter (λ year, year_id year = yearId) ys).

Definition sumAbsCredits (courses : list Course) : Z :=
  foldr (λ course acc, Z.abs (course_credits course) + acc) 0 courses.

(** [n] is the integer nearest to [x], the larger one when two are equally
    near. *)
Definition nearestInteger (x : Q) (n : Z) : Prop :=
  ∀ k : Z,
    (Qabs (inject_Z n - x) <= Qabs (inject_Z k - x))%Q
    ∧ ((Qabs (inject_Z k - x) == Qabs (inject_Z n - x))%Q → k ≤ n).

(** ** The ids the counter issues

    An id of the tree is the decimal rendering of a counter value, or that
    followed by [-1] or [-2] for the two semesters a new year starts with. *)
Definition isDigit (c : ascii) : Prop := ∃ d, (d < 10)%N ∧ c = pretty_N_char d.

Inductive idForm : Type := Plain | Dash1 | Dash2.

Definition mkId (k : Z) (f : idForm) : string :=
  match f with
  | Plain => toString (Int k)
  | Dash1 => toString (Int k) +:+ "-1"
  | Dash2 => toString (Int k) +:+ "-2"
  end.

Definition issued (n : Z) (x : string) : Prop :=
  ∃ k f, 1 ≤ k ≤ n ∧ x = mkId k f.

(** The ids [generateId] returns while the counter goes from [k] to [k']. *)
Definition newIds (k k' : Z) : list string :=
  (λ i, toString (Int i)) <$> seqZ (k + 1) (k' - k).

Definition wfIds (n : Z) (ids : list string) : Prop :=
  NoDup ids ∧ Forall (issued n) ids.

(** A computation on part of the tree that only adds ids fresh from the
    counter. *)
Definition grows {T} (ids : T → list string) (f : T → Gen T) : Prop :=
  ∀ x k, ∃ k', k ≤ k' ∧ (f x (Int k)).2 = Int k'
               ∧ ids (f x (Int k)).1 ≡ₚ ids x ++ newIds k k'.

Definition keyed (ys : list Year) : list (string * Year) :=
  (λ year, (year_id year, year)) <$> ys.

(** What holds of every state of the page: the counter is a number that
    bounds every id issued, the ids of the tree are pairwise distinct, and the
    store holds the years of the tree. *)
Definition invariant (st : State) : Prop :=
  ∃ n, nextId st = Int n ∧ 1 ≤ n ∧ wfIds n (treeIds (years st))
       ∧ yearsStore (database st) = list_to_map (keyed (years st)).

(** The largest number [parseInt] reads off the ids of a tree. *)
Definition isMaxId (ys : list Year) (m : Z) : Prop :=
  (∃ x, x ∈ treeIds ys ∧ parseInt x = Int m)
  ∧ ∀ x, x ∈ treeIds ys → ∃ k, parseInt x = Int k ∧ k ≤ m.

(** The counter a page starts with when the store holds the years [ys]. *)
Definition seededFrom (ys : list Year) (n : jsnum) : Prop :=
  match ys with
  | [] => n = Int 1
  | _ :: _ => ∃ m, isMaxId ys m ∧ n = Int (m + 1)
  end.

(** The events that add to the tree. *)
Definition isAdd (ev : Event) : Prop :=
  match ev with
  | ClickAddYear | ClickAddSemester _ | ClickAddCourse _ _ => True
  | _ => False
  end.

(** Two courses that agree on every field but, possibly, [field]. *)
Definition sameExcept (field : CourseField) (c c' : Course) : Prop :=
  (field ≠ Field_id → course_id c' = course_id c)
  ∧ (field ≠ Field_name → course_name c' = course_name c)
  ∧ (field ≠ Field_grade → course_grade c' = course_grade c)
  ∧ (field ≠ Field_credits → course_credits c' = course_credits c).

(** A list of two years to save. *)
Definition sampleYears : list Year :=
  [initialYear;
   mkYear "2" "Year 2"
     [mkSemester "2-1" "Semester 1" [mkCourse "3" "" "A" 3]]].

(** ** Terms of the further properties *)

(** Two years that carry the same id. *)
Definition clashingYears : list Year :=
  [mkYear "1" "Year 1" []; mkYear "1" "Year 1 again" []].

(** The profile store holds nothing but the record [saveUserProfile] puts,
    under the key it puts it at. *)
Definition onlyUserKey (db : Database) : Prop :=
  ∀ key r, userProfileStore db !! key = Some r →
           key = "user" ∧ record_id r = "user".

(** The order [getAll] returns the years in: ascending ids, compared as
    strings. *)
Definition byYearId (a b : Year) : Prop := String.le (year_id a) (year_id b).

(** The characters [0] to [9]. *)
Definition isDecimalDigit (c : ascii) : bool :=
  ((48 <=? N_of_ascii c) && (N_of_ascii c <=? 57))%N.

(** Text at which the digits of a decimal number end: nothing, or something
    that starts with a character other than a decimal digit. *)
Definition endsDigits (rest : string) : Prop :=
  match rest with
  | EmptyString => True
  | String c _ => isDecimalDigit c = false
  end.

(** Text that turns a leading [0] into the prefix of a hexadecimal number. *)
Definition startsWithX (rest : string) : Prop :=
  ∃ t, rest = String "x" t ∨ rest = String "X" t.

(** The courses of a year, in the order [calculateYearGPA] reads them. *)
Definition yearCourses (year : Year) : list Course :=
  year_semesters year ≫= semester_courses.

(** A course whose grade is one of the keys of the grade table. *)
Definition gradeListed (course : Course) : Prop :=
  ∃ g, course_grade course = gradeName g.

(** What [calculateGPA] reads of a course. *)
Definition marks (course : Course) : string * Z :=
  (course_grade course, course_credits course).

(** The grades whose points are a whole number: A, B, C, D and F. *)
Definition wholeGrade (g : Grade) : Prop := gradeTenths g `mod` 10 = 0.

(** Two courses graded A. *)
Definition straightAs : list Course :=
  [mkCourse "2" "Algebra" "A" 3; mkCourse "3" "Logic" "A" 4].

(** A session that ends with courses in the years 2 and 10: a second year,
    seven more semesters for year 1 (ids 3 to 9), a third year (id 10), two
    courses in year 2 (A and A-, one credit each) and one in year 10 (C-,
    two credits). *)
Definition tenYearsSession : list Event :=
  [ClickAddYear] ++ replicate 7 (ClickAddSemester "1") ++
  [ClickAddYear;
   ClickAddCourse "2" "2-1"; ClickAddCourse "2" "2-1";
   ClickAddCourse "10" "10-1";
   ChangeCourseCredits "2" "2-1" "11" "1";
   ChangeCourseGrade "2" "2-1" "12" GA_minus;
   ChangeCourseCredits "2" "2-1" "12" "1";
   ChangeCourseGrade "10" "10-1" "13" GC_minus;
   ChangeCourseCredits "10" "10-1" "13" "2"].

(** The events that write the profile to the database. *)
Definition writesProfile (ev : Event) : Prop :=
  match ev with
  | ClickSaveProfile | ClickDeleteProfile => True
  | _ => False
  end.

(** An id the counter issues after it has passed [n] and before it passes
    [n']. *)
Definition issuedBetween (n n' : Z) (x : string) : Prop :=
  ∃ k f, n < k ≤ n' ∧ x = mkId k f.

(** ** Terms of the error analysis of the GPA *)

(** Half a unit in the last place of a number between 1 and 2: 2^-53. *)
Definition unitRoundoff : Q := 1 # 9007199254740992.

(** The record of a right shift stands for the number [y]: its integer
    part is the mantissa, and the round and sticky bits tell where [y]
    lies between the mantissa and its successor. *)
Definition located (mrs : shr_record) (y : Q) : Prop :=
  0 ≤ shr_m mrs
  ∧ match shr_r mrs, shr_s mrs with
    | false, false => (y == inject_Z (shr_m mrs))%Q
    | false, true =>
        (inject_Z (shr_m mrs) < y ∧ y < inject_Z (shr_m mrs) + (1 # 2))%Q
    | true, false => (y == inject_Z (shr_m mrs) + (1 # 2))%Q
    | true, true =>
        (inject_Z (shr_m mrs) + (1 # 2) < y ∧ y < inject_Z (shr_m mrs) + 1)%Q
    end.

(** A positive double with a full 53-bit mantissa. *)
Definition positive53 (d : double) : Prop :=
  ∃ m e, d = S754_finite false m e ∧ Double.digits m = 53.

(** Such a double with an exponent far from the ends of the range. *)
Definition normalized (d : double) : Prop :=
  ∃ m e, d = S754_finite false m e ∧ Double.digits m = 53 ∧ -100 ≤ e ≤ 100.

(** A double the running sum of the points can be: +0, or a positive double
    with a full mantissa between 1/4 and 2^60. *)
Definition summand (d : double) : Prop :=
  d = Double.zero
  ∨ (positive53 d
     ∧ (1 # 4 <= Double.to_Q d)%Q ∧ (Double.to_Q d <= inject_Z (2 ^ 60))%Q).

(** The bound on the relative error of the running sum after [k] courses:
    (2k + 3) * 2^-53. *)
Definition errorBound (k : Z) : Q := inject_Z (2 * k + 3) * unitRoundoff.

(** A course the GPA is specified for: its grade is a key of the grade
    table and its credits are a non-negative integer. *)
Definition gradedCourse (course : Course) : Prop :=
  is_Some (gradePoints (course_grade course)) ∧ 0 ≤ course_credits course.

(** * Properties *)

(** ** Doubles that hold integers

    Up to 2^53 the double of an integer is exact, and so is the sum of two
    such doubles: the running total of the credits is the integer sum. *)

Section DoubleIntegers.
Local Abbreviation digits := Double.digits.
Local Abbreviation canonical := Double.canonical.
Local Abbreviation signed := Double.signed.

Lemma digits_bounds p : 2 ^ (digits p - 1) ≤ Z.pos p < 2 ^ digits p.
Proof.
  unfold digits. induction p as [p [IH1 IH2]|p [IH1 IH2]|]; simpl digits2_pos.
  - rewrite Pos2Z.inj_succ.
    replace (Z.succ (Z.pos (digits2_pos p)) - 1) with (Z.succ (Z.pos (digits2_pos p) - 1)) by lia.
    rewrite !Z.pow_succ_r; lia.
  - rewrite Pos2Z.inj_succ.
    replace (Z.succ (Z.pos (digits2_pos p)) - 1) with (Z.succ (Z.pos (digits2_pos p) - 1)) by lia.
    rewrite !Z.pow_succ_r; lia.
  - simpl. lia.
Qed.

Lemma digits_unique p d : 2 ^ (d - 1) ≤ Z.pos p < 2 ^ d → digits p = d.
Proof.
  intros [Hlo Hhi]. pose proof (digits_bounds p) as [Hlo' Hhi'].
  assert (0 < digits p) by (unfold digits; lia).
  assert (0 ≤ d).
  { destruct (Z.lt_ge_cases d 0) as [Hd|]; [|done].
    rewrite (Z.pow_neg_r 2 d) in Hhi by done. lia. }
  destruct (Z.lt_trichotomy (digits p) d) as [Hlt|[->|Hgt]]; [|done|].
  - assert (2 ^ digits p ≤ 2 ^ (d - 1)) by (apply Z.pow_le_mono_r; lia). lia.
  - assert (2 ^ d ≤ 2 ^ (digits p - 1)) by (apply Z.pow_le_mono_r; lia). lia.
Qed.

Lemma digits_shift p q k :
  0 ≤ k → Z.pos q = Z.pos p * 2 ^ k → digits q = digits p + k.
Proof.
  intros Hk Hq. apply digits_unique. rewrite Hq.
  pose proof (digits_bounds p) as [Hlo Hhi].
  assert (0 < digits p) by (unfold digits; lia).
  replace (digits p + k - 1) with ((digits p - 1) + k) by lia.
  rewrite !Z.pow_add_r by lia.
  assert (0 < 2 ^ k) by (apply Z.pow_pos_nonneg; lia). nia.
Qed.

Lemma iter_pos_nat {T} (f : T → T) p x :
  SpecFloat.iter_pos f p x = Nat.iter (Pos.to_nat p) f x.
Proof.
  revert x. induction p as [p IH|p IH|]; intros x; cbn [SpecFloat.iter_pos].
  - rewrite !IH, Pos2Nat.inj_xI, <-Nat.iter_succ_r, <-Nat.iter_add.
    f_equal. lia.
  - rewrite !IH, Pos2Nat.inj_xO, <-Nat.iter_add. f_equal. lia.
  - done.
Qed.

Lemma iter_shr_1_exact n m q :
  Z.pos q = Z.pos m * 2 ^ Z.of_nat n →
  Nat.iter n shr_1 (Build_shr_record (Z.pos q) false false)
  = Build_shr_record (Z.pos m) false false.
Proof.
  revert q. induction n as [|n IH]; intros q Hq.
  - simpl in *. f_equal. lia.
  - rewrite Nat.iter_succ_r. rewrite Nat2Z.inj_succ, Z.pow_succ_r in Hq by lia.
    destruct q as [q|q|]; [lia| |lia].
    simpl shr_1. apply IH. lia.
Qed.

Lemma shr_exact m q e n :
  0 ≤ n → Z.pos q = Z.pos m * 2 ^ n →
  shr (Build_shr_record (Z.pos q) false false) e n
  = (Build_shr_record (Z.pos m) false false, e + n).
Proof.
  intros Hn Hq. destruct n as [|p|p]; [| |lia].
  - simpl. rewrite Z.mul_1_r in Hq. rewrite Z.add_0_r. by simplify_eq.
  - unfold shr. rewrite iter_pos_nat. f_equal.
    apply iter_shr_1_exact. by rewrite positive_nat_Z.
Qed.

(** Rounding a mantissa that is a 53-bit mantissa m shifted left by n: exact. *)
Lemma binary_round_aux_exact sx q e m n :
  0 ≤ n → Z.pos q = Z.pos m * 2 ^ n → digits m = 53 →
  -1074 ≤ e + n ≤ 971 →
  binary_round_aux Double.prec Double.emax sx (Z.pos q) e loc_Exact = S754_finite sx m (e + n).
Proof.
  intros Hn Hq Hm He. unfold binary_round_aux, shr_fexp.
  assert (Zdigits2 (Z.pos q) = 53 + n) as ->.
  { change (Zdigits2 (Z.pos q)) with (digits q).
    rewrite (digits_shift m q n), Hm by done. done. }
  assert (fexp Double.prec Double.emax (53 + n + e) - e = n) as ->.
  { unfold fexp, emin, Double.prec, Double.emax. lia. }
  simpl shr_record_of_loc. rewrite (shr_exact m q e n) by done.
  simpl round_nearest_even.
  change (Zdigits2 (Z.pos m)) with (digits m). rewrite Hm.
  assert (fexp Double.prec Double.emax (53 + (e + n)) - (e + n) = 0) as ->.
  { unfold fexp, emin, Double.prec, Double.emax. lia. }
  simpl. destruct (Z.leb_spec (e + n) (Double.emax - Double.prec)) as [|Hlt]; [done|].
  unfold Double.emax, Double.prec in Hlt. lia.
Qed.

Lemma shl_align_value m e e' :
  e' ≤ e → Z.pos (shl_align m e e').1 = Z.pos m * 2 ^ (e - e').
Proof.
  intros He. unfold shl_align.
  destruct (e' - e) as [|d|d] eqn:Hd; [|lia|]; simpl.
  - assert (e = e') as -> by lia. rewrite Z.sub_diag. lia.
  - change (Pos.iter xO m d) with (shift_pos d m).
    rewrite shift_pos_correct, Zpower_pos_nat, Zpower_nat_Z, positive_nat_Z.
    replace (e - e') with (Z.pos d) by lia. lia.
Qed.

Lemma shl_align_exponent m e e' : e' ≤ e → (shl_align m e e').2 = e'.
Proof.
  intros He. unfold shl_align.
  destruct (e' - e) as [|d|d] eqn:Hd; [|lia|]; simpl; lia.
Qed.

Lemma shl_align_id m e e' : e ≤ e' → shl_align m e e' = (m, e).
Proof.
  intros He. unfold shl_align.
  destruct (e' - e) as [|d|d] eqn:Hd; [done|done|lia].
Qed.

Lemma digits_pos p : 0 < digits p.
Proof. unfold digits. lia. Qed.

Lemma digits_le_53 p : Z.pos p < 2 ^ 53 → digits p ≤ 53.
Proof.
  intros Hp. pose proof (digits_bounds p) as [Hlo _].
  destruct (Z.le_gt_cases (digits p) 53) as [|Hgt]; [done|].
  assert (2 ^ 53 ≤ 2 ^ (digits p - 1)) by (apply Z.pow_le_mono_r; lia). lia.
Qed.

Lemma binary_round_integer sx q k p :
  0 ≤ k → Z.pos q = Z.pos p * 2 ^ k → Z.pos p < 2 ^ 53 →
  binary_round Double.prec Double.emax sx q (- k) = canonical sx p.
Proof.
  intros Hk Hq Hp. pose proof (digits_le_53 p Hp) as Hd.
  pose proof (digits_pos p) as Hd0.
  assert (0 < 2 ^ (53 - digits p)) as Hpow by (apply Z.pow_pos_nonneg; lia).
  set (m := Z.to_pos (Z.pos p * 2 ^ (53 - digits p))).
  assert (Z.pos m = Z.pos p * 2 ^ (53 - digits p)) as Hm.
  { unfold m. rewrite Z2Pos.id; lia. }
  assert (digits m = 53) as Hdm.
  { rewrite (digits_shift p m (53 - digits p)) by (done || lia). lia. }
  unfold binary_round, canonical. fold m.
  change (Z.pos (digits2_pos q)) with (digits q).
  rewrite (digits_shift p q k) by done.
  assert (fexp Double.prec Double.emax (digits p + k + - k) = digits p - 53) as ->.
  { unfold fexp, emin, Double.prec, Double.emax. lia. }
  destruct (Z.le_gt_cases (digits p - 53) (- k)) as [Hle|Hgt].
  - pose proof (shl_align_value q (- k) (digits p - 53) Hle) as Hv.
    pose proof (shl_align_exponent q (- k) (digits p - 53) Hle) as He.
    destruct (shl_align q (- k) (digits p - 53)) as [mz ez]. simpl in *. subst ez.
    replace (digits p - 53) with (digits p - 53 + 0) at 2 by lia.
    apply binary_round_aux_exact; [lia| |done|lia].
    rewrite Hv, Hq, Hm, Z.mul_1_r, <-Z.mul_assoc, <-Z.pow_add_r by lia.
    do 2 f_equal. lia.
  - rewrite shl_align_id by lia.
    replace (digits p - 53) with (- k + (digits p - 53 + k)) by lia.
    apply binary_round_aux_exact; [lia| |done|lia].
    rewrite Hq, Hm, <-Z.mul_assoc, <-Z.pow_add_r by lia.
    do 2 f_equal. lia.
Qed.

Lemma of_Z_pos p : Z.pos p < 2 ^ 53 → Double.of_Z (Z.pos p) = canonical false p.
Proof.
  intros Hp. unfold Double.of_Z, binary_normalize.
  apply (binary_round_integer false p 0 p); [done|lia|done].
Qed.

Lemma of_Z_neg p : Z.pos p < 2 ^ 53 → Double.of_Z (Z.neg p) = canonical true p.
Proof.
  intros Hp. unfold Double.of_Z, binary_normalize.
  apply (binary_round_integer true p 0 p); [done|lia|done].
Qed.

(** The double of an integer, by cases on its sign. *)
Lemma of_Z_cases z :
  Z.abs z < 2 ^ 53 →
  match z with
  | 0 => Double.of_Z z = Double.zero
  | Z.pos p => Double.of_Z z = canonical false p
  | Z.neg p => Double.of_Z z = canonical true p
  end.
Proof.
  destruct z as [|p|p]; intros Hz; [done|by apply of_Z_pos|by apply of_Z_neg].
Qed.

Lemma canonical_mantissa_value p :
  Z.pos p < 2 ^ 53 →
  Z.pos (Z.to_pos (Z.pos p * 2 ^ (53 - digits p))) = Z.pos p * 2 ^ (53 - digits p).
Proof.
  intros Hp. pose proof (digits_le_53 p Hp).
  assert (0 < 2 ^ (53 - digits p)) by (apply Z.pow_pos_nonneg; lia).
  rewrite Z2Pos.id; lia.
Qed.

Lemma binary_normalize_integer z k :
  0 ≤ k → Z.abs z < 2 ^ 53 →
  binary_normalize Double.prec Double.emax (z * 2 ^ k) (- k) false = Double.of_Z z.
Proof.
  intros Hk Hz. assert (0 < 2 ^ k) as Hpow by (apply Z.pow_pos_nonneg; lia).
  destruct z as [|p|p].
  - done.
  - destruct (Z.pos p * 2 ^ k) as [|q|q] eqn:Hq; [lia| |lia].
    rewrite of_Z_pos by done. simpl. by apply binary_round_integer.
  - destruct (Z.neg p * 2 ^ k) as [|q|q] eqn:Hq; [lia|lia|].
    rewrite of_Z_neg by done. simpl. apply binary_round_integer; [done|lia|done].
Qed.

Lemma add_canonical sa sb p q :
  Z.pos p < 2 ^ 53 → Z.pos q < 2 ^ 53 →
  Z.abs (signed sa p + signed sb q) < 2 ^ 53 →
  Double.add (canonical sa p) (canonical sb q)
  = Double.of_Z (signed sa p + signed sb q).
Proof.
  intros Hp Hq Hpq. unfold Double.add, canonical, SFadd.
  pose proof (digits_le_53 p Hp) as Hdp. pose proof (digits_le_53 q Hq) as Hdq.
  pose proof (digits_pos p). pose proof (digits_pos q).
  set (ez := Z.min (digits p - 53) (digits q - 53)).
  rewrite <-(binary_normalize_integer _ (- ez)) by (done || lia).
  rewrite Z.opp_involutive. f_equal.
  assert (∀ s r, Z.pos r < 2 ^ 53 → ez ≤ digits r - 53 →
    cond_Zopp s (Z.pos (shl_align (Z.to_pos (Z.pos r * 2 ^ (53 - digits r)))
                         (digits r - 53) ez).1)
    = signed s r * 2 ^ (- ez)) as Hside.
  { intros s r Hr Hez. pose proof (digits_le_53 r Hr). pose proof (digits_pos r).
    rewrite shl_align_value, canonical_mantissa_value by done.
    rewrite <-Z.mul_assoc, <-Z.pow_add_r by lia.
    replace (53 - digits r + (digits r - 53 - ez)) with (- ez) by lia.
    unfold signed. destruct s; simpl; lia. }
  rewrite !Hside by (done || lia). lia.
Qed.

(** Adding the doubles of two integers is exact as long as everything
    stays below 2^53. *)
Lemma add_of_Z a b :
  Z.abs a < 2 ^ 53 → Z.abs b < 2 ^ 53 → Z.abs (a + b) < 2 ^ 53 →
  Double.add (Double.of_Z a) (Double.of_Z b) = Double.of_Z (a + b).
Proof.
  intros Ha Hb Hab.
  destruct a as [|p|p], b as [|q|q]; cbn [Z.abs] in Ha, Hb; try done.
  - by rewrite Z.add_0_l, of_Z_pos.
  - by rewrite Z.add_0_l, of_Z_neg.
  - by rewrite Z.add_0_r, of_Z_pos.
  - rewrite (of_Z_pos p), (of_Z_pos q) by done. by apply (add_canonical false false).
  - rewrite (of_Z_pos p), (of_Z_neg q) by done. by apply (add_canonical false true).
  - by rewrite Z.add_0_r, of_Z_neg.
  - rewrite (of_Z_neg p), (of_Z_pos q) by done. by apply (add_canonical true false).
  - rewrite (of_Z_neg p), (of_Z_neg q) by done. by apply (add_canonical true true).
Qed.

Lemma gt_of_Z z : Z.abs z < 2 ^ 53 → Double.gt (Double.of_Z z) Double.zero = (0 <? z).
Proof.
  intros Hz. destruct z as [|p|p]; cbn [Z.abs] in Hz; [done| |].
  - by rewrite of_Z_pos.
  - by rewrite of_Z_neg.
Qed.
End DoubleIntegers.

(** ** GPA engine *)

(** The integer [toFixed] picks is the nearest one, the larger at a tie. *)
Lemma nearestHundredths_nearest x :
  nearestInteger (100 * x) (Double.nearestHundredths x).
Proof.
  unfold nearestInteger, Double.nearestHundredths. intros k.
  set (y := (100 * x + (1 # 2))%Q).
  pose proof (Qfloor_le y) as Hlo. pose proof (Qlt_floor y) as Hhi.
  set (n := Qfloor y) in *.
  rewrite inject_Z_plus in Hhi. change (inject_Z 1) with 1%Q in Hhi.
  assert (Qabs (inject_Z n - 100 * x) <= 1 # 2)%Q as Hn.
  { apply Qabs_Qle_condition. unfold y in *. split; lra. }
  destruct (Z.le_gt_cases k n) as [Hk|Hk].
  - split; [|done].
    destruct (Z.eq_dec k n) as [->|Hne]; [apply Qle_refl|].
    assert (k + 1 ≤ n) as Hk' by lia.
    rewrite Zle_Qle in Hk'.
    rewrite inject_Z_plus in Hk'. change (inject_Z 1) with 1%Q in Hk'.
    assert (Qabs (inject_Z k - 100 * x) == - (inject_Z k - 100 * x))%Q as ->
      by (apply Qabs_neg; unfold y in *; lra).
    unfold y in *. lra.
  - assert (n + 1 ≤ k) as Hk' by lia.
    rewrite Zle_Qle in Hk'.
    rewrite inject_Z_plus in Hk'. change (inject_Z 1) with 1%Q in Hk'.
    assert (1 # 2 < Qabs (inject_Z k - 100 * x))%Q as Hfar.
    { eapply Qlt_le_trans; [|apply Qle_Qabs]. unfold y in *. lra. }
    split.
    + eapply Qle_trans; [apply Hn|]. by apply Qlt_le_weak.
    + intros Heq. rewrite Heq in Hfar. exfalso. apply (Qlt_not_le _ _ Hfar Hn).
Qed.

Lemma foldl_accumulate courses acc :
  foldl accumulate acc courses
  = (foldl (λ a course, Double.add a (coursePoints course)) acc.1 courses,
     foldl (λ a course, Double.add a (Double.of_Z (course_credits course)))
       acc.2 courses).
Proof.
  revert acc. induction courses as [|course courses IH]; intros [a b]; [done|].
  simpl. by rewrite IH.
Qed.

Lemma sumAbsCredits_nonneg courses : 0 ≤ sumAbsCredits courses.
Proof. induction courses; simpl; lia. Qed.

Lemma totalCredits_exact courses z :
  Z.abs z + sumAbsCredits courses < 2 ^ 53 →
  foldl (λ a course, Double.add a (Double.of_Z (course_credits course)))
    (Double.of_Z z) courses
  = Double.of_Z (z + sumCredits courses).
Proof.
  revert z. induction courses as [|course courses IH]; intros z Hz.
  - simpl. by rewrite Z.add_0_r.
  - change (sumAbsCredits (course :: courses))
      with (Z.abs (course_credits course) + sumAbsCredits courses) in Hz.
    change (sumCredits (course :: courses))
      with (course_credits course + sumCredits courses).
    cbn [foldl]. pose proof (sumAbsCredits_nonneg courses).
    rewrite add_of_Z by lia. rewrite IH by lia. f_equal. lia.
Qed.

(** C1 (as stated, refuted): for the courses A with 3 credits and B- with 1
    credit, both grades of the table and 4 credits in all, the exact average
    (4.0*3 + 2.7*1)/4 is 3.675, which rounds to 3.68 (halves upward, and to
    the even hundredth as well); [calculateGPA] returns 3.67, because the
    double-precision quotient lies just below 3.675. *)
Lemma calculateGPA_halfway_is_not_the_exact_rounding :
  Forall (λ course, is_Some (gradePoints (course_grade course))) halfwayCourses
  ∧ 0 < sumCredits halfwayCourses
  ∧ (exactGPA halfwayCourses == 3675 # 1000)%Q
  ∧ roundedGPA halfwayCourses = 368
  ∧ calculateGPA halfwayCourses = Double.of_ratio false 367 100
  ∧ calculateGPA halfwayCourses
    ≠ Double.of_ratio false (roundedGPA halfwayCourses) 100.
Proof.
  split_and!.
  - repeat constructor; vm_compute; eauto.
  - done.
  - done.
  - done.
  - by vm_compute.
  - by vm_compute.
Qed.

(** C5 (as stated, refuted): on the courses A/3 and B+/4 the result is not
    3.63. *)
Lemma calculateGPA_example_is_not_3_63 :
  calculateGPA exampleCourses ≠ Double.of_ratio false 363 100.
Proof. vm_compute. discriminate. Qed.

(** C5 (amended): on the courses A/3 and B+/4 the result is 3.6, which is
    also the exact average (4.0*3 + 3.3*4)/7 = 25.2/7 and its rounding to two
    places, 360 hundredths. *)
Theorem calculateGPA_example_is_3_6 :
  calculateGPA exampleCourses = Double.of_ratio false 36 10
  ∧ calculateGPA exampleCourses = Double.of_ratio false 360 100
  ∧ (exactGPA exampleCourses == 36 # 10)%Q
  ∧ roundedGPA exampleCourses = 360.
Proof. vm_compute. repeat split. Qed.

(** ** Counter ids and [parseInt] *)

Lemma isDigit_cases c (P : ascii → Prop) :
  isDigit c →
  P "0"%char → P "1"%char → P "2"%char → P "3"%char → P "4"%char →
  P "5"%char → P "6"%char → P "7"%char → P "8"%char → P "9"%char → P c.
Proof.
  intros (d & Hd & ->) ??????????.
  assert (d = 0 ∨ d = 1 ∨ d = 2 ∨ d = 3 ∨ d = 4 ∨ d = 5 ∨ d = 6 ∨ d = 7
          ∨ d = 8 ∨ d = 9)%N as Hcases by lia.
  repeat (destruct Hcases as [->|Hcases]; [done|]). by subst.
Qed.

Lemma digitValue_pretty d :
  (d < 10)%N → digitValue (pretty_N_char d) = Some (Z.of_N d).
Proof.
  intros Hd.
  assert (d = 0 ∨ d = 1 ∨ d = 2 ∨ d = 3 ∨ d = 4 ∨ d = 5 ∨ d = 6 ∨ d = 7
          ∨ d = 8 ∨ d = 9)%N as Hcases by lia.
  repeat (destruct Hcases as [->|Hcases]; [done|]). by subst.
Qed.

Lemma parseDigits_pretty x s :
  parseDigits 10 (pretty_N_go x s) None
  = parseDigits 10 s (if decide (x = 0%N) then None else Some (Z.of_N x)).
Proof.
  revert s. induction (N.lt_wf_0 x) as [x _ IH]; intros s.
  destruct (decide (x = 0%N)) as [->|Hx]; [done|].
  rewrite pretty_N_go_step by lia.
  rewrite IH by (apply N.div_lt; lia).
  cbn [parseDigits]. rewrite digitValue_pretty by (apply N.mod_lt; lia).
  assert ((Z.of_N (x `mod` 10) <? 10) = true) as ->.
  { apply Z.ltb_lt. pose proof (N.mod_lt x 10). lia. }
  f_equal. f_equal.
  pose proof (N.div_mod x 10 ltac:(done)) as Hdm.
  destruct (decide (x `div` 10 = 0)%N) as [Hz|Hz]; simpl.
  - rewrite Hz in Hdm. lia.
  - lia.
Qed.

Ltac by_digit H :=
  match type of H with
  | isDigit ?c => pattern c; apply (λ P, isDigit_cases c P H); cbv beta
  end.

(** The first character of a positive number's digits is a digit, and the
    second, when the number continues, is one too. *)
Lemma pretty_N_go_shape x s :
  (0 < x)%N →
  ∃ c t, pretty_N_go x s = String c t ∧ isDigit c
         ∧ (t = s ∨ ∃ c' t', t = String c' t' ∧ isDigit c').
Proof.
  revert s. induction (N.lt_wf_0 x) as [x _ IH]; intros s Hx.
  rewrite pretty_N_go_step by done.
  assert (isDigit (pretty_N_char (x `mod` 10))) as Hd.
  { eexists. split; [|done]. apply N.mod_lt. lia. }
  destruct (decide (x `div` 10 = 0)%N) as [Hz|Hz].
  - rewrite Hz, pretty_N_go_0. eauto 10.
  - assert (0 < x `div` 10)%N as Hpos by (by apply N.neq_0_lt_0).
    destruct (IH (x `div` 10)%N (N.div_lt x 10 Hx eq_refl)
                (String (pretty_N_char (x `mod` 10)) s) Hpos)
      as (c & t & -> & Hc & Ht).
    exists c, t. split_and!; [done..|].
    right. destruct Ht as [->|(c' & t' & -> & Hc')]; eauto.
Qed.

(** [parseInt] reads a positive counter value back from its digits, also when
    they are followed by a dash and more. *)
Lemma parseInt_pretty_go x s :
  (0 < x)%N → (s = "" ∨ ∃ t, s = String "-" t) →
  parseInt (pretty_N_go x s) = Int (Z.of_N x).
Proof.
  intros Hx Hs.
  assert (parseDigits 10 (pretty_N_go x s) None = Some (Z.of_N x)) as Hparse.
  { rewrite parseDigits_pretty. rewrite decide_False by lia.
    by destruct Hs as [->|[t ->]]. }
  destruct (pretty_N_go_shape x s Hx) as (c & t & Heq & Hc & Ht).
  rewrite Heq in *. unfold parseInt.
  assert (trimStart (String c t) = String c t) as ->.
  { by by_digit Hc. }
  assert (match String c t with
          | String "-" r => (true, r)
          | String "+" r => (false, r)
          | _ => (false, String c t)
          end = (false, String c t)) as ->.
  { by by_digit Hc. }
  assert (match String c t with
          | String "0" (String "x" r) => (16, r)
          | String "0" (String "X" r) => (16, r)
          | _ => (10, String c t)
          end = (10, String c t)) as ->.
  { destruct Ht as [->|(c' & t' & -> & Hc')].
    - destruct Hs as [->|[t' ->]]; by by_digit Hc.
    - by_digit Hc; try done. by by_digit Hc'. }
  by rewrite Hparse.
Qed.

Lemma pretty_N_go_app x s t : pretty_N_go x s +:+ t = pretty_N_go x (s +:+ t).
Proof.
  revert s. induction (N.lt_wf_0 x) as [x _ IH]; intros s.
  destruct (decide (x = 0%N)) as [->|Hx]; [done|].
  rewrite (pretty_N_go_step x s), (pretty_N_go_step x (s +:+ t)) by lia.
  rewrite IH by (apply N.div_lt; lia). reflexivity.
Qed.

Lemma toString_pos k : 1 ≤ k → toString (Int k) = pretty_N_go (Z.to_N k) "".
Proof. destruct k as [|p|p]; [lia| |lia]. intros _. done. Qed.

Lemma parseInt_mkId k f : 1 ≤ k → parseInt (mkId k f) = Int k.
Proof.
  intros Hk. unfold mkId. rewrite toString_pos by done.
  destruct f; rewrite ?pretty_N_go_app; simpl String.app;
    rewrite parseInt_pretty_go by (lia || eauto); f_equal; lia.
Qed.

Lemma string_app_length s t :
  String.length (s +:+ t) = (String.length s + String.length t)%nat.
Proof. induction s; simpl; [done|]. by f_equal. Qed.

Lemma mkId_inj k k' f f' :
  1 ≤ k → 1 ≤ k' → mkId k f = mkId k' f' → k = k' ∧ f = f'.
Proof.
  intros Hk Hk' Heq.
  assert (k = k') as <-.
  { apply (f_equal parseInt) in Heq. rewrite !parseInt_mkId in Heq by done.
    by simplify_eq. }
  split; [done|].
  destruct f, f'; try done; simpl in Heq;
    try (apply (f_equal String.length) in Heq; rewrite string_app_length in Heq;
         simpl in Heq; lia);
    by apply (inj (String.app _)) in Heq.
Qed.

Lemma issued_mono n n' x : n ≤ n' → issued n x → issued n' x.
Proof. intros Hn (k & f & Hk & ->). exists k, f. split; [lia|done]. Qed.

Lemma newIds_nil k : newIds k k = [].
Proof. unfold newIds. by rewrite Z.sub_diag. Qed.

Lemma newIds_one k : newIds k (k + 1) = [toString (Int (k + 1))].
Proof. unfold newIds. by replace (k + 1 - k) with 1 by lia. Qed.

Lemma newIds_app k1 k2 k3 :
  k1 ≤ k2 → k2 ≤ k3 → newIds k1 k2 ++ newIds k2 k3 = newIds k1 k3.
Proof.
  intros H12 H23. unfold newIds. rewrite <-fmap_app. f_equal.
  replace (k3 - k1) with ((k2 - k1) + (k3 - k2)) by lia.
  rewrite seqZ_app by lia. do 2 f_equal. lia.
Qed.

Lemma elem_of_newIds k k' x :
  x ∈ newIds k k' ↔ ∃ i, k < i ≤ k' ∧ x = mkId i Plain.
Proof.
  unfold newIds. rewrite list_elem_of_fmap. setoid_rewrite elem_of_seqZ.
  split; intros (i & H1 & H2); exists i; simpl; (split; [lia|done]) || (split; [done|lia]).
Qed.

Lemma NoDup_newIds k k' : NoDup (newIds k k').
Proof.
  unfold newIds. apply NoDup_fmap_2_strong; [|apply NoDup_seqZ].
  intros i j _ _ Heq. simpl in Heq. by apply (inj pretty) in Heq.
Qed.

(** Ids drawn from the counter are new, and the tree stays well formed. *)
Lemma wfIds_grow n n' ids ids' :
  0 ≤ n → n ≤ n' → wfIds n ids → ids' ≡ₚ ids ++ newIds n n' → wfIds n' ids'.
Proof.
  intros Hn Hle [Hnodup Hissued] Hperm. split; rewrite Hperm.
  - apply NoDup_app. split_and!; [done| |apply NoDup_newIds].
    intros x Hx (i & Hi & ->)%elem_of_newIds.
    rewrite Forall_forall in Hissued.
    destruct (Hissued _ Hx) as (k & f & Hk & Heq).
    apply mkId_inj in Heq as [-> _]; lia.
  - apply Forall_app. split.
    + eapply Forall_impl; [done|]. intros x. by apply issued_mono.
    + apply Forall_forall. intros x (i & Hi & ->)%elem_of_newIds.
      exists i, Plain. split; [lia|done].
Qed.

Lemma wfIds_sublist n ids ids' : ids' `sublist_of` ids → wfIds n ids → wfIds n ids'.
Proof.
  intros Hsub [Hnodup Hissued]. split.
  - by eapply sublist_NoDup.
  - rewrite Forall_forall in *. eauto using elem_of_sublist.
Qed.

Lemma mapM_gen_cons {T U} (f : T → Gen U) x l n :
  mapM f (x :: l) n
  = ((f x n).1 :: (mapM f l (f x n).2).1, (mapM f l (f x n).2).2).
Proof.
  change (mapM f (x :: l) n)
    with (let '(y, n1) := f x n in
          let '(k, n2) := mapM f l n1 in (y :: k, n2)).
  destruct (f x n) as [y n1]. simpl. by destruct (mapM f l n1).
Qed.

Lemma mapM_grows {T} (ids : T → list string) (f : T → Gen T) :
  grows ids f → grows (λ l, l ≫= ids) (mapM f).
Proof.
  intros Hf l. induction l as [|x l IH]; intros k.
  - exists k. split_and!; [lia|done|]. simpl. by rewrite newIds_nil.
  - destruct (Hf x k) as (k1 & Hk1 & Hn1 & Hids1).
    destruct (IH k1) as (k2 & Hk2 & Hn2 & Hids2).
    exists k2. rewrite mapM_gen_cons, Hn1. cbn [fst snd].
    split_and!; [lia|done|].
    rewrite !bind_cons, Hids1, Hids2, <-(newIds_app k k1 k2) by done.
    rewrite <-!(assoc_L (++)). f_equiv. rewrite !(assoc_L (++)). f_equiv.
    apply Permutation_app_comm.
Qed.

Lemma gen_bind_apply {T U} (f : T → Gen U) (m : Gen T) n :
  (m ≫= f) n = f (m n).1 (m n).2.
Proof. unfold mbind, gen_bind. by destruct (m n). Qed.

Lemma gen_ret_apply {T} (x : T) n : (mret x : Gen T) n = (x, n).
Proof. done. Qed.

Lemma generateId_Int k :
  generateId (Int k) = (toString (Int (k + 1)), Int (k + 1)).
Proof. done. Qed.

Lemma addSemester_year_grows yearId : grows yearIds (addSemester_year yearId).
Proof.
  intros year k. unfold addSemester_year. case_decide.
  - exists (k + 1). split_and!; [lia|done|]. rewrite newIds_one.
    rewrite gen_bind_apply, generateId_Int, gen_ret_apply.
    unfold yearIds. cbn. by rewrite bind_app, app_comm_cons.
  - exists k. split_and!; [lia|done|]. by rewrite newIds_nil, app_nil_r.
Qed.

Lemma addCourse_semester_grows semesterId :
  grows semesterIds (addCourse_semester semesterId).
Proof.
  intros semester k. unfold addCourse_semester. case_decide.
  - exists (k + 1). split_and!; [lia|done|]. rewrite newIds_one.
    rewrite gen_bind_apply, generateId_Int, gen_ret_apply.
    unfold semesterIds. cbn. by rewrite fmap_app, app_comm_cons.
  - exists k. split_and!; [lia|done|]. by rewrite newIds_nil, app_nil_r.
Qed.

Lemma addCourse_year_grows yearId semesterId :
  grows yearIds (addCourse_year yearId semesterId).
Proof.
  intros year k. unfold addCourse_year. case_decide.
  - destruct (mapM_grows _ _ (addCourse_semester_grows semesterId)
                (year_semesters year) k) as (k' & Hk & Hn & Hids).
    exists k'. rewrite gen_bind_apply, gen_ret_apply.
    destruct (mapM (addCourse_semester semesterId) (year_semesters year) (Int k))
      as [semesters n]. cbn in *.
    split_and!; [done..|]. unfold yearIds. cbn. by rewrite Hids.
  - exists k. split_and!; [lia|done|]. by rewrite newIds_nil, app_nil_r.
Qed.

(** *** Persistence *)

Lemma keyed_fst ys : (keyed ys).*1 = year_id <$> ys.
Proof. unfold keyed. rewrite <-list_fmap_compose. done. Qed.

Lemma keyed_snd ys : (keyed ys).*2 = ys.
Proof. unfold keyed. rewrite <-list_fmap_compose. apply list_fmap_id. Qed.

Lemma store_addAll_fresh data store :
  NoDup (year_id <$> data) →
  (∀ year, year ∈ data → store !! year_id year = None) →
  store_addAll store data = Some (list_to_map (keyed data) ∪ store).
Proof.
  revert store. induction data as [|year data IH]; intros store Hnodup Hfresh.
  - simpl. by rewrite (left_id_L ∅ (∪)).
  - rewrite fmap_cons in Hnodup. apply NoDup_cons in Hnodup as [Hnotin Hnodup].
    cbn [store_addAll]. unfold store_add.
    rewrite Hfresh by left. rewrite IH; [|done|].
    + f_equal. cbn. fold (keyed data). rewrite <-insert_union_l. symmetry.
      apply insert_union_r.
      apply not_elem_of_list_to_map_1. by rewrite keyed_fst.
    + intros other Hother. rewrite lookup_insert_ne; [apply Hfresh; by right|].
      intros Heq. apply Hnotin. rewrite Heq. by apply list_elem_of_fmap_2.
Qed.

Lemma saveData_distinct data db :
  NoDup (year_id <$> data) →
  saveData data db = mkDatabase (list_to_map (keyed data)) (userProfileStore db).
Proof.
  intros Hnodup. unfold saveData.
  rewrite store_addAll_fresh by done. by rewrite (right_id_L ∅ (∪)).
Qed.

Lemma getAll_keyed ys :
  NoDup (year_id <$> ys) → getAll (list_to_map (keyed ys) : gmap string Year) ≡ₚ ys.
Proof.
  intros Hnodup. unfold getAll.
  rewrite merge_sort_Permutation, map_to_list_to_map by (by rewrite keyed_fst).
  by rewrite keyed_snd.
Qed.

(** *** The tree invariant *)

Lemma year_ids_sublist ys : year_id <$> ys `sublist_of` treeIds ys.
Proof.
  induction ys as [|year ys IH]; [done|].
  unfold treeIds. rewrite fmap_cons, bind_cons. unfold yearIds at 1.
  rewrite <-app_comm_cons. apply sublist_skip.
  by apply sublist_inserts_l.
Qed.

Lemma wfIds_year_ids n ys : wfIds n (treeIds ys) → NoDup (year_id <$> ys).
Proof. intros [Hnodup _]. eapply sublist_NoDup; [done|apply year_ids_sublist]. Qed.

Lemma invariant_commit st n newYears :
  nextId st = Int n → 1 ≤ n → wfIds n (treeIds newYears) →
  invariant (commitYears newYears st).
Proof.
  intros Hn Hpos Hwf. exists n. split_and!; [done..|].
  cbn. by rewrite saveData_distinct by (by eapply wfIds_year_ids).
Qed.

Lemma invariant_same st st' :
  years st' = years st → nextId st' = nextId st →
  yearsStore (database st') = yearsStore (database st) →
  invariant st → invariant st'.
Proof.
  intros Hy Hn Hdb (n & ? & ? & ? & ?). exists n.
  rewrite Hy, Hn, Hdb. done.
Qed.

Lemma bind_fmap_sublist {T} (ids : T → list string) (f : T → T) l :
  (∀ x, ids (f x) `sublist_of` ids x) →
  (f <$> l) ≫= ids `sublist_of` l ≫= ids.
Proof.
  intros Hf. induction l as [|x l IH]; [done|].
  rewrite fmap_cons, !bind_cons. by apply sublist_app.
Qed.

Lemma bind_fmap_same {T} (ids : T → list string) (f : T → T) l :
  (∀ x, ids (f x) = ids x) → (f <$> l) ≫= ids = l ≫= ids.
Proof.
  intros Hf. induction l as [|x l IH]; [done|].
  by rewrite fmap_cons, !bind_cons, Hf, IH.
Qed.

Ltac id_clash H :=
  repeat (apply elem_of_cons in H as [H|H];
          [apply mkId_inj in H as [? ?]; (lia || done)|]);
  by apply elem_of_nil in H.

Lemma invariant_addYear st : invariant st → invariant (addYear st).
Proof.
  intros (n & Hn & Hpos & [Hnodup Hissued] & Hdb).
  unfold addYear. rewrite Hn, generateId_Int.
  apply invariant_same with
    (commitYears
       (years st ++
        [mkYear (mkId (n + 1) Plain)
           ("Year " +:+ toString (Int (Z.of_nat (length (years st)) + 1)))
           [mkSemester (mkId (n + 1) Dash1) "Semester 1" [];
            mkSemester (mkId (n + 1) Dash2) "Semester 2" []]])
       (set_nextId (Int (n + 1)) st)); [done..|].
  apply (invariant_commit _ (n + 1)); [done|lia|].
  unfold treeIds. rewrite bind_app. cbn.
  change [pretty (n + 1); pretty (n + 1) +:+ "-1"; pretty (n + 1) +:+ "-2"]
    with [mkId (n + 1) Plain; mkId (n + 1) Dash1; mkId (n + 1) Dash2].
  fold (treeIds (years st)). rewrite Forall_forall in Hissued. split.
  - apply NoDup_app. split_and!; [done| |].
    + intros x Hx Hnew. destruct (Hissued _ Hx) as (k & f & Hk & ->).
      id_clash Hnew.
    + repeat (apply NoDup_cons; split); [..|apply NoDup_nil_2];
        intros Hin; id_clash Hin.
  - apply Forall_app. split.
    + apply Forall_forall. intros x Hx. eapply issued_mono; [|by apply Hissued]. lia.
    + repeat (apply Forall_cons; split); [..|done];
        eexists _, _; (split; [|done]); lia.
Qed.

Lemma invariant_deleteYear yearId st : invariant st → invariant (deleteYear yearId st).
Proof.
  intros (n & Hn & Hpos & Hwf & Hdb). unfold deleteYear.
  eapply invariant_same; [..|eapply (invariant_commit st n)]; [done..|].
  eapply wfIds_sublist; [|done].
  apply bind_sublist, sublist_filter.
Qed.

Lemma invariant_grow (f : Year → Gen Year) st :
  grows yearIds f → invariant st →
  invariant (commitYears (mapM f (years st) (nextId st)).1
               (set_nextId (mapM f (years st) (nextId st)).2 st)).
Proof.
  intros Hf (n & Hn & Hpos & Hwf & Hdb).
  destruct (mapM_grows _ _ Hf (years st) n) as (n' & Hle & Hn' & Hids).
  rewrite Hn. apply (invariant_commit _ n'); [done|lia|].
  apply (wfIds_grow n n' (treeIds (years st))); [lia|done..].
Qed.

Lemma invariant_addSemester yearId st :
  invariant st → invariant (addSemester yearId st).
Proof.
  intros Hinv. unfold addSemester.
  pose proof (invariant_grow _ st (addSemester_year_grows yearId) Hinv) as H.
  by destruct (mapM (addSemester_year yearId) (years st) (nextId st)).
Qed.

Lemma invariant_addCourse yearId semesterId st :
  invariant st → invariant (addCourse yearId semesterId st).
Proof.
  intros Hinv. unfold addCourse.
  pose proof (invariant_grow _ st (addCourse_year_grows yearId semesterId) Hinv) as H.
  by destruct (mapM (addCourse_year yearId semesterId) (years st) (nextId st)).
Qed.

Lemma invariant_deleteSemester yearId semesterId st :
  invariant st → invariant (deleteSemester yearId semesterId st).
Proof.
  intros (n & Hn & Hpos & Hwf & Hdb). unfold deleteSemester.
  apply (invariant_commit st n); [done..|].
  eapply wfIds_sublist; [|done].
  apply bind_fmap_sublist. intros year. case_decide; [|done].
  unfold yearIds. cbn. apply sublist_skip, bind_sublist, sublist_filter.
Qed.

Lemma invariant_removeCourse yearId semesterId courseId st :
  invariant st → invariant (removeCourse yearId semesterId courseId st).
Proof.
  intros (n & Hn & Hpos & Hwf & Hdb). unfold removeCourse.
  apply (invariant_commit st n); [done..|].
  eapply wfIds_sublist; [|done].
  apply bind_fmap_sublist. intros year. case_decide; [|done].
  unfold yearIds. cbn. apply sublist_skip.
  apply bind_fmap_sublist. intros semester. case_decide; [|done].
  unfold semesterIds. cbn. apply sublist_skip, fmap_sublist, sublist_filter.
Qed.

Lemma setField_id course field value :
  field ≠ Field_id → course_id (setField course field value) = course_id course.
Proof. by destruct field. Qed.

Lemma updateCourse_years_ids yearId semesterId courseId field value ys :
  field ≠ Field_id →
  treeIds (updateCourse_years yearId semesterId courseId field value ys)
  = treeIds ys.
Proof.
  intros Hfield. apply bind_fmap_same. intros year. case_decide; [|done].
  unfold yearIds. cbn. f_equal.
  apply bind_fmap_same. intros semester. case_decide; [|done].
  unfold semesterIds. cbn. f_equal.
  rewrite <-list_fmap_compose. apply list_fmap_ext. intros _ course _. cbn.
  case_decide; [|done]. by apply setField_id.
Qed.

Lemma invariant_updateCourse yearId semesterId courseId field value st :
  field ≠ Field_id → invariant st →
  invariant (updateCourse yearId semesterId courseId field value st).
Proof.
  intros Hfield (n & Hn & Hpos & Hwf & Hdb). unfold updateCourse.
  apply (invariant_commit st n); [done..|].
  by rewrite updateCourse_years_ids.
Qed.

(** [Math.max] over parsed ids that are all numbers. *)
Lemma Math_max_ints n x xs :
  Forall (λ v, ∃ k, v = Int k ∧ 1 ≤ k ≤ n) (x :: xs) →
  ∃ m, Math_max x xs = Int m ∧ 1 ≤ m ≤ n
       ∧ Forall (λ v, ∃ k, v = Int k ∧ k ≤ m) (x :: xs)
       ∧ Int m ∈ x :: xs.
Proof.
  unfold Math_max. revert x. induction xs as [|y xs IH]; intros x Hall.
  - apply Forall_cons in Hall as [(k & -> & Hk) _]. exists k. cbn.
    split; [done|]. split; [done|]. split; [|by left].
    apply Forall_cons. split; [|done]. exists k. split; [done|lia].
  - apply Forall_cons in Hall as [(k & -> & Hk) Hall].
    pose proof Hall as [(j & -> & Hj) Hall']%Forall_cons.
    cbn [foldl max2].
    destruct (IH (Int (k `max` j))) as (m & Hm & Hbound & Hle & Hin).
    { apply Forall_cons. split; [|done]. exists (k `max` j). split; [done|lia]. }
    exists m. split; [done|]. split; [lia|]. split.
    + apply Forall_cons in Hle as [(i & [= <-] & Hi) Hle].
      apply Forall_cons. split; [exists k; split; [done|lia]|].
      apply Forall_cons. split; [exists j; split; [done|lia]|done].
    + apply elem_of_cons in Hin as [Heq|Hin]; [|by do 2 right].
      simplify_eq. destruct (Z.max_spec k j) as [[_ ->]|[_ ->]];
        [right; left|left]; done.
Qed.

Lemma yearIdNumbers_treeIds ys : ys ≫= yearIdNumbers = parseInt <$> treeIds ys.
Proof.
  unfold treeIds. induction ys as [|year ys IH]; [done|].
  rewrite !bind_cons, fmap_app, IH. f_equal.
  unfold yearIdNumbers, yearIds. rewrite fmap_cons. f_equal.
  induction (year_semesters year) as [|semester l IHl]; [done|].
  rewrite !bind_cons, fmap_app, IHl. f_equal.
  unfold semesterIdNumbers, semesterIds. rewrite fmap_cons. f_equal.
  by rewrite list_fmap_compose.
Qed.

Lemma wfIds_initialYear : wfIds 1 (treeIds [initialYear]).
Proof.
  change (treeIds [initialYear]) with [mkId 1 Plain; mkId 1 Dash1; mkId 1 Dash2].
  split.
  - repeat (apply NoDup_cons; split); [..|apply NoDup_nil_2];
      intros Hin; id_clash Hin.
  - repeat (apply Forall_cons; split); [..|done];
      eexists _, _; (split; [|done]); lia.
Qed.

Lemma startup_fields db ys n :
  yearsStore db = list_to_map (keyed ys) → 1 ≤ n → wfIds n (treeIds ys) →
  (ys = [] ∧ years (startup db) = [initialYear] ∧ nextId (startup db) = Int 1
   ∧ database (startup db) = saveData [initialYear] db)
  ∨ (ys ≠ [] ∧ years (startup db) ≡ₚ ys
     ∧ (∃ m, isMaxId ys m ∧ 1 ≤ m ≤ n ∧ nextId (startup db) = Int (m + 1))
     ∧ database (startup db) = db).
Proof.
  intros Hdb Hpos Hwf.
  assert (NoDup (year_id <$> ys)) as Hkeys by (by eapply wfIds_year_ids).
  pose proof (getAll_keyed ys Hkeys) as Hperm. rewrite <-Hdb in Hperm.
  unfold startup, loadData. cbn [database initialState].
  set (profile := userProfileStore db !! "user").
  destruct (getAll (yearsStore db)) as [|year rest] eqn:Hloaded.
  - left. apply Permutation_nil in Hperm as ->.
    by destruct profile.
  - right. set (loaded := year :: rest) in *.
    assert (ys ≠ []) as Hne.
    { intros ->. symmetry in Hperm. by apply Permutation_nil in Hperm. }
    assert (treeIds loaded ≡ₚ treeIds ys) as Hids
      by (unfold treeIds; by rewrite Hperm).
    destruct Hwf as [Hnodup Hissued].
    assert (Forall (λ v, ∃ k, v = Int k ∧ 1 ≤ k ≤ n) (parseInt <$> treeIds loaded))
      as Hparsed.
    { apply Forall_fmap. rewrite Hids. eapply Forall_impl; [done|].
      intros x (k & f & Hk & ->). exists k. by rewrite parseInt_mkId by lia. }
    assert (parseInt <$> treeIds loaded
            = parseInt (year_id year)
              :: (year_semesters year ≫= semesterIdNumbers)
                 ++ (rest ≫= yearIdNumbers)) as Hnums
      by (by rewrite <-yearIdNumbers_treeIds).
    rewrite Hnums in Hparsed.
    destruct (Math_max_ints n _ _ Hparsed) as (m & -> & Hm & Hle & Hin).
    rewrite <-Hnums in Hle, Hin.
    assert (isMaxId ys m) as Hmax.
    { split.
      - apply list_elem_of_fmap in Hin as (y & Hy & Hin). exists y.
        split; [by rewrite <-Hids|done].
      - intros y Hy. rewrite <-Hids in Hy.
        rewrite Forall_fmap, Forall_forall in Hle. by apply Hle. }
    split; [done|].
    destruct profile; cbn; (split; [done|]); (split; [|done]); eauto.
Qed.

Lemma invariant_startup db ys :
  yearsStore db = list_to_map (keyed ys) →
  (∃ n, 1 ≤ n ∧ wfIds n (treeIds ys)) →
  invariant (startup db).
Proof.
  intros Hdb (n & Hpos & Hwf).
  destruct (startup_fields db ys n Hdb Hpos Hwf)
    as [(-> & Hy & Hn & Hd)|(Hne & Hperm & (m & Hmax & Hm & Hn) & Hd)].
  - exists 1. rewrite Hy, Hn, Hd. split_and!; [done|lia|apply wfIds_initialYear|].
    rewrite saveData_distinct; [done|].
    eapply wfIds_year_ids, wfIds_initialYear.
  - exists (m + 1). rewrite Hn, Hd. split_and!; [done|lia| |].
    + assert (treeIds (years (startup db)) ≡ₚ treeIds ys) as Hids
        by (unfold treeIds; by rewrite Hperm).
      destruct Hwf as [Hnodup Hissued]. split; rewrite Hids; [done|].
      apply Forall_forall. intros y Hy. rewrite Forall_forall in Hissued.
      destruct (Hissued _ Hy) as (k & f & Hk & ->). exists k, f.
      split; [|done]. destruct Hmax as [_ Hmax].
      destruct (Hmax _ Hy) as (j & Hj & ?).
      rewrite parseInt_mkId in Hj by lia. simplify_eq. lia.
    + rewrite Hdb. apply list_to_map_proper.
      * rewrite keyed_fst. by eapply wfIds_year_ids.
      * unfold keyed. by rewrite Hperm.
Qed.

Lemma invariant_handle ev st : invariant st → invariant (handle ev st).
Proof.
  intros Hinv. destruct ev; cbn [handle];
    auto using invariant_addYear, invariant_deleteYear, invariant_addSemester,
      invariant_deleteSemester, invariant_addCourse, invariant_removeCourse;
    try (by apply invariant_updateCourse);
    try (by eapply invariant_same).
  destruct Hinv as (n & Hn & Hpos & Hwf & Hdb).
  eapply invariant_startup; eauto.
Qed.

Lemma reachable_invariant st : reachable st → invariant st.
Proof.
  induction 1 as [|ev st _ IH].
  - apply (invariant_startup emptyDatabase []); [done|].
    exists 1. split; [lia|]. split; [apply NoDup_nil_2|done].
  - by apply invariant_handle.
Qed.

(** ** Persistence adapter *)

(** In every state of the page the store holds the years of the tree, each
    under its id, and nothing else: every save the handlers make is a full
    replace. *)
Lemma store_mirrors_the_tree st key year :
  reachable st →
  yearsStore (database st) !! key = Some year
  ↔ year ∈ years st ∧ year_id year = key.
Proof.
  intros (n & _ & _ & Hwf & ->)%reachable_invariant.
  rewrite <-elem_of_list_to_map
    by (rewrite keyed_fst; by eapply wfIds_year_ids).
  unfold keyed. rewrite list_elem_of_fmap. split.
  - intros (y & [= -> ->] & Hy). done.
  - intros [Hy <-]. eauto.
Qed.

(** C2: after [saveData] on a list of years with pairwise distinct ids, the
    years store holds exactly the records of the list, each under its id:
    nothing of what it held before remains, and every year saved is there;
    reading the store back gives the years of the list.  The profile store
    is left alone. *)
Theorem saveData_replaces_the_collection data db :
  NoDup (year_id <$> data) →
  (∀ key year,
     yearsStore (saveData data db) !! key = Some year
     ↔ year ∈ data ∧ year_id year = key)
  ∧ getAll (yearsStore (saveData data db)) ≡ₚ data
  ∧ userProfileStore (saveData data db) = userProfileStore db.
Proof.
  intros Hnodup. rewrite saveData_distinct by done.
  cbn [yearsStore userProfileStore]. split_and!; [|by apply getAll_keyed|done].
  intros key year.
  rewrite <-elem_of_list_to_map by (by rewrite keyed_fst).
  unfold keyed. rewrite list_elem_of_fmap. split.
  - intros (y & [= -> ->] & Hy). done.
  - intros [Hy <-]. eauto.
Qed.

(** The theorem of C2 when a store that holds an old year 9 is overwritten
    with two years. *)
Lemma saveData_replaces_the_collection_witness :
  NoDup (year_id <$> sampleYears)
  ∧ (∀ key year,
       yearsStore (saveData sampleYears (saveData [mkYear "9" "old" []] emptyDatabase)) !! key = Some year
       ↔ year ∈ sampleYears ∧ year_id year = key).
Proof.
  assert (NoDup (year_id <$> sampleYears)) as Hnodup.
  { apply NoDup_ListNoDup. repeat constructor; cbn; intuition discriminate. }
  split; [exact Hnodup|].
  exact (proj1 (saveData_replaces_the_collection sampleYears _ Hnodup)).
Defined.

(** C3: the profile saved by the Save action is the profile the next startup
    loads, and after the Delete action the next startup loads the profile
    with four empty fields. *)
Theorem profile_round_trip st :
  userProfile (startup (database (handleSaveProfile st))) = userProfile st
  ∧ userProfile (startup (database (handleDeleteProfile st))) = emptyProfile.
Proof.
  assert (∀ p db, userProfile (startup (saveUserProfile p db)) = p) as Hload.
  { intros p db. unfold startup, loadData.
    cbn [database initialState saveUserProfile userProfileStore yearsStore].
    rewrite lookup_insert_eq. by destruct (getAll (yearsStore db)). }
  split; apply Hload.
Qed.

(** ** Ids, the counter and the credits input *)

Lemma reachable_run evs st : reachable st → reachable (run evs st).
Proof.
  revert st. induction evs as [|ev evs IH]; intros st Hst; [done|].
  apply IH. by constructor.
Qed.

Lemma add_counter ev st :
  isAdd ev → invariant st →
  ∃ n n', nextId st = Int n ∧ nextId (handle ev st) = Int n' ∧ n ≤ n'.
Proof.
  intros Hadd (n & Hn & _). exists n. destruct ev; try done; cbn [handle].
  - exists (n + 1). unfold addYear. rewrite Hn, generateId_Int. cbn.
    split_and!; [done..|lia].
  - destruct (mapM_grows _ _ (addSemester_year_grows yearId) (years st) n)
      as (n' & Hle & Hn' & _).
    exists n'. unfold addSemester. rewrite Hn.
    by destruct (mapM (addSemester_year yearId) (years st) (Int n)).
  - destruct (mapM_grows _ _ (addCourse_year_grows yearId semesterId) (years st) n)
      as (n' & Hle & Hn' & _).
    exists n'. unfold addCourse. rewrite Hn.
    by destruct (mapM (addCourse_year yearId semesterId) (years st) (Int n)).
Qed.

Lemma run_adds_counter adds st :
  Forall isAdd adds → invariant st →
  ∃ n n', nextId st = Int n ∧ nextId (run adds st) = Int n' ∧ n ≤ n'.
Proof.
  revert st. induction adds as [|ev adds IH]; intros st Hadds Hinv.
  - destruct Hinv as (n & Hn & _). exists n, n. by split_and!.
  - apply Forall_cons in Hadds as [Hev Hadds].
    destruct (add_counter ev st Hev Hinv) as (n & n1 & Hn & Hn1 & Hle).
    destruct (IH (handle ev st) Hadds (invariant_handle ev st Hinv))
      as (n1' & n2 & Hn1' & Hn2 & Hle').
    assert (n1' = n1) as -> by congruence.
    exists n, n2. split_and!; [done..|lia].
Qed.

(** C4: from any state the page can reach, any number of add operations
    (addYear, addSemester, addCourse) leaves the ids of the tree pairwise
    distinct.  The counter is a number that never decreases and that bounds
    every id of the tree; [generateId] moves it up by one and returns the new
    value; at startup it is 1 when the store is empty and otherwise the
    largest id number found, plus one. *)
Theorem ids_stay_pairwise_distinct st adds :
  reachable st → Forall isAdd adds →
  NoDup (treeIds (years (run adds st)))
  ∧ (∃ n n', nextId st = Int n ∧ nextId (run adds st) = Int n' ∧ n ≤ n'
       ∧ ∀ x, x ∈ treeIds (years (run adds st)) →
              ∃ k, parseInt x = Int k ∧ k ≤ n')
  ∧ (∀ k, generateId (Int k) = (toString (Int (k + 1)), Int (k + 1)))
  ∧ seededFrom (years st) (nextId (startup (database st))).
Proof.
  intros Hst Hadds.
  pose proof (reachable_invariant st Hst) as Hinv.
  pose proof (reachable_invariant _ (reachable_run adds st Hst))
    as (n' & Hn' & Hpos' & [Hnodup Hissued] & _).
  destruct (run_adds_counter adds st Hadds Hinv) as (n & n2 & Hn & Hn2 & Hle).
  split; [done|]. split; [|split; [done|]].
  - assert (n2 = n') as -> by congruence.
    exists n, n'. split_and!; [done|done|lia|].
    intros x Hx. rewrite Forall_forall in Hissued.
    destruct (Hissued x Hx) as (k & f & Hk & ->). exists k.
    split; [apply parseInt_mkId|]; lia.
  - destruct Hinv as (m & Hm & Hpos & Hwf & Hdb).
    destruct (startup_fields _ _ m Hdb Hpos Hwf)
      as [(-> & _ & ? & _)|(Hne & _ & (k & Hmax & _ & ?) & _)]; [done|].
    destruct (years st); [done|]. cbn. eauto.
Qed.

(** The theorem of C4 for three additions to the freshly seeded page. *)
Lemma ids_stay_pairwise_distinct_witness :
  reachable (startup emptyDatabase)
  ∧ Forall isAdd [ClickAddYear; ClickAddSemester "1"; ClickAddCourse "1" "1-1"]
  ∧ NoDup (treeIds (years (run [ClickAddYear; ClickAddSemester "1";
                                ClickAddCourse "1" "1-1"]
                             (startup emptyDatabase)))).
Proof.
  assert (Forall isAdd [ClickAddYear; ClickAddSemester "1"; ClickAddCourse "1" "1-1"])
    as Hadds by (repeat constructor).
  split; [constructor|]. split; [exact Hadds|].
  exact (proj1 (ids_stay_pairwise_distinct _ _ reachable_start Hadds)).
Defined.

(** C6 (the code at the failing input): the credits input turns the text
    [-3] into the number -3, not into a non-negative one, although text that
    is no number becomes 0; typing it into the credits field of a new course
    leads the page to a tree that holds a course with -3 credits. *)
Theorem credits_input_keeps_a_negative_number :
  creditsOfInput "-3" = -3
  ∧ creditsOfInput "abc" = 0
  ∧ reachable (run [ClickAddCourse "1" "1-1";
                    ChangeCourseCredits "1" "1-1" "2" "-3"]
                 (startup emptyDatabase))
  ∧ allCourses (years (run [ClickAddCourse "1" "1-1";
                            ChangeCourseCredits "1" "1-1" "2" "-3"]
                         (startup emptyDatabase)))
    = [mkCourse "2" "" "A" (-3)].
Proof.
  split_and!; [done|done| |by vm_compute].
  apply reachable_run, reachable_start.
Qed.

(** ** Edits of the tree *)

Lemma years_commitYears newYears st : years (commitYears newYears st) = newYears.
Proof. done. Qed.

Lemma matching_cons yearId year ys :
  matching yearId (year :: ys)
  = if decide (year_id year = yearId) then S (matching yearId ys)
    else matching yearId ys.
Proof. unfold matching. rewrite filter_cons. by case_decide. Qed.

Lemma bump_incr k n : bump k (incr n) = bump (S k) n.
Proof. unfold bump. by rewrite Nat.iter_succ_r. Qed.

(** The year [addSemester] puts in the place of a matching [year] when it
    draws [newSemesterId]. *)
Lemma addSemester_year_match yearId year n :
  year_id year = yearId →
  addSemester_year yearId year n
  = (mkYear (year_id year) (year_name year)
       (year_semesters year ++
        [mkSemester (toString (incr n))
           ("Semester " +:+
            toString (Int (Z.of_nat (length (year_semesters year)) + 1)))
           []]),
     incr n).
Proof.
  intros Hid. unfold addSemester_year. rewrite decide_True by done.
  by rewrite gen_bind_apply.
Qed.

Lemma addSemester_year_other yearId year n :
  year_id year ≠ yearId → addSemester_year yearId year n = (year, n).
Proof. intros Hid. unfold addSemester_year. by rewrite decide_False. Qed.

Lemma addSemester_mapM yearId ys n :
  (mapM (addSemester_year yearId) ys n).2 = bump (matching yearId ys) n
  ∧ length (mapM (addSemester_year yearId) ys n).1 = length ys
  ∧ ∀ i year, ys !! i = Some year →
      (mapM (addSemester_year yearId) ys n).1 !! i
      = Some (addSemester_year yearId year
                (bump (matching yearId (take i ys)) n)).1.
Proof.
  revert n. induction ys as [|y ys IH]; intros n; [done|].
  rewrite mapM_gen_cons, matching_cons. cbn [fst snd].
  destruct (IH (addSemester_year yearId y n).2) as (Hn & Hlen & Hlookup).
  assert ((addSemester_year yearId y n).2
          = if decide (year_id y = yearId) then incr n else n) as Hstep.
  { case_decide; [by rewrite addSemester_year_match|
                  by rewrite addSemester_year_other]. }
  rewrite Hstep in *. split_and!.
  - rewrite Hn. case_decide; [apply bump_incr|done].
  - cbn. by rewrite Hlen.
  - intros [|i] year Hi.
    + by injection Hi as ->.
    + change ((y :: ys) !! S i) with (ys !! i) in Hi.
      change (take (S i) (y :: ys)) with (y :: take i ys).
      etrans; [apply (Hlookup i year Hi)|].
      rewrite matching_cons. case_decide; [by rewrite bump_incr|done].
Qed.

Lemma matching_NoDup ys i year :
  NoDup (year_id <$> ys) → ys !! i = Some year →
  matching (year_id year) (take i ys) = 0%nat
  ∧ matching (year_id year) ys = 1%nat.
Proof.
  revert i. induction ys as [|y ys IH]; intros i Hnodup Hi; [done|].
  rewrite fmap_cons in Hnodup. apply NoDup_cons in Hnodup as [Hnotin Hnodup].
  assert (∀ l, (∀ z, z ∈ l → year_id z ≠ year_id year) →
               matching (year_id year) l = 0%nat) as Hnone.
  { intros l Hl. induction l as [|z l IHl]; [done|].
    rewrite matching_cons, decide_False by (apply Hl; left).
    apply IHl. intros z' Hz'. apply Hl. by right. }
  destruct i as [|i]; simplify_eq/=.
  - split; [done|]. rewrite matching_cons, decide_True by done. f_equal.
    apply Hnone. intros z Hz Heq. apply Hnotin. rewrite <-Heq.
    by apply list_elem_of_fmap_2.
  - assert (year_id y ≠ year_id year) as Hne.
    { intros Heq. apply Hnotin. rewrite Heq.
      apply list_elem_of_fmap_2. by eapply list_elem_of_lookup_2. }
    rewrite !matching_cons, !decide_False by done. by apply IH.
Qed.

(** C7: for a year at position [i] of the list, [addSemester] with its id
    puts at that position the same year with one more semester at the end of
    its sequence, the earlier ones kept in order; the new semester has no
    courses, its name is "Semester N" with N the earlier count plus one, and
    its id is the counter after it has been moved up (once more for each
    earlier year of the same id, of which there is none when year ids are
    distinct).  Years of another id are untouched and the list keeps its
    length. *)
Theorem addSemester_appends_a_semester st i year :
  years st !! i = Some year →
  years (addSemester (year_id year) st) !! i
  = Some (mkYear (year_id year) (year_name year)
            (year_semesters year ++
             [mkSemester
                (toString
                   (bump (S (matching (year_id year) (take i (years st))))
                      (nextId st)))
                ("Semester " +:+
                 toString (Int (Z.of_nat (length (year_semesters year)) + 1)))
                []]))
  ∧ length (years (addSemester (year_id year) st)) = length (years st)
  ∧ (∀ j other, years st !! j = Some other → year_id other ≠ year_id year →
       years (addSemester (year_id year) st) !! j = Some other)
  ∧ nextId (addSemester (year_id year) st)
    = bump (matching (year_id year) (years st)) (nextId st)
  ∧ (NoDup (year_id <$> years st) →
       matching (year_id year) (take i (years st)) = 0%nat
       ∧ matching (year_id year) (years st) = 1%nat).
Proof.
  intros Hi.
  destruct (addSemester_mapM (year_id year) (years st) (nextId st))
    as (Hn & Hlen & Hlookup).
  unfold addSemester.
  destruct (mapM (addSemester_year (year_id year)) (years st) (nextId st))
    as [newYears n] eqn:Hmap.
  cbn in *. split_and!; [| done | | done |].
  - by rewrite (Hlookup i year Hi), addSemester_year_match.
  - intros j other Hj Hne.
    by rewrite (Hlookup j other Hj), addSemester_year_other.
  - intros Hnodup. by apply matching_NoDup.
Qed.

(** The theorem of C7 on the seeded year. *)
Lemma addSemester_appends_a_semester_witness :
  years (startup emptyDatabase) !! 0%nat = Some initialYear
  ∧ years (addSemester "1" (startup emptyDatabase)) !! 0%nat
    = Some (mkYear "1" "Year 1"
              [mkSemester "1-1" "Semester 1" [];
               mkSemester "1-2" "Semester 2" [];
               mkSemester "2" "Semester 3" []]).
Proof.
  split; [reflexivity|].
  exact (proj1 (addSemester_appends_a_semester (startup emptyDatabase) 0
                  initialYear eq_refl)).
Defined.

Lemma bind_NoDup_owner {T} (ids : T → list string) (l : list T) i j y y' x :
  NoDup (l ≫= ids) → l !! i = Some y → l !! j = Some y' →
  x ∈ ids y → x ∈ ids y' → i = j.
Proof.
  revert i j. induction l as [|z l IH]; intros i j Hnodup Hi Hj Hx Hx'; [done|].
  rewrite bind_cons in Hnodup. apply NoDup_app in Hnodup as (_ & Hdisj & Hnodup).
  assert (∀ k w, l !! k = Some w → x ∈ ids w → x ∈ l ≫= ids) as Hin.
  { intros k w Hk Hw. apply list_elem_of_bind. exists w.
    split; [done|]. by eapply list_elem_of_lookup_2. }
  destruct i as [|i], j as [|j]; simplify_eq/=; [done| | |f_equal; eauto].
  - exfalso. eapply Hdisj; eauto.
  - exfalso. eapply Hdisj; eauto.
Qed.

(** C8: for a year id present in the list, [deleteYear] keeps exactly the
    years of another id, unchanged and in their order, so the list gets
    shorter; with pairwise distinct ids, no id of the deleted year, of its
    semesters or of its courses is left in the tree; and the id is removed
    from the set of expanded years. *)
Theorem deleteYear_removes_the_year yearId st :
  yearId ∈ year_id <$> years st →
  (∀ year, year ∈ years (deleteYear yearId st)
           ↔ year ∈ years st ∧ year_id year ≠ yearId)
  ∧ years (deleteYear yearId st) `sublist_of` years st
  ∧ (length (years (deleteYear yearId st)) < length (years st))%nat
  ∧ (NoDup (treeIds (years st)) →
     ∀ year x, year ∈ years st → year_id year = yearId → x ∈ yearIds year →
               x ∉ treeIds (years (deleteYear yearId st)))
  ∧ expandedYears (deleteYear yearId st) = expandedYears st ∖ {[yearId]}
  ∧ yearId ∉ expandedYears (deleteYear yearId st).
Proof.
  intros Hpresent. unfold deleteYear. cbn [years expandedYears set_expandedYears].
  rewrite years_commitYears. split_and!.
  - intros year. by rewrite list_elem_of_filter, (comm (∧)).
  - apply sublist_filter.
  - apply list_elem_of_fmap in Hpresent as (year & Hid & Hin).
    clear -Hid Hin. induction Hin as [year ys|year other ys Hin IH].
    + rewrite filter_cons_False by (intros ?; congruence). cbn [length].
      pose proof (length_filter (λ y, year_id y ≠ yearId) ys). lia.
    + specialize (IH Hid). rewrite filter_cons. case_decide; cbn [length]; [lia|].
      pose proof (length_filter (λ y, year_id y ≠ yearId) ys). lia.
  - intros Hnodup year x Hyear Hid Hx Hx'.
    apply list_elem_of_bind in Hx' as (other & Hx' & Hother).
    apply list_elem_of_filter in Hother as [Hne Hother].
    apply list_elem_of_lookup in Hyear as [i Hi].
    apply list_elem_of_lookup in Hother as [j Hj].
    assert (i = j) as -> by (by eapply (bind_NoDup_owner yearIds)).
    congruence.
  - done.
  - apply not_elem_of_difference. right. by apply elem_of_singleton.
Qed.

(** The theorem of C8 for the seeded year. *)
Lemma deleteYear_removes_the_year_witness :
  "1" ∈ year_id <$> years (startup emptyDatabase)
  ∧ years (deleteYear "1" (startup emptyDatabase)) `sublist_of`
      years (startup emptyDatabase)
  ∧ "1" ∉ expandedYears (deleteYear "1" (startup emptyDatabase)).
Proof.
  assert ("1" ∈ year_id <$> years (startup emptyDatabase)) as Hin by (by left).
  pose proof (deleteYear_removes_the_year "1" (startup emptyDatabase) Hin)
    as (_ & Hsub & _ & _ & _ & Hexp).
  done.
Defined.

Lemma filter_all {T} (P : T → Prop) `{∀ x, Decision (P x)} (l : list T) :
  Forall P l → filter P l = l.
Proof.
  induction 1 as [|x l Hx _ IH]; [done|]. by rewrite filter_cons_True, IH.
Qed.

Lemma fmap_fixed {T} (f : T → T) (l : list T) :
  Forall (λ x, f x = x) l → f <$> l = l.
Proof.
  induction 1 as [|x l Hx _ IH]; [done|]. by rewrite fmap_cons, Hx, IH.
Qed.

(** C9: for an id that occurs nowhere in the tree, [deleteYear],
    [deleteSemester] and [removeCourse] return the list of years unchanged
    when that id is passed as the thing to delete, whatever the other ids,
    and also when it is passed as the year or the semester to look in. *)
Theorem deleting_an_unknown_id_changes_nothing x st :
  x ∉ treeIds (years st) →
  years (deleteYear x st) = years st
  ∧ (∀ yearId, years (deleteSemester yearId x st) = years st)
  ∧ (∀ yearId semesterId,
       years (removeCourse yearId semesterId x st) = years st)
  ∧ (∀ semesterId, years (deleteSemester x semesterId st) = years st)
  ∧ (∀ semesterId courseId,
       years (removeCourse x semesterId courseId st) = years st)
  ∧ (∀ yearId courseId,
       years (removeCourse yearId x courseId st) = years st).
Proof.
  intros Hx.
  assert (∀ year, year ∈ years st → x ∉ yearIds year) as Hyears.
  { intros year Hyear Hin. apply Hx. apply list_elem_of_bind. eauto. }
  assert (∀ year semester, year ∈ years st → semester ∈ year_semesters year →
            x ∉ semesterIds semester) as Hsemesters.
  { intros year semester Hyear Hsemester Hin.
    apply (Hyears year Hyear), elem_of_cons.
    right. apply list_elem_of_bind. eauto. }
  split_and!.
  - unfold deleteYear. cbn. apply filter_all, Forall_forall.
    intros year Hyear Heq. apply (Hyears year Hyear), elem_of_cons. by left.
  - intros yearId. unfold deleteSemester. rewrite years_commitYears.
    apply fmap_fixed, Forall_forall. intros year Hyear.
    case_decide; [|done]. rewrite filter_all; [by destruct year|].
    apply Forall_forall. intros semester Hsemester Heq.
    apply (Hsemesters year semester Hyear Hsemester), elem_of_cons. by left.
  - intros yearId semesterId. unfold removeCourse. rewrite years_commitYears.
    apply fmap_fixed, Forall_forall. intros year Hyear.
    case_decide; [|done]. rewrite fmap_fixed; [by destruct year|].
    apply Forall_forall. intros semester Hsemester.
    case_decide; [|done]. rewrite filter_all; [by destruct semester|].
    apply Forall_forall. intros course Hcourse Heq.
    apply (Hsemesters year semester Hyear Hsemester), elem_of_cons. right.
    rewrite <-Heq. by apply list_elem_of_fmap_2.
  - intros semesterId. unfold deleteSemester. rewrite years_commitYears.
    apply fmap_fixed, Forall_forall. intros year Hyear.
    case_decide as Heq; [|done].
    destruct (Hyears year Hyear). apply elem_of_cons. by left.
  - intros semesterId courseId. unfold removeCourse. rewrite years_commitYears.
    apply fmap_fixed, Forall_forall. intros year Hyear.
    case_decide as Heq; [|done].
    destruct (Hyears year Hyear). apply elem_of_cons. by left.
  - intros yearId courseId. unfold removeCourse. rewrite years_commitYears.
    apply fmap_fixed, Forall_forall. intros year Hyear.
    case_decide; [|done]. rewrite fmap_fixed; [by destruct year|].
    apply Forall_forall. intros semester Hsemester.
    case_decide as Heq; [|done].
    destruct (Hsemesters year semester Hyear Hsemester).
    apply elem_of_cons. by left.
Qed.

(** The theorem of C9 for the id 7 on the seeded tree. *)
Lemma deleting_an_unknown_id_changes_nothing_witness :
  ("7" ∉ treeIds (years (startup emptyDatabase)))
  ∧ years (deleteYear "7" (startup emptyDatabase)) = years (startup emptyDatabase)
  ∧ years (deleteSemester "1" "7" (startup emptyDatabase))
    = years (startup emptyDatabase)
  ∧ years (removeCourse "1" "1-1" "7" (startup emptyDatabase))
    = years (startup emptyDatabase).
Proof.
  assert ("7" ∉ treeIds (years (startup emptyDatabase))) as Hx.
  { intros Hin. repeat (apply elem_of_cons in Hin as [Hin|Hin]; [done|]).
    by apply elem_of_nil in Hin. }
  pose proof (deleting_an_unknown_id_changes_nothing "7" _ Hx)
    as (H1 & H2 & H3 & _).
  split_and!; [exact Hx|exact H1|apply H2|apply H3].
Defined.

Lemma setField_sameExcept course field value :
  sameExcept field course (setField course field value).
Proof. by destruct field. Qed.

Lemma sameExcept_refl field course : sameExcept field course course.
Proof. done. Qed.

(** C10: [updateCourse] keeps the number and order of the years, of the
    semesters of each year and of the courses of each semester; every year
    and semester keeps its id and name; a course is changed only when the
    year, the semester and the course all carry the ids passed, and then at
    most in the named field. *)
Theorem updateCourse_changes_one_field yearId semesterId courseId field value st :
  length (years (updateCourse yearId semesterId courseId field value st))
  = length (years st)
  ∧ ∀ i year, years st !! i = Some year →
    ∃ year',
      years (updateCourse yearId semesterId courseId field value st) !! i
      = Some year'
      ∧ year_id year' = year_id year ∧ year_name year' = year_name year
      ∧ (year_id year ≠ yearId → year' = year)
      ∧ length (year_semesters year') = length (year_semesters year)
      ∧ ∀ j semester, year_semesters year !! j = Some semester →
        ∃ semester',
          year_semesters year' !! j = Some semester'
          ∧ semester_id semester' = semester_id semester
          ∧ semester_name semester' = semester_name semester
          ∧ (semester_id semester ≠ semesterId → semester' = semester)
          ∧ length (semester_courses semester')
            = length (semester_courses semester)
          ∧ ∀ k course, semester_courses semester !! k = Some course →
            ∃ course',
              semester_courses semester' !! k = Some course'
              ∧ sameExcept field course course'
              ∧ (¬ (year_id year = yearId ∧ semester_id semester = semesterId
                    ∧ course_id course = courseId) → course' = course).
Proof.
  unfold updateCourse. rewrite years_commitYears. unfold updateCourse_years.
  split; [by rewrite length_fmap|].
  intros i year Hi. rewrite list_lookup_fmap, Hi. cbn [fmap option_fmap option_map].
  eexists. split; [done|]. case_decide as Hyear; cbn [year_id year_name year_semesters].
  - split_and!; [done|done|done|by rewrite length_fmap|].
    intros j semester Hj. rewrite list_lookup_fmap, Hj.
    cbn [fmap option_fmap option_map]. eexists. split; [done|].
    case_decide as Hsemester;
      cbn [semester_id semester_name semester_courses].
    + split_and!; [done|done|done|by rewrite length_fmap|].
      intros k course Hk. rewrite list_lookup_fmap, Hk.
      cbn [fmap option_fmap option_map]. eexists. split; [done|].
      case_decide as Hcourse.
      * split; [apply setField_sameExcept|]. intros []. done.
      * done.
    + split_and!; [done..|]. intros k course Hk. eauto using sameExcept_refl.
  - split_and!; [done..|]. intros j semester Hj. exists semester.
    split_and!; [done..|]. intros k course Hk. eauto using sameExcept_refl.
Qed.

(** The theorem of C10 when the credits of the one course of the tree are
    set to 4. *)
Lemma updateCourse_changes_one_field_witness :
  years (addCourse "1" "1-1" (startup emptyDatabase)) !! 0%nat
  = Some (mkYear "1" "Year 1"
            [mkSemester "1-1" "Semester 1" [mkCourse "2" "" "A" 3];
             mkSemester "1-2" "Semester 2" []])
  ∧ length (years (updateCourse "1" "1-1" "2" Field_credits 4
                     (addCourse "1" "1-1" (startup emptyDatabase))))
    = length (years (addCourse "1" "1-1" (startup emptyDatabase)))
  ∧ ∃ year',
      years (updateCourse "1" "1-1" "2" Field_credits 4
               (addCourse "1" "1-1" (startup emptyDatabase))) !! 0%nat
      = Some year'
      ∧ year_id year' = "1" ∧ year_name year' = "Year 1".
Proof.
  pose proof (updateCourse_changes_one_field "1" "1-1" "2" Field_credits 4
                (addCourse "1" "1-1" (startup emptyDatabase)))
    as [Hlength Hframe].
  destruct (Hframe 0%nat _ eq_refl) as (year' & Hyear' & Hid & Hname & _).
  split; [reflexivity|]. split; [exact Hlength|].
  exists year'. split; [exact Hyear'|]. split; [exact Hid|exact Hname].
Defined.

(** * Further properties *)

(** ** Saves that fail, and saves in a row *)

Lemma store_addAll_taken key data store :
  is_Some (store !! key) → key ∈ year_id <$> data →
  store_addAll store data = None.
Proof.
  revert store. induction data as [|year data IH]; intros store Hkey Hin.
  - by apply elem_of_nil in Hin.
  - cbn [store_addAll]. unfold store_add.
    destruct (store !! year_id year) eqn:Hyear; [done|].
    rewrite fmap_cons in Hin. apply elem_of_cons in Hin as [->|Hin].
    + rewrite Hyear in Hkey. by destruct Hkey.
    + apply IH; [|done]. rewrite lookup_insert_ne; [done|].
      intros <-. rewrite Hyear in Hkey. by destruct Hkey.
Qed.

Lemma store_addAll_duplicate data store :
  ¬ NoDup (year_id <$> data) → store_addAll store data = None.
Proof.
  revert store. induction data as [|year data IH]; intros store Hdup.
  - destruct Hdup. constructor.
  - cbn [store_addAll]. unfold store_add.
    destruct (store !! year_id year) eqn:Hyear; [done|].
    destruct (decide (year_id year ∈ year_id <$> data)) as [Hin|Hnotin].
    + apply (store_addAll_taken (year_id year)); [|done].
      rewrite lookup_insert_eq. eauto.
    + apply IH. intros Hnodup. apply Hdup. rewrite fmap_cons.
      by apply NoDup_cons.
Qed.

Lemma userProfileStore_saveData data db :
  userProfileStore (saveData data db) = userProfileStore db.
Proof. unfold saveData. by destruct (store_addAll ∅ data). Qed.

(** X1: when two of the years passed carry the same id, [saveData] leaves
    the database as it was: the second [add] of the id fails, and the
    transaction, its [clear] included, is rolled back. *)
Theorem saveData_with_a_duplicate_id_changes_nothing data db :
  ¬ NoDup (year_id <$> data) → saveData data db = db.
Proof.
  intros Hdup. unfold saveData. by rewrite store_addAll_duplicate.
Qed.

(** The theorem of X1 for two years of id 1, on a store that holds two other
    years. *)
Lemma saveData_with_a_duplicate_id_changes_nothing_witness :
  ¬ NoDup (year_id <$> clashingYears)
  ∧ saveData clashingYears (saveData sampleYears emptyDatabase)
    = saveData sampleYears emptyDatabase.
Proof.
  assert (¬ NoDup (year_id <$> clashingYears)) as Hdup.
  { intros Hnodup. apply NoDup_cons in Hnodup as [Hnotin _].
    apply Hnotin. by left. }
  split; [exact Hdup|].
  exact (saveData_with_a_duplicate_id_changes_nothing _ _ Hdup).
Defined.

(** X2: of two saves in a row only the later one shows: the database is the
    one the later save alone would have left, whatever the earlier list
    was, and saving the same list twice is the same as saving it once. *)
Theorem saveData_last_save_wins earlier later db :
  NoDup (year_id <$> later) →
  saveData later (saveData earlier db) = saveData later db
  ∧ saveData later (saveData later db) = saveData later db.
Proof.
  intros Hnodup.
  by rewrite !(saveData_distinct later), !userProfileStore_saveData by done.
Qed.

Lemma NoDup_sampleYears : NoDup (year_id <$> sampleYears).
Proof.
  apply NoDup_ListNoDup. repeat constructor; cbn; intuition discriminate.
Defined.

(** The theorem of X2 for the seeded year followed by the two sample years. *)
Lemma saveData_last_save_wins_witness :
  NoDup (year_id <$> sampleYears)
  ∧ saveData sampleYears (saveData [initialYear] emptyDatabase)
    = saveData sampleYears emptyDatabase.
Proof.
  split; [exact NoDup_sampleYears|].
  exact (proj1 (saveData_last_save_wins [initialYear] sampleYears emptyDatabase
                  NoDup_sampleYears)).
Defined.

(** X3: [saveUserProfile] puts the profile under the key [user], replacing
    what an earlier call put there; it leaves the years store alone, and it
    commutes with [saveData]. *)
Theorem saveUserProfile_is_an_upsert first second data db :
  saveUserProfile second (saveUserProfile first db) = saveUserProfile second db
  ∧ userProfileStore (saveUserProfile second db) !! "user"
    = Some (mkProfileRecord second "user")
  ∧ yearsStore (saveUserProfile second db) = yearsStore db
  ∧ saveData data (saveUserProfile second db)
    = saveUserProfile second (saveData data db).
Proof.
  split_and!.
  - unfold saveUserProfile. cbn. by rewrite insert_insert_eq.
  - apply lookup_insert_eq.
  - done.
  - unfold saveData, saveUserProfile. by destruct (store_addAll ∅ data).
Qed.

(** ** What a reload finds *)

Lemma userProfileStore_startup db :
  userProfileStore (database (startup db)) = userProfileStore db.
Proof.
  unfold startup, loadData. cbn [database initialState].
  destruct (getAll (yearsStore db)), (userProfileStore db !! "user");
    cbn; by rewrite ?userProfileStore_saveData.
Qed.

Lemma onlyUserKey_handle ev st :
  onlyUserKey (database st) → onlyUserKey (database (handle ev st)).
Proof.
  intros Hst.
  assert (∀ p db, onlyUserKey db → onlyUserKey (saveUserProfile p db)) as Hsave.
  { intros p db Hdb key r. cbn. intros Hr.
    destruct (decide (key = "user")) as [->|Hne].
    - rewrite lookup_insert_eq in Hr. by simplify_eq.
    - rewrite lookup_insert_ne in Hr by done. by apply Hdb. }
  assert (∀ db', userProfileStore db' = userProfileStore (database st) →
                 onlyUserKey db') as Hsame.
  { intros db' Heq key r. rewrite Heq. apply Hst. }
  destruct ev; cbn [handle]; try (by apply Hsame); try (by apply Hsave).
  - apply Hsame. unfold addYear. destruct (generateId (nextId st)). cbn.
    apply userProfileStore_saveData.
  - apply Hsame. cbn. apply userProfileStore_saveData.
  - apply Hsame. unfold addSemester.
    destruct (mapM (addSemester_year yearId) (years st) (nextId st)). cbn.
    apply userProfileStore_saveData.
  - apply Hsame. cbn. apply userProfileStore_saveData.
  - apply Hsame. unfold addCourse.
    destruct (mapM (addCourse_year yearId semesterId) (years st) (nextId st)).
    cbn. apply userProfileStore_saveData.
  - apply Hsame. cbn. apply userProfileStore_saveData.
  - apply Hsame. cbn. apply userProfileStore_saveData.
  - apply Hsame. cbn. apply userProfileStore_saveData.
  - apply Hsame. cbn. apply userProfileStore_saveData.
  - apply Hsame. apply userProfileStore_startup.
Qed.

(** X4: in every state the page can reach the profile store holds at most
    one record, the one under the key [user], whose own id is [user]. *)
Theorem profile_store_holds_one_record st key r :
  reachable st → userProfileStore (database st) !! key = Some r →
  key = "user" ∧ record_id r = "user".
Proof.
  intros Hst. revert key r. change (onlyUserKey (database st)).
  induction Hst as [|ev st _ IH].
  - intros key r. rewrite userProfileStore_startup. done.
  - by apply onlyUserKey_handle.
Qed.

(** The theorem of X4 after Save on the freshly opened page. *)
Lemma profile_store_holds_one_record_witness :
  reachable (handleSaveProfile (startup emptyDatabase))
  ∧ userProfileStore (database (handleSaveProfile (startup emptyDatabase)))
      !! "user" = Some (mkProfileRecord emptyProfile "user")
  ∧ record_id (mkProfileRecord emptyProfile "user") = "user".
Proof.
  assert (reachable (handleSaveProfile (startup emptyDatabase))) as Hst
    by exact (reachable_handle ClickSaveProfile _ reachable_start).
  split; [exact Hst|]. split; [reflexivity|].
  exact (proj2 (profile_store_holds_one_record _ "user" _ Hst eq_refl)).
Defined.

Lemma StronglySorted_Forall {T} (R : relation T) (P : T → Prop) l :
  StronglySorted R l → Forall P l →
  StronglySorted (λ a b, R a b ∧ P a ∧ P b) l.
Proof.
  induction 1 as [|x l Hl IH Hx]; intros Hall; [constructor|].
  apply Forall_cons in Hall as [Px Hall]. constructor; [by apply IH|].
  rewrite Forall_forall in *. intros y Hy. split_and!; auto.
Qed.

(** The records [getAll] returns come in ascending order of their ids. *)
Lemma getAll_sorted ys :
  NoDup (year_id <$> ys) →
  StronglySorted byYearId (getAll (list_to_map (keyed ys) : gmap string Year)).
Proof.
  intros Hnodup. unfold getAll.
  set (R := λ a b : string * Year, String.le a.1 b.1).
  assert (Transitive R) by (intros a b c; unfold R; apply transitivity).
  assert (Total R) by (intros a b; unfold R; apply total, _).
  pose proof (StronglySorted_merge_sort R
                (map_to_list (list_to_map (keyed ys) : gmap string Year)))
    as Hsorted.
  eapply (StronglySorted_fmap snd
            (λ a b, R a b ∧ a.1 = year_id a.2 ∧ b.1 = year_id b.2));
    [|apply StronglySorted_Forall; [done|]].
  - intros [k y] [k' y'] (Hle & Hk & Hk'). unfold byYearId, R in *. cbn in *.
    by subst.
  - rewrite merge_sort_Permutation, map_to_list_to_map
      by (by rewrite keyed_fst).
    unfold keyed. by apply Forall_fmap, Forall_true.
Qed.

(** X5: reloading a page whose tree is not empty brings back the same
    years, sorted by their ids compared as strings (so that year 10 comes
    before year 2), expands every one of them and writes nothing to the
    database. *)
Theorem reload_returns_the_years_in_id_order st :
  reachable st → years st ≠ [] →
  years (handle Reload st) ≡ₚ years st
  ∧ StronglySorted byYearId (years (handle Reload st))
  ∧ expandedYears (handle Reload st) = list_to_set (year_id <$> years st)
  ∧ database (handle Reload st) = database st.
Proof.
  intros (n & Hn & Hpos & Hwf & Hdb)%reachable_invariant Hne. cbn [handle].
  assert (NoDup (year_id <$> years st)) as Hkeys by (by eapply wfIds_year_ids).
  pose proof (getAll_keyed _ Hkeys) as Hperm.
  pose proof (getAll_sorted _ Hkeys) as Hsorted.
  rewrite <-Hdb in Hperm, Hsorted.
  unfold startup, loadData. cbn [database initialState].
  destruct (getAll (yearsStore (database st))) as [|year rest] eqn:Hloaded.
  { destruct Hne. by apply Permutation_nil. }
  set (loaded := year :: rest) in *.
  destruct (userProfileStore (database st) !! "user");
    (split_and!; [exact Hperm|exact Hsorted| |reflexivity]);
    change (list_to_set (year_id <$> loaded)
            =@{gset string} list_to_set (year_id <$> years st));
    apply list_to_set_perm_L; by rewrite Hperm.
Qed.

(** The theorem of X5 on the freshly opened page. *)
Lemma reload_returns_the_years_in_id_order_witness :
  reachable (startup emptyDatabase)
  ∧ years (startup emptyDatabase) ≠ []
  ∧ years (handle Reload (startup emptyDatabase)) ≡ₚ years (startup emptyDatabase).
Proof.
  assert (years (startup emptyDatabase) ≠ []) as Hne by discriminate.
  split; [exact reachable_start|]. split; [exact Hne|].
  exact (proj1 (reload_returns_the_years_in_id_order _ reachable_start Hne)).
Defined.

(** X6: reloading a page whose last year has been deleted seeds the tree
    again, as on the first visit: year 1 with its two semesters, expanded
    and saved, and the counter back at 1. *)
Theorem reload_of_an_empty_tree_seeds_it_again st :
  reachable st → years st = [] →
  years (handle Reload st) = [initialYear]
  ∧ nextId (handle Reload st) = Int 1
  ∧ expandedYears (handle Reload st) = {["1"]}
  ∧ yearsStore (database (handle Reload st)) = {["1" := initialYear]}.
Proof.
  intros (n & Hn & Hpos & Hwf & Hdb)%reachable_invariant Hempty. cbn [handle].
  rewrite Hempty in Hdb. unfold startup, loadData. cbn [database initialState].
  rewrite Hdb. change (getAll (list_to_map (keyed []))) with (@nil Year).
  by destruct (userProfileStore (database st) !! "user").
Qed.

(** The theorem of X6 after the seeded year has been deleted. *)
Lemma reload_of_an_empty_tree_seeds_it_again_witness :
  reachable (deleteYear "1" (startup emptyDatabase))
  ∧ years (deleteYear "1" (startup emptyDatabase)) = []
  ∧ years (handle Reload (deleteYear "1" (startup emptyDatabase)))
    = [initialYear].
Proof.
  assert (reachable (deleteYear "1" (startup emptyDatabase))) as Hst
    by exact (reachable_handle (ClickDeleteYear "1") _ reachable_start).
  split; [exact Hst|]. split; [reflexivity|].
  exact (proj1 (reload_of_an_empty_tree_seeds_it_again _ Hst eq_refl)).
Defined.

(** ** Maps that draw at most one id *)

Lemma mapM_gen_fixed {T} (f : T → Gen T) l n :
  Forall (λ x, ∀ m, f x m = (x, m)) l → mapM f l n = (l, n).
Proof.
  induction 1 as [|x l Hx _ IH]; [done|].
  rewrite mapM_gen_cons, Hx. cbn [fst snd]. by rewrite IH.
Qed.

(** When at most one element of the list is of the kind that draws an id,
    every element sees the counter the map started with. *)
Lemma mapM_gen_single {T} (f : T → Gen T) (P : T → Prop)
    `{∀ x, Decision (P x)} l n :
  (∀ x m, ¬ P x → f x m = (x, m)) →
  (∀ i j x x', l !! i = Some x → l !! j = Some x' → P x → P x' → i = j) →
  (mapM f l n).1 = (λ x, (f x n).1) <$> l
  ∧ (Forall (λ x, ¬ P x) l → (mapM f l n).2 = n)
  ∧ (∀ x, x ∈ l → P x → (mapM f l n).2 = (f x n).2).
Proof.
  intros Hskip. induction l as [|x l IH]; intros Hone.
  - split_and!; [done|done|]. intros x Hx. by apply elem_of_nil in Hx.
  - rewrite mapM_gen_cons. cbn [fst snd].
    assert (∀ i j y y', l !! i = Some y → l !! j = Some y' → P y → P y' → i = j)
      as Hone'.
    { intros i j y y' Hi Hj Hy Hy'.
      by injection (Hone (S i) (S j) y y' Hi Hj Hy Hy'). }
    destruct (IH Hone') as (IH1 & IH2 & IH3).
    assert (P x → Forall (λ y, ¬ P y) l) as Hrest.
    { intros Hx. apply Forall_forall. intros y Hy HPy.
      apply list_elem_of_lookup in Hy as [j Hj].
      by specialize (Hone 0%nat (S j) x y eq_refl Hj Hx HPy). }
    assert (∀ m, Forall (λ y, ¬ P y) l → mapM f l m = (l, m)) as Hfixed.
    { intros m Hl. apply mapM_gen_fixed. eapply Forall_impl; [done|].
      intros y Hy k. by apply Hskip. }
    assert (Forall (λ y, ¬ P y) l → (λ y, (f y n).1) <$> l = l) as Hmap.
    { intros Hl. apply fmap_fixed. eapply Forall_impl; [done|].
      intros y Hy. cbn. by rewrite Hskip. }
    destruct (decide (P x)) as [Hx|Hx].
    + specialize (Hrest Hx). rewrite (Hfixed _ Hrest). cbn [fst snd].
      split_and!.
      * by rewrite fmap_cons, (Hmap Hrest).
      * intros [? _]%Forall_cons. done.
      * intros y [->|Hy]%elem_of_cons Hy'; [done|].
        rewrite Forall_forall in Hrest. by destruct (Hrest y Hy).
    + rewrite (Hskip x n Hx). cbn [fst snd]. split_and!.
      * by rewrite fmap_cons, IH1, (Hskip x n Hx).
      * intros [_ Hl]%Forall_cons. by apply IH2.
      * intros y [->|Hy]%elem_of_cons Hy'; [done|]. by apply IH3.
Qed.

Lemma NoDup_fmap_single {T} (key : T → string) (l : list T) i j x x' k :
  NoDup (key <$> l) → l !! i = Some x → l !! j = Some x' →
  key x = k → key x' = k → i = j.
Proof.
  intros Hnodup Hi Hj Hx Hx'.
  apply (NoDup_lookup _ i j k Hnodup); rewrite list_lookup_fmap.
  - by rewrite Hi; cbn; rewrite Hx.
  - by rewrite Hj; cbn; rewrite Hx'.
Qed.

Lemma semester_ids_sublist year :
  semester_id <$> year_semesters year `sublist_of` yearIds year.
Proof.
  unfold yearIds. apply sublist_cons.
  induction (year_semesters year) as [|semester l IH]; [done|].
  rewrite fmap_cons, bind_cons. unfold semesterIds at 1.
  rewrite <-app_comm_cons. apply sublist_skip. by apply sublist_inserts_l.
Qed.

Lemma yearIds_sublist ys year : year ∈ ys → yearIds year `sublist_of` treeIds ys.
Proof.
  intros Hyear. apply list_elem_of_split in Hyear as (l1 & l2 & ->).
  unfold treeIds. rewrite bind_app, bind_cons.
  apply sublist_inserts_l, sublist_inserts_r. done.
Qed.

Lemma NoDup_semester_ids ys year :
  NoDup (treeIds ys) → year ∈ ys → NoDup (semester_id <$> year_semesters year).
Proof.
  intros Hnodup Hyear. eapply sublist_NoDup; [done|].
  etrans; [apply semester_ids_sublist|by apply yearIds_sublist].
Qed.

(** In a tree with pairwise distinct ids [addSemester] and [addCourse] are
    plain maps: every year and semester is handled with the counter the
    handler started with. *)
Lemma addSemester_as_map yearId ys n :
  NoDup (treeIds ys) →
  (mapM (addSemester_year yearId) ys n).1
  = (λ year, (addSemester_year yearId year n).1) <$> ys
  ∧ (yearId ∉ year_id <$> ys → (mapM (addSemester_year yearId) ys n).2 = n)
  ∧ (yearId ∈ year_id <$> ys →
     (mapM (addSemester_year yearId) ys n).2 = incr n).
Proof.
  intros Hnodup.
  destruct (mapM_gen_single (addSemester_year yearId)
              (λ year, year_id year = yearId) ys n) as (H1 & H2 & H3).
  { intros year m Hne. by apply addSemester_year_other. }
  { intros i j x x' Hi Hj Hx Hx'.
    eapply (NoDup_fmap_single year_id); [|done..].
    eapply sublist_NoDup; [done|apply year_ids_sublist]. }
  split_and!; [done| |].
  - intros Hnotin. apply H2, Forall_forall. intros year Hyear Heq.
    apply Hnotin. rewrite <-Heq. by apply list_elem_of_fmap_2.
  - intros (year & -> & Hyear)%list_elem_of_fmap.
    rewrite (H3 year Hyear eq_refl). by rewrite addSemester_year_match.
Qed.

Lemma addCourse_semester_match semesterId semester n :
  semester_id semester = semesterId →
  addCourse_semester semesterId semester n
  = (mkSemester (semester_id semester) (semester_name semester)
       (semester_courses semester ++ [mkCourse (toString (incr n)) "" "A" 3]),
     incr n).
Proof.
  intros Hid. unfold addCourse_semester. rewrite decide_True by done.
  by rewrite gen_bind_apply.
Qed.

Lemma addCourse_semester_other semesterId semester n :
  semester_id semester ≠ semesterId →
  addCourse_semester semesterId semester n = (semester, n).
Proof. intros Hid. unfold addCourse_semester. by rewrite decide_False. Qed.

Lemma addCourse_year_other yearId semesterId year n :
  year_id year ≠ yearId → addCourse_year yearId semesterId year n = (year, n).
Proof. intros Hid. unfold addCourse_year. by rewrite decide_False. Qed.

Lemma addCourse_year_match yearId semesterId year n :
  year_id year = yearId →
  NoDup (semester_id <$> year_semesters year) →
  (addCourse_year yearId semesterId year n).1
  = mkYear (year_id year) (year_name year)
      ((λ semester, (addCourse_semester semesterId semester n).1)
         <$> year_semesters year)
  ∧ (semesterId ∉ semester_id <$> year_semesters year →
     addCourse_year yearId semesterId year n = (year, n))
  ∧ (semesterId ∈ semester_id <$> year_semesters year →
     (addCourse_year yearId semesterId year n).2 = incr n).
Proof.
  intros Hid Hnodup. unfold addCourse_year. rewrite decide_True by done.
  rewrite gen_bind_apply, gen_ret_apply. cbn [fst snd].
  destruct (mapM_gen_single (addCourse_semester semesterId)
              (λ semester, semester_id semester = semesterId)
              (year_semesters year) n) as (H1 & H2 & H3).
  { intros semester m Hne. by apply addCourse_semester_other. }
  { intros i j x x' Hi Hj Hx Hx'. by eapply (NoDup_fmap_single semester_id). }
  split_and!.
  - by rewrite H1.
  - intros Hnotin.
    assert (Forall (λ semester, semester_id semester ≠ semesterId)
              (year_semesters year)) as Hall.
    { apply Forall_forall. intros semester Hsemester Heq.
      apply Hnotin. rewrite <-Heq. by apply list_elem_of_fmap_2. }
    rewrite mapM_gen_fixed.
    + by destruct year.
    + eapply Forall_impl; [done|]. intros semester Hne m.
      by apply addCourse_semester_other.
  - intros (semester & -> & Hsemester)%list_elem_of_fmap.
    rewrite (H3 semester Hsemester eq_refl).
    by rewrite addCourse_semester_match.
Qed.

(** ** Adding and deleting again *)

Lemma saveData_restores st db :
  invariant st → userProfileStore db = userProfileStore (database st) →
  saveData (years st) db = database st.
Proof.
  intros (n & Hn & Hpos & Hwf & Hdb) Hprofiles.
  rewrite saveData_distinct by (by eapply wfIds_year_ids).
  rewrite <-Hdb, Hprofiles. by destruct (database st).
Qed.

Lemma commitYears_same st : invariant st → commitYears (years st) st = st.
Proof.
  intros Hinv. unfold commitYears. rewrite saveData_restores by done.
  by destruct st.
Qed.

(** The id the counter hands out next is not in the tree. *)
Lemma next_id_fresh n ids x :
  1 ≤ n → wfIds n ids → x ∈ ids → x ≠ toString (Int (n + 1)).
Proof.
  intros Hpos [_ Hissued] Hx Heq. rewrite Forall_forall in Hissued.
  destruct (Hissued x Hx) as (k & f & Hk & ->).
  change (toString (Int (n + 1))) with (mkId (n + 1) Plain) in Heq.
  apply mkId_inj in Heq as [? _]; lia.
Qed.

Lemma year_id_in_tree ys year : year ∈ ys → year_id year ∈ treeIds ys.
Proof.
  intros Hyear. apply list_elem_of_bind. exists year. split; [|done].
  apply elem_of_cons. by left.
Qed.

Lemma semester_id_in_tree ys year semester :
  year ∈ ys → semester ∈ year_semesters year → semester_id semester ∈ treeIds ys.
Proof.
  intros Hyear Hsemester. apply list_elem_of_bind. exists year. split; [|done].
  apply elem_of_cons. right. apply list_elem_of_bind. exists semester.
  split; [|done]. apply elem_of_cons. by left.
Qed.

Lemma course_id_in_tree ys year semester course :
  year ∈ ys → semester ∈ year_semesters year →
  course ∈ semester_courses semester → course_id course ∈ treeIds ys.
Proof.
  intros Hyear Hsemester Hcourse. apply list_elem_of_bind. exists year.
  split; [|done]. apply elem_of_cons. right. apply list_elem_of_bind.
  exists semester. split; [|done]. apply elem_of_cons. right.
  by apply list_elem_of_fmap_2.
Qed.

Lemma filter_snoc_fresh {T} (key : T → string) (l : list T) x :
  Forall (λ y, key y ≠ key x) l →
  filter (λ y, key y ≠ key x) (l ++ [x]) = l.
Proof.
  intros Hl. rewrite filter_app, filter_all by done.
  rewrite filter_cons_False by (by intros []). apply app_nil_r.
Qed.

(** X7: in a state the page can reach, adding a year and then deleting the
    year of the id just issued gives back the list of years and the
    database; only the counter has moved, by one. *)
Theorem deleting_the_year_just_added_restores_the_tree st :
  reachable st →
  years (deleteYear (toString (incr (nextId st))) (addYear st)) = years st
  ∧ database (deleteYear (toString (incr (nextId st))) (addYear st))
    = database st
  ∧ nextId (deleteYear (toString (incr (nextId st))) (addYear st))
    = incr (nextId st).
Proof.
  intros Hinv%reachable_invariant.
  pose proof Hinv as (n & Hn & Hpos & Hwf & Hdb).
  unfold addYear. rewrite Hn, generateId_Int. cbn [incr].
  set (year := mkYear _ _ _). unfold deleteYear.
  assert (filter (λ y, year_id y ≠ toString (Int (n + 1))) (years st ++ [year])
          = years st) as Hfilter.
  { apply (filter_snoc_fresh year_id _ year), Forall_forall.
    intros y Hy. eapply next_id_fresh; [done..|]. by apply year_id_in_tree. }
  cbn [years database nextId set_expandedYears commitYears set_database
         set_years set_nextId].
  rewrite Hfilter. split_and!; [done| |done].
  apply saveData_restores; [done|]. by rewrite userProfileStore_saveData.
Qed.

(** The theorem of X7 on the freshly opened page. *)
Lemma deleting_the_year_just_added_restores_the_tree_witness :
  years (deleteYear "2" (addYear (startup emptyDatabase))) = [initialYear].
Proof.
  exact (proj1 (deleting_the_year_just_added_restores_the_tree
                  (startup emptyDatabase) reachable_start)).
Defined.

Lemma addSemester_year_undone yearId year n :
  1 ≤ n → Forall (λ s, semester_id s ≠ toString (Int (n + 1))) (year_semesters year) →
  (let year' := (addSemester_year yearId year (Int n)).1 in
   if decide (year_id year' = yearId) then
     mkYear (year_id year') (year_name year')
       (filter (λ semester, semester_id semester ≠ toString (Int (n + 1)))
          (year_semesters year'))
   else year') = year.
Proof.
  intros Hpos Hfresh. cbv zeta.
  destruct (decide (year_id year = yearId)) as [Hid|Hid].
  - rewrite addSemester_year_match by done. cbn [fst year_id year_name year_semesters incr].
    rewrite decide_True by done.
    set (semester := mkSemester _ _ _).
    rewrite (filter_snoc_fresh semester_id _ semester) by done.
    by destruct year.
  - rewrite addSemester_year_other by done. cbn [fst].
    by rewrite decide_False.
Qed.

(** X8: in a state the page can reach, adding a semester to a year and then
    deleting, in that year, the semester of the id just issued gives back
    the list of years and the database, whether or not the year exists. *)
Theorem deleting_the_semester_just_added_restores_the_tree yearId st :
  reachable st →
  years (deleteSemester yearId (toString (incr (nextId st)))
           (addSemester yearId st)) = years st
  ∧ database (deleteSemester yearId (toString (incr (nextId st)))
                (addSemester yearId st)) = database st.
Proof.
  intros Hinv%reachable_invariant.
  pose proof Hinv as (n & Hn & Hpos & Hwf & Hdb).
  destruct (addSemester_as_map yearId (years st) (nextId st)) as (Hmap & _);
    [apply Hwf|].
  unfold addSemester.
  destruct (mapM (addSemester_year yearId) (years st) (nextId st))
    as [newYears n'].
  cbn [fst] in Hmap. subst newYears. unfold deleteSemester.
  cbn [years database nextId commitYears set_database set_years set_nextId].
  rewrite Hn. cbn [incr]. rewrite <-list_fmap_compose.
  match goal with |- ?l = _ ∧ _ => assert (l = years st) as -> end.
  2:{ split; [done|]. apply saveData_restores; [done|].
      by rewrite userProfileStore_saveData. }
  apply fmap_fixed, Forall_forall. intros year Hyear.
  apply (addSemester_year_undone yearId year n Hpos), Forall_forall.
  intros semester Hsemester. eapply next_id_fresh; [done..|].
  by eapply semester_id_in_tree.
Qed.

(** The theorem of X8 for year 1 of the freshly opened page. *)
Lemma deleting_the_semester_just_added_restores_the_tree_witness :
  years (deleteSemester "1" "2" (addSemester "1" (startup emptyDatabase)))
  = [initialYear].
Proof.
  exact (proj1 (deleting_the_semester_just_added_restores_the_tree "1"
                  (startup emptyDatabase) reachable_start)).
Defined.

Lemma addCourse_year_absent yearId semesterId year n :
  (year_id year = yearId →
   semesterId ∉ semester_id <$> year_semesters year) →
  addCourse_year yearId semesterId year n = (year, n).
Proof.
  intros Habsent. unfold addCourse_year. case_decide as Hid; [|done].
  rewrite gen_bind_apply, gen_ret_apply, mapM_gen_fixed; [by destruct year|].
  apply Forall_forall. intros semester Hsemester m.
  apply addCourse_semester_other. intros Heq. apply (Habsent Hid).
  rewrite <-Heq. by apply list_elem_of_fmap_2.
Qed.

Lemma addCourse_as_map yearId semesterId ys n :
  NoDup (treeIds ys) →
  (mapM (addCourse_year yearId semesterId) ys n).1
  = (λ year, (addCourse_year yearId semesterId year n).1) <$> ys
  ∧ ∀ year, year ∈ ys → year_id year = yearId →
      (mapM (addCourse_year yearId semesterId) ys n).2
      = (addCourse_year yearId semesterId year n).2.
Proof.
  intros Hnodup.
  destruct (mapM_gen_single (addCourse_year yearId semesterId)
              (λ year, year_id year = yearId) ys n) as (H1 & H2 & H3).
  { intros year m Hne. by apply addCourse_year_other. }
  { intros i j x x' Hi Hj Hx Hx'.
    eapply (NoDup_fmap_single year_id); [|done..].
    eapply sublist_NoDup; [done|apply year_ids_sublist]. }
  split; [done|]. intros year Hyear Hid. by apply H3.
Qed.

Lemma addCourse_semester_undone semesterId semester n :
  Forall (λ c, course_id c ≠ toString (Int (n + 1))) (semester_courses semester) →
  (let semester' := (addCourse_semester semesterId semester (Int n)).1 in
   if decide (semester_id semester' = semesterId) then
     mkSemester (semester_id semester') (semester_name semester')
       (filter (λ course, course_id course ≠ toString (Int (n + 1)))
          (semester_courses semester'))
   else semester') = semester.
Proof.
  intros Hfresh. cbv zeta.
  destruct (decide (semester_id semester = semesterId)) as [Hid|Hid].
  - rewrite addCourse_semester_match by done.
    cbn [fst semester_id semester_name semester_courses incr].
    rewrite decide_True by done. set (course := mkCourse _ _ _ _).
    rewrite (filter_snoc_fresh course_id _ course) by done.
    by destruct semester.
  - rewrite addCourse_semester_other by done. cbn [fst].
    by rewrite decide_False.
Qed.

(** X9: in a state the page can reach, adding a course to a semester and
    then removing, there, the course of the id just issued gives back the
    list of years and the database, whether or not the semester exists. *)
Theorem removing_the_course_just_added_restores_the_tree yearId semesterId st :
  reachable st →
  years (removeCourse yearId semesterId (toString (incr (nextId st)))
           (addCourse yearId semesterId st)) = years st
  ∧ database (removeCourse yearId semesterId (toString (incr (nextId st)))
                (addCourse yearId semesterId st)) = database st.
Proof.
  intros Hinv%reachable_invariant.
  pose proof Hinv as (n & Hn & Hpos & Hwf & Hdb).
  destruct (addCourse_as_map yearId semesterId (years st) (nextId st))
    as (Hmap & _); [apply Hwf|].
  unfold addCourse.
  destruct (mapM (addCourse_year yearId semesterId) (years st) (nextId st))
    as [newYears n'].
  cbn [fst] in Hmap. subst newYears. unfold removeCourse.
  cbn [years database nextId commitYears set_database set_years set_nextId].
  rewrite Hn. cbn [incr]. rewrite <-list_fmap_compose.
  match goal with |- ?l = _ ∧ _ => assert (l = years st) as -> end.
  2:{ split; [done|]. apply saveData_restores; [done|].
      by rewrite userProfileStore_saveData. }
  apply fmap_fixed, Forall_forall. intros year Hyear. cbn [compose].
  destruct (decide (year_id year = yearId)) as [Hid|Hid].
  - destruct (addCourse_year_match yearId semesterId year (Int n) Hid)
      as (Hyear' & _).
    { eapply NoDup_semester_ids; [apply Hwf|done]. }
    rewrite Hyear'. cbn [year_id year_name year_semesters].
    rewrite decide_True by done. rewrite <-list_fmap_compose.
    rewrite fmap_fixed; [by destruct year|].
    apply Forall_forall. intros semester Hsemester. cbn [compose].
    apply (addCourse_semester_undone semesterId semester n), Forall_forall.
    intros course Hcourse. eapply next_id_fresh; [done..|].
    by eapply course_id_in_tree.
  - rewrite addCourse_year_other by done. cbn [fst]. by rewrite decide_False.
Qed.

(** The theorem of X9 for the second semester of the freshly opened page. *)
Lemma removing_the_course_just_added_restores_the_tree_witness :
  years (removeCourse "1" "1-2" "2" (addCourse "1" "1-2" (startup emptyDatabase)))
  = [initialYear].
Proof.
  exact (proj1 (removing_the_course_just_added_restores_the_tree "1" "1-2"
                  (startup emptyDatabase) reachable_start)).
Defined.

(** X10: in a state the page can reach, [addSemester] with the id of no year,
    and [addCourse] with ids that name no semester of a year of that id,
    change nothing at all: the tree, the counter and the database stay as
    they are, and no id is used up. *)
Theorem adding_under_an_unknown_id_changes_nothing yearId semesterId st :
  reachable st →
  (yearId ∉ year_id <$> years st → addSemester yearId st = st)
  ∧ ((∀ year, year ∈ years st → year_id year = yearId →
        semesterId ∉ semester_id <$> year_semesters year) →
     addCourse yearId semesterId st = st).
Proof.
  intros Hinv%reachable_invariant. split.
  - intros Hnotin. unfold addSemester. rewrite mapM_gen_fixed.
    + replace (set_nextId (nextId st) st) with st by (by destruct st).
      by apply commitYears_same.
    + apply Forall_forall. intros year Hyear m.
      apply addSemester_year_other. intros Heq. apply Hnotin.
      rewrite <-Heq. by apply list_elem_of_fmap_2.
  - intros Habsent. unfold addCourse. rewrite mapM_gen_fixed.
    + replace (set_nextId (nextId st) st) with st by (by destruct st).
      by apply commitYears_same.
    + apply Forall_forall. intros year Hyear m.
      apply addCourse_year_absent. by apply Habsent.
Qed.

(** The theorem of X10 for the id 7 on the freshly opened page. *)
Lemma adding_under_an_unknown_id_changes_nothing_witness :
  addSemester "7" (startup emptyDatabase) = startup emptyDatabase
  ∧ addCourse "1" "7" (startup emptyDatabase) = startup emptyDatabase.
Proof.
  destruct (adding_under_an_unknown_id_changes_nothing "7" "7"
              (startup emptyDatabase) reachable_start) as [Hsemester _].
  destruct (adding_under_an_unknown_id_changes_nothing "1" "7"
              (startup emptyDatabase) reachable_start) as [_ Hcourse].
  split.
  - apply Hsemester. intros Hin.
    repeat (apply elem_of_cons in Hin as [Hin|Hin]; [done|]).
    by apply elem_of_nil in Hin.
  - apply Hcourse. intros year Hyear _ Hin.
    apply list_elem_of_singleton in Hyear as ->.
    repeat (apply elem_of_cons in Hin as [Hin|Hin]; [done|]).
    by apply elem_of_nil in Hin.
Defined.

(** ** Edits at a position *)

Lemma fmap_insert_single {T} (f : T → T) (l : list T) i x :
  l !! i = Some x → (∀ j y, l !! j = Some y → j ≠ i → f y = y) →
  f <$> l = <[i := f x]> l.
Proof.
  intros Hi Hfixed. apply list_eq. intros j. rewrite list_lookup_fmap.
  destruct (decide (j = i)) as [->|Hne].
  - rewrite list_lookup_insert_eq by (by eapply lookup_lt_Some). by rewrite Hi.
  - rewrite list_lookup_insert_ne by done.
    destruct (l !! j) as [y|] eqn:Hj; [|done]. cbn. f_equal. by eapply Hfixed.
Qed.

Lemma filter_delete_single {T} (key : T → string) (l : list T) i x :
  NoDup (key <$> l) → l !! i = Some x →
  filter (λ y, key y ≠ key x) l = delete i l.
Proof.
  revert i. induction l as [|y l IH]; intros i Hnodup Hi; [done|].
  rewrite fmap_cons in Hnodup. apply NoDup_cons in Hnodup as [Hnotin Hnodup].
  destruct i as [|i]; simplify_eq/=.
  - rewrite filter_cons_False by (by intros []).
    apply filter_all, Forall_forall. intros y Hy Heq. apply Hnotin.
    rewrite <-Heq. by apply list_elem_of_fmap_2.
  - rewrite filter_cons_True.
    + f_equal. by apply IH.
    + intros Heq. apply Hnotin. rewrite Heq. apply list_elem_of_fmap_2.
      by eapply list_elem_of_lookup_2.
Qed.

Lemma other_position {T} (key : T → string) (l : list T) i j x y :
  NoDup (key <$> l) → l !! i = Some x → l !! j = Some y → j ≠ i →
  key y ≠ key x.
Proof.
  intros Hnodup Hi Hj Hne Heq. apply Hne.
  by eapply (NoDup_fmap_single key l j i y x).
Qed.

Lemma NoDup_course_ids ys year semester :
  NoDup (treeIds ys) → year ∈ ys → semester ∈ year_semesters year →
  NoDup (course_id <$> semester_courses semester).
Proof.
  intros Hnodup Hyear Hsemester. eapply sublist_NoDup; [done|].
  etrans; [|by apply yearIds_sublist].
  apply list_elem_of_split in Hsemester as (l1 & l2 & Heq).
  unfold yearIds. apply sublist_cons. rewrite Heq, bind_app, bind_cons.
  apply sublist_inserts_l, sublist_inserts_r. unfold semesterIds.
  by apply sublist_cons.
Qed.

(** X11: in a state the page can reach, [addCourse] with the ids of the
    semester at position [j] of the year at position [i] changes the tree at
    that one place: the semester gets one more course at the end, with an
    empty name, the grade A, 3 credits and the next counter value as its
    id; the counter moves up by one. *)
Theorem addCourse_appends_a_default_course st i j year semester :
  reachable st →
  years st !! i = Some year → year_semesters year !! j = Some semester →
  years (addCourse (year_id year) (semester_id semester) st)
  = <[i := mkYear (year_id year) (year_name year)
            (<[j := mkSemester (semester_id semester) (semester_name semester)
                      (semester_courses semester ++
                       [mkCourse (toString (incr (nextId st))) "" "A" 3])]>
               (year_semesters year))]> (years st)
  ∧ nextId (addCourse (year_id year) (semester_id semester) st)
    = incr (nextId st).
Proof.
  intros (n & Hn & Hpos & Hwf & Hdb)%reachable_invariant Hi Hj.
  assert (year ∈ years st) as Hyear by (by eapply list_elem_of_lookup_2).
  assert (semester ∈ year_semesters year) as Hsemester
    by (by eapply list_elem_of_lookup_2).
  destruct (addCourse_as_map (year_id year) (semester_id semester) (years st)
              (nextId st)) as (Hmap & Hcounter); [apply Hwf|].
  specialize (Hcounter year Hyear eq_refl).
  destruct (addCourse_year_match (year_id year) (semester_id semester) year
              (nextId st) eq_refl) as (Hyear' & _ & Hcounter').
  { eapply NoDup_semester_ids; [apply Hwf|done]. }
  unfold addCourse.
  destruct (mapM (addCourse_year (year_id year) (semester_id semester))
              (years st) (nextId st)) as [newYears n'].
  cbn [fst snd] in Hmap, Hcounter. subst newYears n'.
  cbn [years nextId commitYears set_database set_years set_nextId].
  split; [|by apply Hcounter', list_elem_of_fmap_2].
  rewrite (fmap_insert_single _ _ i year Hi).
  - rewrite Hyear'. do 2 f_equal.
    rewrite (fmap_insert_single _ _ j semester Hj).
    + by rewrite addCourse_semester_match.
    + intros j' semester' Hj' Hne. rewrite addCourse_semester_other; [done|].
      eapply (other_position semester_id); [|done..].
      eapply NoDup_semester_ids; [apply Hwf|done].
  - intros i' year' Hi' Hne. rewrite addCourse_year_other; [done|].
    eapply (other_position year_id); [|done..]. by eapply wfIds_year_ids.
Qed.

(** The theorem of X11 for the second semester of the freshly opened page. *)
Lemma addCourse_appends_a_default_course_witness :
  years (addCourse "1" "1-2" (startup emptyDatabase))
  = [mkYear "1" "Year 1"
       [mkSemester "1-1" "Semester 1" [];
        mkSemester "1-2" "Semester 2" [mkCourse "2" "" "A" 3]]].
Proof.
  exact (proj1 (addCourse_appends_a_default_course (startup emptyDatabase)
                  0 1 initialYear (mkSemester "1-2" "Semester 2" [])
                  reachable_start eq_refl eq_refl)).
Defined.

(** X12: in a state the page can reach, [updateCourse] with the ids of the
    course at position [k] of the semester at position [j] of the year at
    position [i] changes the tree at that one place: the course has the
    given value in the given field. *)
Theorem updateCourse_sets_the_field_of_the_course
    st i j k year semester course field value :
  reachable st →
  years st !! i = Some year → year_semesters year !! j = Some semester →
  semester_courses semester !! k = Some course →
  years (updateCourse (year_id year) (semester_id semester) (course_id course)
           field value st)
  = <[i := mkYear (year_id year) (year_name year)
            (<[j := mkSemester (semester_id semester) (semester_name semester)
                      (<[k := setField course field value]>
                         (semester_courses semester))]>
               (year_semesters year))]> (years st).
Proof.
  intros (n & Hn & Hpos & Hwf & Hdb)%reachable_invariant Hi Hj Hk.
  assert (year ∈ years st) as Hyear by (by eapply list_elem_of_lookup_2).
  assert (semester ∈ year_semesters year) as Hsemester
    by (by eapply list_elem_of_lookup_2).
  unfold updateCourse. rewrite years_commitYears. unfold updateCourse_years.
  rewrite (fmap_insert_single _ _ i year Hi).
  - rewrite decide_True by done. do 2 f_equal.
    rewrite (fmap_insert_single _ _ j semester Hj).
    + rewrite decide_True by done. do 2 f_equal.
      rewrite (fmap_insert_single _ _ k course Hk).
      * by rewrite decide_True.
      * intros k' course' Hk' Hne. rewrite decide_False; [done|].
        eapply (other_position course_id); [|done..].
        eapply NoDup_course_ids; [apply Hwf|done..].
    + intros j' semester' Hj' Hne. rewrite decide_False; [done|].
      eapply (other_position semester_id); [|done..].
      eapply NoDup_semester_ids; [apply Hwf|done].
  - intros i' year' Hi' Hne. rewrite decide_False; [done|].
    eapply (other_position year_id); [|done..]. by eapply wfIds_year_ids.
Qed.

(** The theorem of X12 for the credits of a course just added. *)
Lemma updateCourse_sets_the_field_of_the_course_witness :
  years (updateCourse "1" "1-2" "2" Field_credits 4
           (addCourse "1" "1-2" (startup emptyDatabase)))
  = [mkYear "1" "Year 1"
       [mkSemester "1-1" "Semester 1" [];
        mkSemester "1-2" "Semester 2" [mkCourse "2" "" "A" 4]]].
Proof.
  exact (updateCourse_sets_the_field_of_the_course
           (addCourse "1" "1-2" (startup emptyDatabase)) 0 1 0
           (mkYear "1" "Year 1"
              [mkSemester "1-1" "Semester 1" [];
               mkSemester "1-2" "Semester 2" [mkCourse "2" "" "A" 3]])
           (mkSemester "1-2" "Semester 2" [mkCourse "2" "" "A" 3])
           (mkCourse "2" "" "A" 3) Field_credits 4
           (reachable_handle (ClickAddCourse "1" "1-2") _ reachable_start)
           eq_refl eq_refl eq_refl).
Defined.

(** X13: in a state the page can reach, [deleteSemester] with the ids of a
    year and of one of its semesters takes that one semester out of that
    year, and [removeCourse] with the ids of a course takes that one course
    out of its semester; the rest of the tree stays in place. *)
Theorem deleteSemester_and_removeCourse_take_out_one_item
    st i j year semester :
  reachable st →
  years st !! i = Some year → year_semesters year !! j = Some semester →
  years (deleteSemester (year_id year) (semester_id semester) st)
  = <[i := mkYear (year_id year) (year_name year)
            (delete j (year_semesters year))]> (years st)
  ∧ ∀ k course, semester_courses semester !! k = Some course →
      years (removeCourse (year_id year) (semester_id semester)
               (course_id course) st)
      = <[i := mkYear (year_id year) (year_name year)
                (<[j := mkSemester (semester_id semester)
                          (semester_name semester)
                          (delete k (semester_courses semester))]>
                   (year_semesters year))]> (years st).
Proof.
  intros (n & Hn & Hpos & Hwf & Hdb)%reachable_invariant Hi Hj.
  assert (year ∈ years st) as Hyear by (by eapply list_elem_of_lookup_2).
  assert (semester ∈ year_semesters year) as Hsemester
    by (by eapply list_elem_of_lookup_2).
  assert (NoDup (semester_id <$> year_semesters year)) as Hsemesters.
  { eapply NoDup_semester_ids; [apply Hwf|done]. }
  assert (∀ i' year', years st !! i' = Some year' → i' ≠ i →
            year_id year' ≠ year_id year) as Hyears.
  { intros i' year' Hi' Hne.
    eapply (other_position year_id); [|done..]. by eapply wfIds_year_ids. }
  split.
  - unfold deleteSemester. rewrite years_commitYears.
    rewrite (fmap_insert_single _ _ i year Hi).
    + rewrite decide_True by done. do 2 f_equal.
      by apply (filter_delete_single semester_id).
    + intros i' year' Hi' Hne. rewrite decide_False; [done|]. by eapply Hyears.
  - intros k course Hk. unfold removeCourse. rewrite years_commitYears.
    rewrite (fmap_insert_single _ _ i year Hi).
    + rewrite decide_True by done. do 2 f_equal.
      rewrite (fmap_insert_single _ _ j semester Hj).
      * rewrite decide_True by done. do 2 f_equal.
        apply (filter_delete_single course_id); [|done].
        eapply NoDup_course_ids; [apply Hwf|done..].
      * intros j' semester' Hj' Hne. rewrite decide_False; [done|].
        by eapply (other_position semester_id).
    + intros i' year' Hi' Hne. rewrite decide_False; [done|]. by eapply Hyears.
Qed.

(** The theorem of X13 for the first semester of the freshly opened page. *)
Lemma deleteSemester_and_removeCourse_take_out_one_item_witness :
  years (deleteSemester "1" "1-1" (startup emptyDatabase))
  = [mkYear "1" "Year 1" [mkSemester "1-2" "Semester 2" []]].
Proof.
  exact (proj1 (deleteSemester_and_removeCourse_take_out_one_item
                  (startup emptyDatabase) 0 0 initialYear
                  (mkSemester "1-1" "Semester 1" [])
                  reachable_start eq_refl eq_refl)).
Defined.

(** ** The credits input *)

Lemma parseDigits_stops rest acc :
  endsDigits rest → parseDigits 10 rest acc = acc.
Proof.
  destruct rest as [|c t]; [done|]. unfold endsDigits, isDecimalDigit.
  intros Hc. cbn [parseDigits]. unfold digitValue.
  set (n := N_of_ascii c) in *.
  assert ((48 <=? Z.of_N n) && (Z.of_N n <=? 57) = false) as ->.
  { apply andb_false_iff. apply andb_false_iff in Hc as [Hc|Hc]; [left|right].
    - apply N.leb_gt in Hc. apply Z.leb_gt. lia.
    - apply N.leb_gt in Hc. apply Z.leb_gt. lia. }
  destruct ((97 <=? Z.of_N n) && (Z.of_N n <=? 122)) eqn:Hlower.
  - apply andb_true_iff in Hlower as [Hl%Z.leb_le _].
    assert ((Z.of_N n - 87 <? 10) = false) as -> by (apply Z.ltb_ge; lia). done.
  - destruct ((65 <=? Z.of_N n) && (Z.of_N n <=? 90)) eqn:Hupper; [|done].
    apply andb_true_iff in Hupper as [Hu%Z.leb_le _].
    assert ((Z.of_N n - 55 <? 10) = false) as -> by (apply Z.ltb_ge; lia). done.
Qed.

(** The digits of a positive number start with a digit other than [0]. *)
Lemma pretty_N_go_first x s :
  (0 < x)%N →
  ∃ c t, pretty_N_go x s = String c t ∧ isDigit c ∧ c ≠ "0"%char.
Proof.
  revert s. induction (N.lt_wf_0 x) as [x _ IH]; intros s Hx.
  rewrite pretty_N_go_step by done.
  destruct (decide (x `div` 10 = 0)%N) as [Hz|Hz].
  - rewrite Hz, pretty_N_go_0. eexists _, _. split; [done|].
    pose proof (N.div_mod x 10 ltac:(done)) as Hdm.
    pose proof (N.mod_lt x 10 ltac:(done)) as Hlt.
    set (d := (x `mod` 10)%N) in *.
    assert (d = 1 ∨ d = 2 ∨ d = 3 ∨ d = 4 ∨ d = 5 ∨ d = 6 ∨ d = 7
            ∨ d = 8 ∨ d = 9)%N as Hcases by lia.
    split; [by exists d|].
    repeat (destruct Hcases as [->|Hcases]; [done|]). by rewrite Hcases.
  - apply IH; [apply N.div_lt; lia|by apply N.neq_0_lt_0].
Qed.

(** What [parseInt] does after the sign, on the digits of a positive
    number followed by text that is no digit. *)
Lemma parseInt_digits x rest :
  (0 < x)%N → endsDigits rest →
  trimStart (pretty_N_go x rest) = pretty_N_go x rest
  ∧ match pretty_N_go x rest with
    | String "-" r => (true, r)
    | String "+" r => (false, r)
    | _ => (false, pretty_N_go x rest)
    end = (false, pretty_N_go x rest)
  ∧ match pretty_N_go x rest with
    | String "0" (String "x" r) => (16, r)
    | String "0" (String "X" r) => (16, r)
    | _ => (10, pretty_N_go x rest)
    end = (10, pretty_N_go x rest)
  ∧ parseDigits 10 (pretty_N_go x rest) None = Some (Z.of_N x).
Proof.
  intros Hx Hrest.
  assert (parseDigits 10 (pretty_N_go x rest) None = Some (Z.of_N x)) as Hparse.
  { rewrite parseDigits_pretty, decide_False by lia.
    by apply parseDigits_stops. }
  destruct (pretty_N_go_first x rest Hx) as (c & t & Heq & Hc & Hnz).
  rewrite Heq in *. split_and!; [| | |done]; revert Hnz; by by_digit Hc.
Qed.

(** X14: the credits input reads the whole number its text starts with:
    the decimal text of an integer, negative ones included, followed by
    nothing or by anything that does not start with a digit (a decimal
    point and a fraction, an exponent), gives that integer; only [0x] and
    [0X] are read otherwise, as the prefix of a hexadecimal number.  The
    integer is taken below 2^53 in magnitude, the range in which a number
    of the source holds it exactly. *)
Theorem creditsOfInput_reads_the_leading_integer z rest :
  Z.abs z < 2 ^ 53 → endsDigits rest → (z = 0 → ¬ startsWithX rest) →
  creditsOfInput (toString (Int z) +:+ rest) = z.
Proof.
  intros _ Hrest Hhex. unfold creditsOfInput.
  destruct z as [|p|p].
  - change (toString (Int 0) +:+ rest) with (String "0" rest).
    unfold parseInt.
    change (trimStart (String "0" rest)) with (String "0" rest). cbv iota.
    assert (match rest with
            | String "x" r => (16, r)
            | String "X" r => (16, r)
            | _ => (10, String "0" rest)
            end = (10, String "0" rest)) as Hradix.
    { destruct rest as [|c t]; [done|].
      assert (c ≠ "x"%char ∧ c ≠ "X"%char) as [Hx HX].
      { split; intros ->; apply (Hhex eq_refl); exists t; auto. }
      revert Hx HX. by destruct c as [[] [] [] [] [] [] [] []]. }
    change (match String "0" rest with
            | String "0" (String "x" r) => (16, r)
            | String "0" (String "X" r) => (16, r)
            | _ => (10, String "0" rest)
            end)
      with (match rest with
            | String "x" r => (16, r)
            | String "X" r => (16, r)
            | _ => (10, String "0" rest)
            end).
    rewrite Hradix.
    change (parseDigits 10 (String "0" rest) None)
      with (parseDigits 10 rest (Some 0)).
    by rewrite parseDigits_stops.
  - change (toString (Int (Z.pos p))) with (pretty_N_go (N.pos p) "").
    rewrite pretty_N_go_app. change ("" +:+ rest) with rest.
    destruct (parseInt_digits (N.pos p) rest) as (Htrim & Hsign & Hradix & Hparse);
      [done..|].
    unfold parseInt. rewrite Htrim, Hsign, Hradix, Hparse. done.
  - change (toString (Int (Z.neg p)))
      with (String "-" (pretty_N_go (N.pos p) "")).
    change (String "-" (pretty_N_go (N.pos p) "") +:+ rest)
      with (String "-" (pretty_N_go (N.pos p) "" +:+ rest)).
    rewrite pretty_N_go_app. change ("" +:+ rest) with rest.
    destruct (parseInt_digits (N.pos p) rest) as (Htrim & Hsign & Hradix & Hparse);
      [done..|].
    unfold parseInt.
    change (trimStart (String "-" (pretty_N_go (N.pos p) rest)))
      with (String "-" (pretty_N_go (N.pos p) rest)).
    cbv iota. rewrite Hradix, Hparse. done.
Qed.

(** The theorem of X14 for the text [3.75]. *)
Lemma creditsOfInput_reads_the_leading_integer_witness :
  creditsOfInput "3.75" = 3.
Proof.
  apply (creditsOfInput_reads_the_leading_integer 3 ".75"); [done|done|].
  intros Hz. discriminate Hz.
Defined.

(** ** Grades of the tree *)

Lemma mapM_gen_Forall {T} (Q : T → Prop) (f : T → Gen T) l n :
  (∀ x m, Q x → Q (f x m).1) → Forall Q l → Forall Q (mapM f l n).1.
Proof.
  intros Hf Hl. revert n. induction Hl as [|x l Hx _ IH]; intros n; [done|].
  rewrite mapM_gen_cons. cbn [fst]. apply Forall_cons. split; [by apply Hf|].
  apply IH.
Qed.

Lemma addSemester_year_courses yearId year n :
  yearCourses (addSemester_year yearId year n).1 = yearCourses year.
Proof.
  unfold addSemester_year. case_decide; [|done].
  rewrite gen_bind_apply, gen_ret_apply. unfold yearCourses.
  cbn [fst year_semesters]. rewrite bind_app. cbn. by rewrite app_nil_r.
Qed.

Lemma addCourse_semester_listed semesterId semester n :
  Forall gradeListed (semester_courses semester) →
  Forall gradeListed
    (semester_courses (addCourse_semester semesterId semester n).1).
Proof.
  intros Hall. unfold addCourse_semester. case_decide; [|done].
  rewrite gen_bind_apply, gen_ret_apply. cbn [fst semester_courses].
  apply Forall_app. split; [done|]. apply Forall_singleton. by exists GA.
Qed.

Lemma addCourse_year_listed yearId semesterId year n :
  Forall gradeListed (yearCourses year) →
  Forall gradeListed (yearCourses (addCourse_year yearId semesterId year n).1).
Proof.
  unfold yearCourses. rewrite !Forall_bind. intros Hall.
  unfold addCourse_year. case_decide; [|done].
  rewrite gen_bind_apply, gen_ret_apply. cbn [fst year_semesters].
  apply mapM_gen_Forall; [|done].
  intros semester m. apply addCourse_semester_listed.
Qed.

Lemma Forall_filter_keep {T} (Q P : T → Prop) `{∀ x, Decision (P x)} l :
  Forall Q l → Forall Q (filter P l).
Proof.
  intros Hl. rewrite Forall_forall in *. intros x [_ Hx]%list_elem_of_filter.
  by apply Hl.
Qed.

Lemma updateCourse_years_listed yearId semesterId courseId field value ys :
  (∀ course, gradeListed course → gradeListed (setField course field value)) →
  Forall (Forall gradeListed ∘ yearCourses) ys →
  Forall (Forall gradeListed ∘ yearCourses)
    (updateCourse_years yearId semesterId courseId field value ys).
Proof.
  intros Hset Hall. unfold updateCourse_years. apply Forall_fmap.
  eapply Forall_impl; [done|]. intros year Hyear. cbn [compose] in *.
  case_decide; [|done]. unfold yearCourses in *. cbn [year_semesters].
  rewrite Forall_bind in *. apply Forall_fmap.
  eapply Forall_impl; [done|]. intros semester Hsemester. cbn [compose] in *.
  case_decide; [|done]. cbn [semester_courses]. apply Forall_fmap.
  eapply Forall_impl; [done|]. intros course Hcourse. cbn [compose].
  case_decide; [by apply Hset|done].
Qed.

Lemma gradeListed_handle ev st :
  invariant st →
  Forall gradeListed (allCourses (years st)) →
  Forall gradeListed (allCourses (years (handle ev st))).
Proof.
  intros Hinv. unfold allCourses. fold yearCourses. rewrite !Forall_bind.
  intros Hall. destruct ev; cbn [handle]; try done.
  - unfold addYear. destruct (generateId (nextId st)) as [newYearId n].
    cbn [years set_expandedYears commitYears set_database set_years].
    apply Forall_app. split; [done|]. apply Forall_singleton. by cbn.
  - unfold deleteYear.
    cbn [years set_expandedYears commitYears set_database set_years].
    by apply Forall_filter_keep.
  - unfold addSemester.
    pose proof (mapM_gen_Forall (Forall gradeListed ∘ yearCourses)
                  (addSemester_year yearId) (years st) (nextId st)) as Hmap.
    destruct (mapM (addSemester_year yearId) (years st) (nextId st))
      as [newYears n].
    rewrite years_commitYears. apply Hmap; [|done].
    intros year m Hyear. cbn [compose] in *.
    by rewrite addSemester_year_courses.
  - unfold deleteSemester. rewrite years_commitYears.
    apply Forall_fmap. eapply Forall_impl; [done|].
    intros year Hyear. cbn [compose] in *. case_decide; [|done].
    unfold yearCourses in *. cbn [year_semesters].
    rewrite Forall_bind in *. by apply Forall_filter_keep.
  - unfold addCourse.
    pose proof (mapM_gen_Forall (Forall gradeListed ∘ yearCourses)
                  (addCourse_year yearId semesterId) (years st) (nextId st))
      as Hmap.
    destruct (mapM (addCourse_year yearId semesterId) (years st) (nextId st))
      as [newYears n].
    rewrite years_commitYears. apply Hmap; [|done].
    intros year m Hyear. by apply addCourse_year_listed.
  - unfold updateCourse. rewrite years_commitYears.
    by apply updateCourse_years_listed.
  - unfold updateCourse. rewrite years_commitYears.
    apply updateCourse_years_listed; [|done]. intros course _. by exists option.
  - unfold updateCourse. rewrite years_commitYears.
    by apply updateCourse_years_listed.
  - unfold removeCourse. rewrite years_commitYears.
    apply Forall_fmap. eapply Forall_impl; [done|].
    intros year Hyear. cbn [compose] in *. case_decide; [|done].
    unfold yearCourses in *. cbn [year_semesters].
    rewrite Forall_bind in *. apply Forall_fmap.
    eapply Forall_impl; [done|]. intros semester Hsemester. cbn [compose] in *.
    case_decide; [|done]. cbn [semester_courses].
    by apply Forall_filter_keep.
  - destruct Hinv as (n & Hn & Hpos & Hwf & Hdb).
    destruct (startup_fields _ _ n Hdb Hpos Hwf)
      as [(_ & -> & _)|(_ & Hperm & _)].
    + apply Forall_singleton. by cbn.
    + by rewrite Hperm.
Qed.

(** X15: in every state the page can reach, the grade of every course is
    one of the twelve keys of the grade table, so that the look-up
    [gradePoints[course.grade]] of [calculateGPA] finds a number. *)
Theorem every_grade_is_a_key_of_the_grade_table st course :
  reachable st → course ∈ allCourses (years st) →
  ∃ g, course_grade course = gradeName g
       ∧ gradePoints (course_grade course)
         = Some (Double.of_ratio false (gradeTenths g) 10).
Proof.
  intros Hst Hcourse.
  assert (Forall gradeListed (allCourses (years st))) as Hall.
  { clear Hcourse. induction Hst as [|ev st Hst IH]; [apply Forall_nil_2|].
    apply gradeListed_handle; [by apply reachable_invariant|done]. }
  rewrite Forall_forall in Hall. destruct (Hall course Hcourse) as [g Hg].
  exists g. split; [done|]. rewrite Hg. by destruct g.
Qed.

(** The theorem of X15 for a course just added. *)
Lemma every_grade_is_a_key_of_the_grade_table_witness :
  ∃ g, "A" = gradeName g
       ∧ gradePoints "A" = Some (Double.of_ratio false (gradeTenths g) 10).
Proof.
  apply (every_grade_is_a_key_of_the_grade_table
           (handle (ClickAddCourse "1" "1-2") (startup emptyDatabase))
           (mkCourse "2" "" "A" 3)).
  - apply reachable_handle, reachable_start.
  - by apply list_elem_of_singleton.
Defined.

(** ** What the GPA reads *)

Lemma calculateGPA_marks courses courses' :
  marks <$> courses = marks <$> courses' →
  foldl accumulate (Double.zero, Double.zero) courses
  = foldl accumulate (Double.zero, Double.zero) courses'.
Proof.
  generalize (Double.zero, Double.zero). revert courses'.
  induction courses as [|course courses IH]; intros [|course' courses'] acc Heq;
    try done.
  rewrite !fmap_cons in Heq. apply (inj2 cons) in Heq as [Hmarks Hrest].
  apply (inj2 pair) in Hmarks as [Hgrade Hcredits].
  cbn [foldl]. unfold accumulate at 2 4, coursePoints.
  rewrite Hgrade, Hcredits. by apply IH.
Qed.

Lemma mapM_gen_bind_same {T U} (f : T → Gen T) (g : T → list U) l n :
  (∀ x m, g (f x m).1 = g x) → (mapM f l n).1 ≫= g = l ≫= g.
Proof.
  intros Hf. revert n. induction l as [|x l IH]; intros n; [done|].
  rewrite mapM_gen_cons. cbn [fst]. by rewrite !bind_cons, Hf, IH.
Qed.

Lemma updateCourse_years_marks yearId semesterId courseId field value ys :
  (∀ course, marks (setField course field value) = marks course) →
  marks <$> allCourses
              (updateCourse_years yearId semesterId courseId field value ys)
  = marks <$> allCourses ys.
Proof.
  intros Hset. unfold allCourses, updateCourse_years.
  induction ys as [|year ys IH]; [done|].
  rewrite fmap_cons, !bind_cons, !fmap_app, IH. f_equal.
  case_decide; [|done]. cbn [year_semesters].
  induction (year_semesters year) as [|semester semesters IHs]; [done|].
  rewrite fmap_cons, !bind_cons, !fmap_app, IHs. f_equal.
  case_decide; [|done]. cbn [semester_courses].
  rewrite <-list_fmap_compose. apply list_fmap_ext. intros i course _.
  cbn [compose]. by case_decide.
Qed.

(** X16: [calculateGPA] reads nothing of a course but its grade and its
    credits: two lists that agree on these, course by course, have the same
    GPA. *)
Theorem calculateGPA_reads_grades_and_credits_only courses courses' :
  marks <$> courses = marks <$> courses' →
  calculateGPA courses = calculateGPA courses'.
Proof.
  intros Hmarks. unfold calculateGPA. by rewrite (calculateGPA_marks _ _ Hmarks).
Qed.

(** The theorem of X16 for one course under two ids and names. *)
Lemma calculateGPA_reads_grades_and_credits_only_witness :
  calculateGPA [mkCourse "2" "Algebra" "A" 3]
  = calculateGPA [mkCourse "7" "" "A" 3].
Proof.
  by apply (calculateGPA_reads_grades_and_credits_only
              [mkCourse "2" "Algebra" "A" 3] [mkCourse "7" "" "A" 3]).
Defined.

(** X17: adding a year, adding a semester and renaming a course leave the
    cumulative GPA as it is, from any state. *)
Theorem names_and_empty_containers_change_no_GPA st :
  calculateCumulativeGPA (addYear st) = calculateCumulativeGPA st
  ∧ (∀ yearId,
       calculateCumulativeGPA (addSemester yearId st)
       = calculateCumulativeGPA st)
  ∧ (∀ yearId semesterId courseId text,
       calculateCumulativeGPA
         (updateCourse yearId semesterId courseId Field_name text st)
       = calculateCumulativeGPA st).
Proof.
  unfold calculateCumulativeGPA. split_and!.
  - unfold addYear. destruct (generateId (nextId st)) as [newYearId n].
    cbn [years set_expandedYears commitYears set_database set_years].
    rewrite bind_app. cbn. by rewrite app_nil_r.
  - intros yearId. unfold addSemester.
    pose proof (mapM_gen_bind_same (addSemester_year yearId) yearCourses
                  (years st) (nextId st) (addSemester_year_courses yearId))
      as Hmap.
    destruct (mapM (addSemester_year yearId) (years st) (nextId st))
      as [newYears n].
    rewrite years_commitYears. cbn [fst] in Hmap. unfold yearCourses in Hmap.
    by rewrite Hmap.
  - intros yearId semesterId courseId text. unfold updateCourse.
    rewrite years_commitYears. unfold calculateGPA.
    by rewrite (calculateGPA_marks _ (allCourses (years st)))
      by (by apply updateCourse_years_marks).
Qed.

(** ** The expanded years *)

(** X18: toggling the same year twice restores the state: the set of
    expanded years is the same whether or not the year was in it. *)
Theorem toggleYearExpansion_twice_is_the_identity yearId st :
  toggleYearExpansion yearId (toggleYearExpansion yearId st) = st.
Proof.
  destruct st as [ys expanded n profile editing db].
  unfold toggleYearExpansion, set_expandedYears.
  cbn [expandedYears years nextId userProfile isEditingProfile database].
  f_equal. destruct (decide (yearId ∈ expanded)) as [Hin|Hnotin].
  - rewrite decide_False.
    + symmetry. by apply union_difference_singleton_L.
    + apply not_elem_of_difference. right. by apply elem_of_singleton.
  - rewrite decide_True by (apply elem_of_union; left; by apply elem_of_singleton).
    apply set_eq. intros x.
    rewrite elem_of_difference, elem_of_union, elem_of_singleton. split.
    + intros [[->|Hx] Hne]; done.
    + intros Hx. split; [by right|]. by intros ->.
Qed.

(** ** Products and quotients of integers in doubles

    The product of the doubles of two integers is the double of their
    product, and dividing it by one factor gives back the other, as long as
    the product stays below 2^53. *)

Lemma digits_mul p q :
  Double.digits p + Double.digits q - 1 ≤ Double.digits (p * q)
  ∧ Double.digits (p * q) ≤ Double.digits p + Double.digits q.
Proof.
  pose proof (digits_bounds p) as [Hp1 Hp2].
  pose proof (digits_bounds q) as [Hq1 Hq2].
  pose proof (digits_bounds (p * q)) as [Hr1 Hr2].
  pose proof (digits_pos p). pose proof (digits_pos q).
  pose proof (digits_pos (p * q)).
  rewrite Pos2Z.inj_mul in Hr1, Hr2.
  set (dp := Double.digits p) in *. set (dq := Double.digits q) in *.
  set (dr := Double.digits (p * q)) in *.
  assert (2 ^ (dp - 1 + (dq - 1)) ≤ Z.pos p * Z.pos q) as Hlo.
  { rewrite Z.pow_add_r by lia. nia. }
  assert (Z.pos p * Z.pos q < 2 ^ (dp + dq)) as Hhi.
  { rewrite Z.pow_add_r by lia. nia. }
  split.
  - destruct (Z.le_gt_cases (dp + dq - 1) dr) as [|Hgt]; [done|].
    assert (2 ^ dr ≤ 2 ^ (dp - 1 + (dq - 1))) by (apply Z.pow_le_mono_r; lia).
    lia.
  - destruct (Z.le_gt_cases dr (dp + dq)) as [|Hgt]; [done|].
    assert (2 ^ (dp + dq) ≤ 2 ^ (dr - 1)) by (apply Z.pow_le_mono_r; lia).
    lia.
Qed.

Lemma canonical_mantissa_digits p :
  Z.pos p < 2 ^ 53 →
  Double.digits (Z.to_pos (Z.pos p * 2 ^ (53 - Double.digits p))) = 53.
Proof.
  intros Hp. pose proof (digits_le_53 p Hp). pose proof (digits_pos p).
  rewrite (digits_shift p _ (53 - Double.digits p)); [lia|lia|].
  by apply canonical_mantissa_value.
Qed.

Lemma factors_below p q :
  Z.pos (p * q) < 2 ^ 53 → Z.pos p < 2 ^ 53 ∧ Z.pos q < 2 ^ 53.
Proof. rewrite Pos2Z.inj_mul. nia. Qed.

Lemma mul_canonical sa sb p q :
  Z.pos (p * q) < 2 ^ 53 →
  Double.mul (Double.canonical sa p) (Double.canonical sb q)
  = Double.canonical (xorb sa sb) (p * q).
Proof.
  intros Hr. destruct (factors_below p q Hr) as [Hp Hq].
  pose proof (digits_mul p q) as [Hlo Hhi].
  pose proof (digits_le_53 _ Hp). pose proof (digits_le_53 _ Hq).
  pose proof (digits_le_53 _ Hr).
  pose proof (digits_pos p). pose proof (digits_pos q).
  pose proof (digits_pos (p * q)).
  unfold Double.mul, Double.canonical, SFmul.
  set (dp := Double.digits p) in *. set (dq := Double.digits q) in *.
  set (dr := Double.digits (p * q)) in *.
  replace (dr - 53) with (dp - 53 + (dq - 53) + (53 - dp - dq + dr)) by lia.
  apply binary_round_aux_exact; [lia| |by apply canonical_mantissa_digits|lia].
  rewrite Pos2Z.inj_mul.
  unfold dp, dq, dr. rewrite !canonical_mantissa_value by done.
  fold dp dq dr. rewrite Pos2Z.inj_mul.
  assert (2 ^ (53 - dp) * 2 ^ (53 - dq)
          = 2 ^ (53 - dr) * 2 ^ (53 - dp - dq + dr)) as Hpow.
  { rewrite <-!Z.pow_add_r by lia. f_equal. lia. }
  transitivity (Z.pos p * Z.pos q * (2 ^ (53 - dp) * 2 ^ (53 - dq))); [ring|].
  rewrite Hpow. ring.
Qed.

Lemma div_canonical sa sb p q :
  Z.pos (p * q) < 2 ^ 53 →
  Double.div (Double.canonical sa (p * q)) (Double.canonical sb q)
  = Double.canonical (xorb sa sb) p.
Proof.
  intros Hr. destruct (factors_below p q Hr) as [Hp Hq].
  pose proof (digits_mul p q) as [Hlo Hhi].
  pose proof (digits_le_53 _ Hp). pose proof (digits_le_53 _ Hq).
  pose proof (digits_le_53 _ Hr).
  pose proof (digits_pos p). pose proof (digits_pos q).
  pose proof (digits_pos (p * q)).
  pose proof (canonical_mantissa_value _ Hp) as Hmp.
  pose proof (canonical_mantissa_value _ Hq) as Hmq.
  pose proof (canonical_mantissa_value _ Hr) as Hmr.
  pose proof (canonical_mantissa_digits _ Hp) as Hdp.
  pose proof (canonical_mantissa_digits _ Hq) as Hdq.
  pose proof (canonical_mantissa_digits _ Hr) as Hdr.
  unfold Double.div, Double.canonical, SFdiv, SFdiv_core_binary.
  set (dp := Double.digits p) in *. set (dq := Double.digits q) in *.
  set (dr := Double.digits (p * q)) in *.
  set (mp := Z.to_pos (Z.pos p * 2 ^ (53 - dp))) in *.
  set (mq := Z.to_pos (Z.pos q * 2 ^ (53 - dq))) in *.
  set (mr := Z.to_pos (Z.pos (p * q) * 2 ^ (53 - dr))) in *.
  change (Zdigits2 (Z.pos mr)) with (Double.digits mr).
  change (Zdigits2 (Z.pos mq)) with (Double.digits mq).
  rewrite Hdr, Hdq.
  assert (Z.min (fexp Double.prec Double.emax (53 + (dr - 53) - (53 + (dq - 53))))
            (dr - 53 - (dq - 53)) = dr - dq - 53) as ->.
  { unfold fexp, emin, Double.prec, Double.emax. lia. }
  replace (dr - 53 - (dq - 53) - (dr - dq - 53)) with 53 by lia.
  rewrite Z.shiftl_mul_pow2 by lia.
  assert (Z.pos mr * 2 ^ 53 = Z.pos p * 2 ^ (53 - dr + dq) * Z.pos mq) as Hquot.
  { rewrite Hmr, Hmq, Pos2Z.inj_mul.
    assert (2 ^ (53 - dr) * 2 ^ 53 = 2 ^ (53 - dr + dq) * 2 ^ (53 - dq))
      as Hpow by (rewrite <-!Z.pow_add_r by lia; f_equal; lia).
    transitivity (Z.pos p * Z.pos q * (2 ^ (53 - dr) * 2 ^ 53)); [ring|].
    rewrite Hpow. ring. }
  rewrite Hquot.
  rewrite (surjective_pairing (Z.div_eucl _ _)).
  change (Z.div_eucl ?a ?b).1 with (a / b).
  change (Z.div_eucl ?a ?b).2 with (a `mod` b).
  rewrite Z.div_mul, Z.mod_mul by done.
  assert (new_location (Z.pos mq) 0 = loc_Exact) as ->.
  { unfold new_location. by destruct (Z.even _). }
  assert (0 < 2 ^ (53 - dr + dq)) as Hpow by (apply Z.pow_pos_nonneg; lia).
  destruct (Z.pos p * 2 ^ (53 - dr + dq)) as [|m|m] eqn:Hm; [lia| |lia].
  replace (dp - 53) with (dr - dq - 53 + (dq - dr + dp)) by lia.
  apply binary_round_aux_exact; [lia| |done|lia].
  rewrite Hmp, <-Hm, <-Z.mul_assoc. f_equal. rewrite <-Z.pow_add_r by lia.
  f_equal. lia.
Qed.

Lemma mul_of_Z_pos a b :
  0 ≤ a → 0 < b < 2 ^ 53 → a * b < 2 ^ 53 →
  Double.mul (Double.of_Z a) (Double.of_Z b) = Double.of_Z (a * b).
Proof.
  intros Ha Hb Hab. destruct b as [|q|q]; [lia| |lia].
  destruct a as [|p|p]; [|clear Ha|lia].
  - rewrite of_Z_pos by lia. done.
  - change (Z.pos p * Z.pos q) with (Z.pos (p * q)) in *.
    destruct (factors_below p q Hab) as [Hp Hq].
    rewrite !of_Z_pos by done. by apply (mul_canonical false false).
Qed.

Lemma div_of_Z_pos a b :
  0 ≤ a → 0 < b < 2 ^ 53 → a * b < 2 ^ 53 →
  Double.div (Double.of_Z (a * b)) (Double.of_Z b) = Double.of_Z a.
Proof.
  intros Ha Hb Hab. destruct b as [|q|q]; [lia| |lia].
  destruct a as [|p|p]; [|clear Ha|lia].
  - rewrite of_Z_pos by lia. done.
  - change (Z.pos p * Z.pos q) with (Z.pos (p * q)) in *.
    destruct (factors_below p q Hab) as [Hp Hq].
    rewrite !of_Z_pos by done. by apply (div_canonical false false).
Qed.

(** ** Courses that all carry one grade *)

Lemma wholeGrade_points g :
  wholeGrade g →
  gradePoints (gradeName g) = Some (Double.of_Z (gradeTenths g / 10))
  ∧ 0 ≤ gradeTenths g / 10 ≤ 4
  ∧ Double.parseFloat (Double.toFixed2 (Double.of_Z (gradeTenths g / 10)))
    = Double.of_Z (gradeTenths g / 10).
Proof.
  unfold wholeGrade. destruct g; intros Hg; try discriminate Hg;
    (split; [by vm_compute|]); (split; [by vm_compute|by vm_compute]).
Qed.

Lemma sumCredits_positive courses :
  courses ≠ [] → Forall (λ course, 0 < course_credits course) courses →
  0 < sumCredits courses ∧ sumAbsCredits courses = sumCredits courses.
Proof.
  intros Hne Hpos. induction Hpos as [|course courses Hc Hcs IH]; [done|].
  change (sumAbsCredits (course :: courses))
    with (Z.abs (course_credits course) + sumAbsCredits courses).
  change (sumCredits (course :: courses))
    with (course_credits course + sumCredits courses).
  destruct courses as [|course' courses].
  - change (sumCredits []) with 0. change (sumAbsCredits []) with 0. lia.
  - destruct IH as [IH1 IH2]; [done|]. lia.
Qed.

Lemma totalPoints_one_grade v courses z :
  0 ≤ v → 0 ≤ z →
  Forall (λ course, gradePoints (course_grade course) = Some (Double.of_Z v)
                    ∧ 0 < course_credits course) courses →
  z + v * sumCredits courses < 2 ^ 53 → sumCredits courses < 2 ^ 53 →
  foldl (λ acc course, Double.add acc (coursePoints course)) (Double.of_Z z)
    courses
  = Double.of_Z (z + v * sumCredits courses).
Proof.
  intros Hv Hz Hall. revert z Hz.
  induction Hall as [|course courses [Hg Hc] Hcs IH]; intros z Hz Hbound Hsum.
  - change (sumCredits []) with 0. cbn [foldl]. f_equal. lia.
  - change (sumCredits (course :: courses))
      with (course_credits course + sumCredits courses) in *.
    assert (0 ≤ sumCredits courses) as Hrest.
    { destruct courses as [|c cs]; [done|].
      apply Z.lt_le_incl, (sumCredits_positive (c :: cs)); [done|].
      eapply Forall_impl; [done|]. by intros ? [_ ?]. }
    cbn [foldl]. unfold coursePoints at 2. rewrite Hg.
    rewrite mul_of_Z_pos by nia. rewrite add_of_Z by nia.
    rewrite IH by nia. f_equal. lia.
Qed.

(** X19: for courses that all carry the same grade, one whose points are a
    whole number (A, B, C, D or F), with positive credits that sum to less
    than 2^51, [calculateGPA] returns exactly the points of that grade: no
    rounding error enters the products, the sums, the quotient or the
    rounding to two decimals. *)
Theorem calculateGPA_of_one_whole_grade g courses :
  wholeGrade g → courses ≠ [] →
  Forall (λ course, course_grade course = gradeName g
                    ∧ 0 < course_credits course) courses →
  4 * sumCredits courses < 2 ^ 53 →
  calculateGPA courses = Double.of_Z (gradeTenths g / 10).
Proof.
  intros Hg Hne Hall Hbound.
  destruct (wholeGrade_points g Hg) as (Hpoints & Hv & Hfixed).
  destruct (sumCredits_positive courses Hne) as [Hpos Habs].
  { eapply Forall_impl; [done|]. by intros ? [_ ?]. }
  set (v := gradeTenths g / 10) in *.
  unfold calculateGPA. rewrite foldl_accumulate. cbn [fst snd].
  pose proof (totalCredits_exact courses 0) as Hcredits.
  change (Double.of_Z 0) with Double.zero in Hcredits.
  rewrite Hcredits, Z.add_0_l by (cbn [Z.abs]; lia).
  pose proof (totalPoints_one_grade v courses 0) as Htotal.
  change (Double.of_Z 0) with Double.zero in Htotal.
  rewrite Htotal, Z.add_0_l; [|lia|done| |nia|lia].
  - rewrite gt_of_Z by lia.
    assert ((0 <? sumCredits courses) = true) as -> by (apply Z.ltb_lt; lia).
    rewrite div_of_Z_pos by nia. done.
  - eapply Forall_impl; [done|]. intros course [-> ?]. done.
Qed.

(** The theorem of X19 for two courses graded A. *)
Lemma calculateGPA_of_one_whole_grade_witness :
  calculateGPA straightAs = Double.of_Z 4.
Proof.
  apply (calculateGPA_of_one_whole_grade GA straightAs); [done|done| |done].
  repeat constructor.
Defined.

(** ** The cumulative GPA across a reload *)

(** X20: a reload can change the cumulative GPA shown.  After a session that
    leaves an A and an A- of one credit each in year 2 and a C- of two
    credits in year 10, the page shows 2.77; reloaded, it lists year 10
    before year 2, adds the points in that order and shows 2.78. *)
Theorem reload_can_change_the_cumulative_GPA :
  reachable (run tenYearsSession (startup emptyDatabase))
  ∧ year_id <$> years (run tenYearsSession (startup emptyDatabase))
    = ["1"; "2"; "10"]
  ∧ allCourses (years (run tenYearsSession (startup emptyDatabase)))
    = [mkCourse "11" "" "A" 1; mkCourse "12" "" "A-" 1;
       mkCourse "13" "" "C-" 2]
  ∧ calculateCumulativeGPA (run tenYearsSession (startup emptyDatabase))
    = Double.of_ratio false 277 100
  ∧ year_id <$> years (handle Reload (run tenYearsSession (startup emptyDatabase)))
    = ["1"; "10"; "2"]
  ∧ calculateCumulativeGPA
      (handle Reload (run tenYearsSession (startup emptyDatabase)))
    = Double.of_ratio false 278 100.
Proof.
  split; [apply reachable_run, reachable_start|].
  by vm_compute.
Qed.

(** ** The saved profile *)

Lemma userProfileStore_handle ev st :
  ¬ writesProfile ev →
  userProfileStore (database (handle ev st)) = userProfileStore (database st).
Proof.
  intros Hev. destruct ev; cbn [handle]; try done;
    try (cbn; by apply userProfileStore_saveData).
  - unfold addSemester.
    destruct (mapM (addSemester_year yearId) (years st) (nextId st)). cbn.
    apply userProfileStore_saveData.
  - unfold addCourse.
    destruct (mapM (addCourse_year yearId semesterId) (years st) (nextId st)).
    cbn. apply userProfileStore_saveData.
  - apply userProfileStore_startup.
Qed.

Lemma userProfileStore_run evs st :
  Forall (λ ev, ¬ writesProfile ev) evs →
  userProfileStore (database (run evs st)) = userProfileStore (database st).
Proof.
  intros Hevs. revert st. induction Hevs as [|ev evs Hev _ IH]; intros st; [done|].
  change (run (ev :: evs) st) with (run evs (handle ev st)).
  by rewrite IH, userProfileStore_handle.
Qed.

Lemma userProfile_startup db r :
  userProfileStore db !! "user" = Some r →
  userProfile (startup db) = record_profile r.
Proof.
  intros Hr. unfold startup, loadData. cbn [database initialState].
  rewrite Hr. by destruct (getAll (yearsStore db)).
Qed.

(** X21: the profile saved by the Save action is the profile a reload
    shows, whatever has happened in between, reloads and unsaved edits of
    the profile included, as long as the profile was not saved or deleted
    again; after the Delete action it is the empty profile. *)
Theorem saved_profile_survives_later_events st evs :
  Forall (λ ev, ¬ writesProfile ev) evs →
  userProfile (handle Reload (run evs (handleSaveProfile st))) = userProfile st
  ∧ userProfile (handle Reload (run evs (handleDeleteProfile st)))
    = emptyProfile.
Proof.
  intros Hevs. cbn [handle]. split.
  - rewrite (userProfile_startup _ (mkProfileRecord (userProfile st) "user"));
      [done|].
    rewrite userProfileStore_run by done. apply lookup_insert_eq.
  - rewrite (userProfile_startup _ (mkProfileRecord emptyProfile "user"));
      [done|].
    rewrite userProfileStore_run by done. apply lookup_insert_eq.
Qed.

(** The theorem of X21 for a name saved and then edited without saving. *)
Lemma saved_profile_survives_later_events_witness :
  userProfile
    (handle Reload
       (run [ChangeProfile Profile_name "draft"; ClickAddYear; Reload]
          (handleSaveProfile
             (handleProfileChange Profile_name "Ada" (startup emptyDatabase)))))
  = mkUserProfile "Ada" "" "" "".
Proof.
  apply (saved_profile_survives_later_events
           (handleProfileChange Profile_name "Ada" (startup emptyDatabase))
           [ChangeProfile Profile_name "draft"; ClickAddYear; Reload]).
  repeat constructor; by intros [].
Defined.

(** ** Ids within a session *)

(** A handler other than a reload moves the counter up, if at all, and
    every id of the tree it leaves was in the tree or has been issued on
    the way. *)
Lemma ids_handle ev st n :
  ev ≠ Reload → invariant st → nextId st = Int n →
  ∃ n', n ≤ n' ∧ nextId (handle ev st) = Int n'
        ∧ ∀ x, x ∈ treeIds (years (handle ev st)) →
               x ∈ treeIds (years st) ∨ issuedBetween n n' x.
Proof.
  intros Hev Hinv Hn.
  assert (∀ st', nextId st' = nextId st →
                 treeIds (years st') `sublist_of` treeIds (years st) →
            ∃ n', n ≤ n' ∧ nextId st' = Int n'
                  ∧ ∀ x, x ∈ treeIds (years st') →
                         x ∈ treeIds (years st) ∨ issuedBetween n n' x)
    as Hshrink.
  { intros st' Hn' Hsub. exists n. split_and!; [lia|congruence|].
    intros x Hx. left. by eapply elem_of_sublist. }
  assert (∀ (f : Year → Gen Year), grows yearIds f →
            ∃ n', n ≤ n'
                  ∧ nextId (commitYears (mapM f (years st) (nextId st)).1
                              (set_nextId (mapM f (years st) (nextId st)).2 st))
                    = Int n'
                  ∧ ∀ x, x ∈ treeIds (mapM f (years st) (nextId st)).1 →
                         x ∈ treeIds (years st) ∨ issuedBetween n n' x)
    as Hgrow.
  { intros f Hf. rewrite Hn.
    destruct (mapM_grows _ _ Hf (years st) n) as (n' & Hle & Hn' & Hids).
    exists n'. split_and!; [done|done|].
    intros x Hx. unfold treeIds in Hx. rewrite Hids in Hx.
    apply elem_of_app in Hx as [Hx|(k & Hk & ->)%elem_of_newIds]; [by left|].
    right. by exists k, Plain. }
  destruct ev; cbn [handle]; try done;
    try (apply Hshrink; [done|]; cbn [years]; done).
  - exists (n + 1). unfold addYear. rewrite Hn, generateId_Int.
    cbn [years nextId set_expandedYears commitYears set_database set_years
           set_nextId].
    split_and!; [lia|done|]. intros x Hx. unfold treeIds in Hx.
    rewrite bind_app in Hx. apply elem_of_app in Hx as [Hx|Hx]; [by left|].
    right. cbn in Hx.
    change [pretty (n + 1); pretty (n + 1) +:+ "-1"; pretty (n + 1) +:+ "-2"]
      with [mkId (n + 1) Plain; mkId (n + 1) Dash1; mkId (n + 1) Dash2] in Hx.
    repeat (apply elem_of_cons in Hx as [->|Hx];
            [eexists _, _; split; [|done]; lia|]).
    by apply elem_of_nil in Hx.
  - apply Hshrink; [done|]. unfold deleteYear.
    cbn [years set_expandedYears commitYears set_database set_years].
    apply bind_sublist, sublist_filter.
  - destruct (Hgrow _ (addSemester_year_grows yearId)) as (n' & ? & ? & ?).
    exists n'. unfold addSemester.
    by destruct (mapM (addSemester_year yearId) (years st) (nextId st)).
  - apply Hshrink; [done|]. unfold deleteSemester. rewrite years_commitYears.
    apply bind_fmap_sublist. intros year. case_decide; [|done].
    unfold yearIds. cbn. apply sublist_skip, bind_sublist, sublist_filter.
  - destruct (Hgrow _ (addCourse_year_grows yearId semesterId))
      as (n' & ? & ? & ?).
    exists n'. unfold addCourse.
    by destruct (mapM (addCourse_year yearId semesterId) (years st) (nextId st)).
  - apply Hshrink; [done|]. unfold updateCourse. rewrite years_commitYears.
    by rewrite updateCourse_years_ids.
  - apply Hshrink; [done|]. unfold updateCourse. rewrite years_commitYears.
    by rewrite updateCourse_years_ids.
  - apply Hshrink; [done|]. unfold updateCourse. rewrite years_commitYears.
    by rewrite updateCourse_years_ids.
  - apply Hshrink; [done|]. unfold removeCourse. rewrite years_commitYears.
    apply bind_fmap_sublist. intros year. case_decide; [|done].
    unfold yearIds. cbn. apply sublist_skip.
    apply bind_fmap_sublist. intros semester. case_decide; [|done].
    unfold semesterIds. cbn. apply sublist_skip, fmap_sublist, sublist_filter.
Qed.

Lemma ids_run evs st n :
  Forall (λ ev, ev ≠ Reload) evs → invariant st → nextId st = Int n →
  ∃ n', n ≤ n' ∧ nextId (run evs st) = Int n'
        ∧ ∀ x, x ∈ treeIds (years (run evs st)) →
               x ∈ treeIds (years st) ∨ issuedBetween n n' x.
Proof.
  intros Hevs. revert st n.
  induction Hevs as [|ev evs Hev _ IH]; intros st n Hinv Hn.
  - exists n. split_and!; [lia|done|]. intros x Hx. by left.
  - change (run (ev :: evs) st) with (run evs (handle ev st)).
    destruct (ids_handle ev st n Hev Hinv Hn) as (n1 & Hle1 & Hn1 & Hids1).
    destruct (IH (handle ev st) n1 (invariant_handle ev st Hinv) Hn1)
      as (n2 & Hle2 & Hn2 & Hids2).
    exists n2. split_and!; [lia|done|]. intros x Hx.
    destruct (Hids2 x Hx) as [Hx1|(k & f & Hk & ->)].
    + destruct (Hids1 x Hx1) as [?|(k & f & Hk & ->)]; [by left|].
      right. exists k, f. split; [lia|done].
    + right. exists k, f. split; [lia|done].
Qed.

(** X22: within a session, that is, as long as the page is not reloaded,
    an id that has left the tree does not come back: no year, semester or
    course added later gets the id of one deleted before. *)
Theorem deleted_ids_do_not_come_back st evs evs' x :
  reachable st →
  Forall (λ ev, ev ≠ Reload) evs → Forall (λ ev, ev ≠ Reload) evs' →
  x ∈ treeIds (years st) →
  x ∉ treeIds (years (run evs st)) →
  x ∉ treeIds (years (run evs' (run evs st))).
Proof.
  intros Hst Hevs Hevs' Hx Hgone Hback.
  pose proof (reachable_invariant st Hst) as Hinv.
  pose proof Hinv as (n & Hn & Hpos & [_ Hissued] & _).
  destruct (ids_run evs st n Hevs Hinv Hn) as (n1 & Hle1 & Hn1 & _).
  assert (invariant (run evs st)) as Hinv1
    by (by apply reachable_invariant, reachable_run).
  destruct (ids_run evs' (run evs st) n1 Hevs' Hinv1 Hn1)
    as (n2 & Hle2 & Hn2 & Hids).
  destruct (Hids x Hback) as [?|(k & f & Hk & Heq)]; [done|].
  rewrite Forall_forall in Hissued.
  destruct (Hissued x Hx) as (k' & f' & Hk' & ->).
  apply mkId_inj in Heq as [? _]; lia.
Qed.

(** The theorem of X22 for the first semester of the seeded year. *)
Lemma deleted_ids_do_not_come_back_witness :
  "1-1" ∉ treeIds (years (run [ClickAddSemester "1"; ClickAddYear]
                        (run [ClickDeleteSemester "1" "1-1"]
                           (startup emptyDatabase)))).
Proof.
  apply (deleted_ids_do_not_come_back (startup emptyDatabase)
           [ClickDeleteSemester "1" "1-1"] [ClickAddSemester "1"; ClickAddYear]
           "1-1" reachable_start).
  - by repeat constructor.
  - by repeat constructor.
  - apply elem_of_cons. right. apply elem_of_cons. by left.
  - intros Hin. repeat (apply elem_of_cons in Hin as [Hin|Hin]; [done|]).
    by apply elem_of_nil in Hin.
Defined.

(** * The GPA as the rounded weighted average

    [calculateGPA] computes in doubles.  Every product, sum and quotient of
    positive doubles is within 2^-53 of the exact one, relatively; the
    errors add up to less than the distance between the exact average and
    the nearest point at which its rounding to hundredths changes, unless
    the average sits on such a point. *)

(** ** Rounding to 53 bits *)

Lemma inject_Z_xO p : (inject_Z (Z.pos p~0) == 2 * inject_Z (Z.pos p))%Q.
Proof. rewrite Pos2Z.inj_xO, inject_Z_mult. reflexivity. Qed.

Lemma inject_Z_xI p : (inject_Z (Z.pos p~1) == 2 * inject_Z (Z.pos p) + 1)%Q.
Proof. rewrite Pos2Z.inj_xI, inject_Z_plus, inject_Z_mult. reflexivity. Qed.

Lemma located_shr_1 mrs y z :
  (y == 2 * z)%Q → located mrs y → located (shr_1 mrs) z.
Proof.
  destruct mrs as [m r s]. intros Hy [Hm Hloc]. cbn [shr_m shr_r shr_s] in *.
  destruct m as [|p|p]; [| |lia].
  - split; [done|]. destruct r, s; cbn [shr_1 shr_m shr_r shr_s orb] in *;
      change (inject_Z 0) with 0%Q in *; lra.
  - destruct p as [p|p|]; (split; [cbn; lia|]);
      destruct r, s; cbn [shr_1 shr_m shr_r shr_s orb] in *;
      rewrite ?inject_Z_xO, ?inject_Z_xI in Hloc;
      change (inject_Z 1) with 1%Q in *; change (inject_Z 0) with 0%Q in *; lra.
Qed.

Lemma located_iter n mrs y z :
  (y == z * inject_Z (2 ^ Z.of_nat n))%Q → located mrs y →
  located (Nat.iter n shr_1 mrs) z.
Proof.
  revert z. induction n as [|n IH]; intros z Hy Hloc.
  - change (inject_Z (2 ^ Z.of_nat 0)) with 1%Q in Hy.
    change (Nat.iter 0 shr_1 mrs) with mrs.
    destruct mrs as [m [] []], Hloc as [Hm Hloc]; (split; [done|]);
      cbn [shr_m shr_r shr_s] in *; lra.
  - change (Nat.iter (S n) shr_1 mrs) with (shr_1 (Nat.iter n shr_1 mrs)).
    apply (located_shr_1 _ (2 * z)); [reflexivity|].
    apply IH; [|done]. rewrite Hy, Nat2Z.inj_succ, Z.pow_succ_r by lia.
    rewrite inject_Z_mult. change (inject_Z 2) with 2%Q. ring.
Qed.

Lemma shr_located mrs e n y z :
  0 ≤ n → (y == z * inject_Z (2 ^ n))%Q → located mrs y →
  ∃ mrs', shr mrs e n = (mrs', e + n) ∧ located mrs' z.
Proof.
  intros Hn Hy Hloc. destruct n as [|p|p]; [| |lia].
  - exists mrs. rewrite Z.add_0_r. split; [done|].
    apply (located_iter 0 mrs y z); done.
  - exists (Nat.iter (Pos.to_nat p) shr_1 mrs). unfold shr.
    rewrite iter_pos_nat. split; [done|].
    apply (located_iter _ mrs y z); [|done]. by rewrite positive_nat_Z.
Qed.

(** Rounding to nearest, ties to even, moves a located number by at most
    a half, to its integer part or the next integer. *)
Lemma round_nearest_even_located mrs z :
  located mrs z →
  (round_nearest_even (shr_m mrs) (loc_of_shr_record mrs) = shr_m mrs
   ∨ round_nearest_even (shr_m mrs) (loc_of_shr_record mrs) = shr_m mrs + 1)
  ∧ (inject_Z (shr_m mrs) <= z)%Q ∧ (z < inject_Z (shr_m mrs) + 1)%Q
  ∧ (- (1 # 2)
     <= inject_Z (round_nearest_even (shr_m mrs) (loc_of_shr_record mrs)) - z)%Q
  ∧ (inject_Z (round_nearest_even (shr_m mrs) (loc_of_shr_record mrs)) - z
     <= 1 # 2)%Q.
Proof.
  destruct mrs as [m r s]. intros [Hm Hloc]. cbn [shr_m shr_r shr_s] in *.
  destruct r, s; cbn [loc_of_shr_record round_nearest_even];
    try destruct (Z.even m);
    rewrite ?inject_Z_plus; change (inject_Z 1) with 1%Q;
    (split; [auto|]); lra.
Qed.

Lemma located_of_loc m l y :
  located (shr_record_of_loc (Z.pos m) l) y →
  (inject_Z (Z.pos m) <= y)%Q ∧ (y < inject_Z (Z.pos m) + 1)%Q.
Proof.
  intros [_ Hloc]. destruct l as [|[]]; cbn [shr_record_of_loc shr_m shr_r shr_s] in Hloc; lra.
Qed.

Lemma inject_Z_pow2_pos n : 0 ≤ n → (0 < inject_Z (2 ^ n))%Q.
Proof.
  intros Hn. change 0%Q with (inject_Z 0). rewrite <-Zlt_Qlt.
  apply Z.pow_pos_nonneg; lia.
Qed.

(** Rounding a number that has at least 53 bits before the point, given by
    its integer part [m] and the place of the rest: the result is a
    53-bit mantissa [m'] with exponent moved up by [k], within 2^-53 of the
    number, relatively. *)
Lemma binary_round_aux_near sx m e l y :
  located (shr_record_of_loc (Z.pos m) l) y →
  53 ≤ Double.digits m → -1074 ≤ e → Double.digits m + e ≤ 1000 →
  ∃ m' k,
    binary_round_aux Double.prec Double.emax sx (Z.pos m) e l
    = S754_finite sx m' (e + k)
    ∧ Double.digits m' = 53
    ∧ Double.digits m - 53 ≤ k ≤ Double.digits m - 52
    ∧ (- (unitRoundoff * y) <= inject_Z (Z.pos m' * 2 ^ k) - y)%Q
    ∧ (inject_Z (Z.pos m' * 2 ^ k) - y <= unitRoundoff * y)%Q.
Proof.
  intros Hloc Hd He Hmag.
  destruct (located_of_loc m l y Hloc) as [Hylo Hyhi].
  pose proof (digits_bounds m) as [Hmlo Hmhi].
  set (d := Double.digits m) in *. set (n := d - 53).
  assert (0 ≤ n) as Hn by (unfold n; lia).
  pose proof (inject_Z_pow2_pos n Hn) as HP.
  set (P := inject_Z (2 ^ n)) in *.
  assert (inject_Z (2 ^ 52) * P <= inject_Z (Z.pos m))%Q as Hmlo'.
  { unfold P. rewrite <-inject_Z_mult, <-Zle_Qle, <-Z.pow_add_r by lia.
    replace (52 + n) with (d - 1) by (unfold n; lia). done. }
  assert (inject_Z (Z.pos m) + 1 <= inject_Z (2 ^ 53) * P)%Q as Hmhi'.
  { unfold P. change 1%Q with (inject_Z 1).
    rewrite <-inject_Z_mult, <-inject_Z_plus, <-Zle_Qle, <-Z.pow_add_r by lia.
    replace (53 + n) with d by (unfold n; lia). lia. }
  set (z := (y / P)%Q).
  assert (y == z * P)%Q as Hz by (unfold z; field; lra).
  unfold binary_round_aux, shr_fexp.
  change (Zdigits2 (Z.pos m)) with d.
  assert (fexp Double.prec Double.emax (d + e) - e = n) as ->.
  { unfold fexp, emin, Double.prec, Double.emax, n. lia. }
  destruct (shr_located _ e n y z Hn Hz Hloc) as (mrs' & -> & Hloc').
  destruct (round_nearest_even_located mrs' z Hloc')
    as (Hm1 & Hlo & Hhi & He1 & He2).
  set (mn := shr_m mrs') in *.
  set (m1 := round_nearest_even mn (loc_of_shr_record mrs')) in *.
  assert (inject_Z (2 ^ 52) <= z)%Q as Hzlo.
  { apply (Qmult_le_r _ _ P); [done|]. lra. }
  assert (z < inject_Z (2 ^ 53))%Q as Hzhi.
  { apply (Qmult_lt_r _ _ P); [done|]. lra. }
  assert (2 ^ 52 ≤ mn < 2 ^ 53) as Hmn.
  { split.
    - assert (inject_Z (2 ^ 52) < inject_Z (mn + 1))%Q as H.
      { rewrite inject_Z_plus. change (inject_Z 1) with 1%Q. lra. }
      rewrite <-Zlt_Qlt in H. lia.
    - assert (inject_Z mn < inject_Z (2 ^ 53))%Q as H by lra.
      by rewrite <-Zlt_Qlt in H. }
  assert (2 ^ 52 ≤ m1 ≤ 2 ^ 53) as Hm1' by (destruct Hm1 as [-> | ->]; lia).
  assert (- (unitRoundoff * y) <= inject_Z (m1 * 2 ^ n) - y
          ∧ inject_Z (m1 * 2 ^ n) - y <= unitRoundoff * y)%Q as Herr.
  { rewrite inject_Z_mult. fold P.
    assert (inject_Z m1 * P - y == (inject_Z m1 - z) * P)%Q as ->
      by (rewrite Hz; ring).
    assert ((1 # 2) * P <= unitRoundoff * y)%Q as Hhalf.
    { assert (unitRoundoff * (inject_Z (2 ^ 52) * P) == (1 # 2) * P)%Q as <-.
      { assert (unitRoundoff * inject_Z (2 ^ 52) == 1 # 2)%Q as H by done.
        rewrite Qmult_assoc, H. reflexivity. }
      apply Qmult_le_l; [done|]. lra. }
    assert (- ((1 # 2) * P) <= (inject_Z m1 - z) * P)%Q.
    { assert (- ((1 # 2) * P) == (- (1 # 2)) * P)%Q as -> by ring.
      apply Qmult_le_r; [done|]. lra. }
    assert ((inject_Z m1 - z) * P <= (1 # 2) * P)%Q.
    { apply Qmult_le_r; [done|]. lra. }
    split; lra. }
  destruct m1 as [|q1|q1] eqn:Hq1; [lia| |lia].
  destruct (decide (Z.pos q1 < 2 ^ 53)) as [Hlt|Hge].
  - assert (Double.digits q1 = 53) as Hdq by (apply digits_unique; lia).
    exists q1, n. change (Zdigits2 (Z.pos q1)) with (Double.digits q1).
    rewrite Hdq.
    assert (fexp Double.prec Double.emax (53 + (e + n)) - (e + n) = 0) as ->.
    { unfold fexp, emin, Double.prec, Double.emax, n. lia. }
    cbn [shr shr_record_of_loc shr_m].
    assert ((e + n <=? Double.emax - Double.prec) = true) as ->.
    { apply Z.leb_le. unfold Double.emax, Double.prec, n. lia. }
    split_and!; [done|done|unfold n; lia|unfold n; lia|apply Herr|apply Herr].
  - assert (Z.pos q1 = 2 ^ 53) as Hq by lia.
    assert (q1 = 4503599627370496~0)%positive as -> by (apply Pos2Z.inj; rewrite Hq; done).
    exists 4503599627370496%positive, (n + 1).
    assert (fexp Double.prec Double.emax
              (Zdigits2 (Z.pos 4503599627370496~0) + (e + n)) - (e + n) = 1) as ->.
    { change (Zdigits2 (Z.pos 4503599627370496~0)) with 54.
      unfold fexp, emin, Double.prec, Double.emax, n. lia. }
    cbn [shr shr_record_of_loc shr_m SpecFloat.iter_pos shr_1].
    assert ((e + n + 1 <=? Double.emax - Double.prec) = true) as ->.
    { apply Z.leb_le. unfold Double.emax, Double.prec, n. lia. }
    rewrite Z.add_assoc.
    split_and!; [done|done|unfold n; lia|unfold n; lia| |].
    + replace (Z.pos 4503599627370496 * 2 ^ (n + 1))
        with (Z.pos 4503599627370496~0 * 2 ^ n)
        by (rewrite Z.pow_add_r by lia; lia).
      apply Herr.
    + replace (Z.pos 4503599627370496 * 2 ^ (n + 1))
        with (Z.pos 4503599627370496~0 * 2 ^ n)
        by (rewrite Z.pow_add_r by lia; lia).
      apply Herr.
Qed.

(** ** The value of a rounded result *)

Lemma pow2_pos e : (0 < (2 # 1) ^ e)%Q.
Proof. by apply Qpower_0_lt. Qed.

Lemma pow2_add a b : ((2 # 1) ^ (a + b) == (2 # 1) ^ a * (2 # 1) ^ b)%Q.
Proof. by apply Qpower_plus. Qed.

Lemma pow2_Z k : 0 ≤ k → ((2 # 1) ^ k == inject_Z (2 ^ k))%Q.
Proof. intros Hk. by rewrite Zpower_Qpower. Qed.

Lemma to_Q_finite m e :
  (Double.to_Q (S754_finite false m e) == inject_Z (Z.pos m) * (2 # 1) ^ e)%Q.
Proof. unfold Double.to_Q. ring. Qed.

Lemma to_Q_positive m e : (0 < Double.to_Q (S754_finite false m e))%Q.
Proof.
  rewrite to_Q_finite. apply Qmult_lt_0_compat; [|apply pow2_pos].
  change 0%Q with (inject_Z 0). by rewrite <-Zlt_Qlt.
Qed.

(** The rounding of a number [y * 2^e] that has at least 53 bits before the
    binary point of [y]. *)
Lemma round_value m e l y :
  located (shr_record_of_loc (Z.pos m) l) y →
  53 ≤ Double.digits m → -1074 ≤ e → Double.digits m + e ≤ 1000 →
  ∃ m' e',
    binary_round_aux Double.prec Double.emax false (Z.pos m) e l
    = S754_finite false m' e'
    ∧ Double.digits m' = 53
    ∧ Double.digits m + e - 53 ≤ e' ≤ Double.digits m + e - 52
    ∧ (- (unitRoundoff * (y * (2 # 1) ^ e))
       <= Double.to_Q (S754_finite false m' e') - y * (2 # 1) ^ e)%Q
    ∧ (Double.to_Q (S754_finite false m' e') - y * (2 # 1) ^ e
       <= unitRoundoff * (y * (2 # 1) ^ e))%Q.
Proof.
  intros Hloc Hd He Hmag.
  destruct (binary_round_aux_near false m e l y Hloc Hd He Hmag)
    as (m' & k & -> & Hd' & Hk & Hlo & Hhi).
  exists m', (e + k). split; [done|]. split; [done|]. split; [lia|].
  pose proof (pow2_pos e) as Hpos.
  assert (Double.to_Q (S754_finite false m' (e + k)) - y * (2 # 1) ^ e
          == (inject_Z (Z.pos m' * 2 ^ k) - y) * (2 # 1) ^ e)%Q as ->.
  { rewrite to_Q_finite, (Z.add_comm e k), pow2_add, (pow2_Z k) by lia.
    rewrite inject_Z_mult. ring. }
  split.
  - assert (- (unitRoundoff * (y * (2 # 1) ^ e))
            == (- (unitRoundoff * y)) * (2 # 1) ^ e)%Q as -> by ring.
    by apply Qmult_le_r.
  - assert (unitRoundoff * (y * (2 # 1) ^ e)
            == (unitRoundoff * y) * (2 # 1) ^ e)%Q as -> by ring.
    by apply Qmult_le_r.
Qed.

Lemma located_exact m : located (shr_record_of_loc (Z.pos m) loc_Exact) (inject_Z (Z.pos m)).
Proof. split; [done|]. cbn. reflexivity. Qed.

Lemma digits_ge p k : 2 ^ (k - 1) ≤ Z.pos p → k ≤ Double.digits p.
Proof.
  intros Hp. pose proof (digits_bounds p) as [_ Hhi].
  destruct (Z.le_gt_cases k (Double.digits p)) as [|Hgt]; [done|].
  assert (2 ^ Double.digits p ≤ 2 ^ (k - 1))
    by (apply Z.pow_le_mono_r; lia).
  lia.
Qed.

Lemma digits_le p k : 0 ≤ k → Z.pos p < 2 ^ k → Double.digits p ≤ k.
Proof.
  intros Hk Hp. pose proof (digits_bounds p) as [Hlo _].
  pose proof (digits_pos p).
  destruct (Z.le_gt_cases (Double.digits p) k) as [|Hgt]; [done|].
  assert (2 ^ k ≤ 2 ^ (Double.digits p - 1))
    by (apply Z.pow_le_mono_r; lia).
  lia.
Qed.

(** *** Products *)

Lemma mul_normalized a b :
  normalized a → normalized b →
  positive53 (Double.mul a b)
  ∧ (- (unitRoundoff * (Double.to_Q a * Double.to_Q b))
     <= Double.to_Q (Double.mul a b) - Double.to_Q a * Double.to_Q b)%Q
  ∧ (Double.to_Q (Double.mul a b) - Double.to_Q a * Double.to_Q b
     <= unitRoundoff * (Double.to_Q a * Double.to_Q b))%Q.
Proof.
  intros (ma & ea & -> & Hda & Hea) (mb & eb & -> & Hdb & Heb).
  unfold Double.mul, SFmul. cbn [xorb].
  pose proof (digits_mul ma mb) as [Hlo Hhi].
  destruct (round_value (ma * mb) (ea + eb) loc_Exact
              (inject_Z (Z.pos (ma * mb))))
    as (m & e & Heq & Hd & He & Herr1 & Herr2);
    [apply located_exact|lia|lia|lia|].
  rewrite Heq. split; [by exists m, e|].
  assert (Double.to_Q (S754_finite false ma ea)
          * Double.to_Q (S754_finite false mb eb)
          == inject_Z (Z.pos (ma * mb)) * (2 # 1) ^ (ea + eb))%Q as ->.
  { rewrite (to_Q_finite ma), (to_Q_finite mb), pow2_add, Pos2Z.inj_mul,
      inject_Z_mult. ring. }
  done.
Qed.

(** *** Sums *)

Lemma add_normalized a b :
  normalized a → normalized b →
  positive53 (Double.add a b)
  ∧ (- (unitRoundoff * (Double.to_Q a + Double.to_Q b))
     <= Double.to_Q (Double.add a b) - (Double.to_Q a + Double.to_Q b))%Q
  ∧ (Double.to_Q (Double.add a b) - (Double.to_Q a + Double.to_Q b)
     <= unitRoundoff * (Double.to_Q a + Double.to_Q b))%Q.
Proof.
  intros (ma & ea & -> & Hda & Hea) (mb & eb & -> & Hdb & Heb).
  unfold Double.add, SFadd. cbn [cond_Zopp].
  set (ez := Z.min ea eb).
  pose proof (shl_align_value ma ea ez ltac:(lia)) as Hva.
  pose proof (shl_align_value mb eb ez ltac:(lia)) as Hvb.
  set (xa := (shl_align ma ea ez).1) in *.
  set (xb := (shl_align mb eb ez).1) in *.
  change (Z.pos xa + Z.pos xb) with (Z.pos (xa + xb)).
  cbn [binary_normalize]. unfold binary_round.
  pose proof (digits_bounds ma) as [Hma1 Hma2].
  pose proof (digits_bounds mb) as [Hmb1 Hmb2].
  rewrite Hda in Hma1, Hma2. rewrite Hdb in Hmb1, Hmb2.
  assert (0 < 2 ^ (ea - ez)) as Hpa by (apply Z.pow_pos_nonneg; lia).
  assert (0 < 2 ^ (eb - ez)) as Hpb by (apply Z.pow_pos_nonneg; lia).
  assert (2 ^ 52 ≤ Z.pos (xa + xb)) as Hlo.
  { rewrite Pos2Z.inj_add, Hva, Hvb.
    destruct (Z.le_ge_cases ea eb).
    - replace (ea - ez) with 0 by lia. change (2 ^ 0) with 1. nia.
    - replace (eb - ez) with 0 by lia. change (2 ^ 0) with 1. nia. }
  assert (Z.pos (xa + xb) < 2 ^ (54 + Z.max ea eb - ez)) as Hhi.
  { rewrite Pos2Z.inj_add, Hva, Hvb.
    assert (2 ^ (ea - ez) ≤ 2 ^ (Z.max ea eb - ez))
      by (apply Z.pow_le_mono_r; lia).
    assert (2 ^ (eb - ez) ≤ 2 ^ (Z.max ea eb - ez))
      by (apply Z.pow_le_mono_r; lia).
    replace (54 + Z.max ea eb - ez) with (1 + 53 + (Z.max ea eb - ez)) by lia.
    rewrite !Z.pow_add_r by lia. change (2 ^ 1) with 2.
    assert (0 < 2 ^ (Z.max ea eb - ez)) by (apply Z.pow_pos_nonneg; lia).
    nia. }
  pose proof (digits_ge (xa + xb) 53 Hlo) as Hd1.
  pose proof (digits_le (xa + xb) (54 + Z.max ea eb - ez) ltac:(lia) Hhi) as Hd2.
  change (Z.pos (digits2_pos (xa + xb))) with (Double.digits (xa + xb)).
  rewrite shl_align_id
    by (unfold fexp, emin, Double.prec, Double.emax; lia).
  destruct (round_value (xa + xb) ez loc_Exact (inject_Z (Z.pos (xa + xb))))
    as (m & e & Heq & Hd & He & Herr1 & Herr2);
    [apply located_exact|lia|lia|lia|].
  rewrite Heq. split; [by exists m, e|].
  assert (Double.to_Q (S754_finite false ma ea)
          + Double.to_Q (S754_finite false mb eb)
          == inject_Z (Z.pos (xa + xb)) * (2 # 1) ^ ez)%Q as ->.
  { rewrite (to_Q_finite ma), (to_Q_finite mb), Pos2Z.inj_add, inject_Z_plus,
      Hva, Hvb, !inject_Z_mult, <-!pow2_Z by lia.
    rewrite Qmult_plus_distr_l, <-!Qmult_assoc, <-!pow2_add.
    replace (ea - ez + ez) with ea by lia.
    replace (eb - ez + ez) with eb by lia. reflexivity. }
  done.
Qed.

(** *** Quotients *)

(** The place of the remainder [r] of a division by [d] between 0 and 1. *)
Lemma new_location_located q d r :
  0 ≤ r < Z.pos d →
  located (shr_record_of_loc (Z.pos q) (new_location (Z.pos d) r))
    (inject_Z (Z.pos q) + inject_Z r / inject_Z (Z.pos d)).
Proof.
  intros Hr.
  assert (0 < inject_Z (Z.pos d))%Q as Hd.
  { change 0%Q with (inject_Z 0). by rewrite <-Zlt_Qlt. }
  set (t := (inject_Z r / inject_Z (Z.pos d))%Q).
  assert (t * inject_Z (Z.pos d) == inject_Z r)%Q as Ht
    by (unfold t; field; lra).
  clearbody t.
  assert (∀ a b : Q, (a * inject_Z (Z.pos d) < b * inject_Z (Z.pos d))%Q
                     → (a < b)%Q) as Hlt.
  { intros a b. by apply Qmult_lt_r. }
  assert (0 < r → (0 < t)%Q) as Hpos.
  { intros H. apply Hlt. rewrite Ht, Qmult_0_l.
    change 0%Q with (inject_Z 0). by rewrite <-Zlt_Qlt. }
  assert (2 * r < Z.pos d → (t < 1 # 2)%Q) as Hlow.
  { intros H. apply Hlt. rewrite Ht.
    assert (inject_Z (2 * r) < inject_Z (Z.pos d))%Q as H' by (by rewrite <-Zlt_Qlt).
    rewrite inject_Z_mult in H'. change (inject_Z 2) with 2%Q in H'. lra. }
  assert (Z.pos d < 2 * r → (1 # 2 < t)%Q) as Hhigh.
  { intros H. apply Hlt. rewrite Ht.
    assert (inject_Z (Z.pos d) < inject_Z (2 * r))%Q as H' by (by rewrite <-Zlt_Qlt).
    rewrite inject_Z_mult in H'. change (inject_Z 2) with 2%Q in H'. lra. }
  assert (2 * r = Z.pos d → (t == 1 # 2)%Q) as Hmid.
  { intros H.
    assert (t * inject_Z (Z.pos d) == (1 # 2) * inject_Z (Z.pos d))%Q as H'.
    { rewrite Ht, <-H, inject_Z_mult. change (inject_Z 2) with 2%Q. ring. }
    apply Qmult_inj_r in H'; [done|lra]. }
  assert (t < 1)%Q as Hone.
  { apply Hlt. rewrite Ht, Qmult_1_l. rewrite <-Zlt_Qlt. lia. }
  split; [by destruct (new_location _ _) as [|[]]|].
  assert (r = 0 → (t == 0)%Q) as Hzero.
  { intros Hr0. rewrite Hr0 in Ht. change (inject_Z 0) with 0%Q in Ht.
    assert (t * inject_Z (Z.pos d) == 0 * inject_Z (Z.pos d))%Q as H'
      by (rewrite Ht; ring).
    apply Qmult_inj_r in H'; [done|lra]. }
  unfold new_location.
  destruct (Z.even (Z.pos d)) eqn:Heven;
    unfold new_location_even, new_location_odd;
    destruct (Z.eqb_spec r 0) as [Hr0|Hr0].
  - pose proof (Hzero Hr0). cbn [shr_record_of_loc shr_m shr_r shr_s]. lra.
  - assert (0 < t)%Q by (apply Hpos; lia).
    destruct (Z.compare_spec (2 * r) (Z.pos d)) as [Heq|Hl|Hg];
      cbn [shr_record_of_loc shr_m shr_r shr_s].
    + pose proof (Hmid Heq). lra.
    + pose proof (Hlow Hl). lra.
    + pose proof (Hhigh Hg). lra.
  - pose proof (Hzero Hr0). cbn [shr_record_of_loc shr_m shr_r shr_s]. lra.
  - assert (0 < t)%Q by (apply Hpos; lia).
    assert (2 * r ≠ Z.pos d) as Hodd.
    { intros Heq. rewrite <-Heq, Z.even_mul in Heven. done. }
    destruct (Z.compare_spec (2 * r + 1) (Z.pos d)) as [Heq|Hl|Hg];
      cbn [shr_record_of_loc shr_m shr_r shr_s].
    + pose proof (Hlow ltac:(lia)). lra.
    + pose proof (Hlow ltac:(lia)). lra.
    + pose proof (Hhigh ltac:(lia)). lra.
Qed.

Lemma div_normalized a b :
  normalized a → normalized b →
  positive53 (Double.div a b)
  ∧ (- (unitRoundoff * (Double.to_Q a / Double.to_Q b))
     <= Double.to_Q (Double.div a b) - Double.to_Q a / Double.to_Q b)%Q
  ∧ (Double.to_Q (Double.div a b) - Double.to_Q a / Double.to_Q b
     <= unitRoundoff * (Double.to_Q a / Double.to_Q b))%Q.
Proof.
  intros (ma & ea & -> & Hda & Hea) (mb & eb & -> & Hdb & Heb).
  unfold Double.div, SFdiv, SFdiv_core_binary. cbn [xorb].
  change (Zdigits2 (Z.pos ma)) with (Double.digits ma).
  change (Zdigits2 (Z.pos mb)) with (Double.digits mb).
  rewrite Hda, Hdb.
  assert (Z.min (fexp Double.prec Double.emax (53 + ea - (53 + eb))) (ea - eb)
          = ea - eb - 53) as ->.
  { unfold fexp, emin, Double.prec, Double.emax. lia. }
  replace (ea - eb - (ea - eb - 53)) with 53 by lia.
  rewrite Z.shiftl_mul_pow2 by lia.
  pose proof (digits_bounds ma) as [Hma1 Hma2].
  pose proof (digits_bounds mb) as [Hmb1 Hmb2].
  rewrite Hda in Hma1, Hma2. rewrite Hdb in Hmb1, Hmb2.
  pose proof (Z_div_mod (Z.pos ma * 2 ^ 53) (Z.pos mb) ltac:(lia)) as Hdiv.
  destruct (Z.div_eucl (Z.pos ma * 2 ^ 53) (Z.pos mb)) as [q r].
  destruct Hdiv as [Hqr Hr].
  assert (2 ^ 52 ≤ q < 2 ^ 54) as Hq.
  { change (2 ^ (53 - 1)) with (2 ^ 52) in *. split; nia. }
  destruct q as [|q|q]; [lia| |lia].
  pose proof (digits_ge q 53 ltac:(lia)) as Hd1.
  pose proof (digits_le q 54 ltac:(lia) ltac:(lia)) as Hd2.
  destruct (round_value q (ea - eb - 53) (new_location (Z.pos mb) r)
              (inject_Z (Z.pos q) + inject_Z r / inject_Z (Z.pos mb)))
    as (m & e & Heq & Hd & He & Herr1 & Herr2);
    [by apply new_location_located|lia|lia|lia|].
  rewrite Heq. split; [by exists m, e|].
  assert (0 < inject_Z (Z.pos mb))%Q as Hmb.
  { change 0%Q with (inject_Z 0). by rewrite <-Zlt_Qlt. }
  pose proof (pow2_pos eb) as Hpb.
  assert (Double.to_Q (S754_finite false ma ea)
          / Double.to_Q (S754_finite false mb eb)
          == (inject_Z (Z.pos q) + inject_Z r / inject_Z (Z.pos mb))
             * (2 # 1) ^ (ea - eb - 53))%Q as ->.
  { rewrite (to_Q_finite ma), (to_Q_finite mb).
    assert (inject_Z (Z.pos q) + inject_Z r / inject_Z (Z.pos mb)
            == inject_Z (Z.pos ma) * inject_Z (2 ^ 53) / inject_Z (Z.pos mb))%Q
      as ->.
    { rewrite <-inject_Z_mult, Hqr, inject_Z_plus, inject_Z_mult.
      field. lra. }
    assert ((2 # 1) ^ ea == (2 # 1) ^ (ea - eb - 53) * inject_Z (2 ^ 53)
                            * (2 # 1) ^ eb)%Q as ->.
    { rewrite <-(pow2_Z 53), <-!pow2_add by lia. by replace (ea - eb - 53 + 53 + eb) with ea by lia. }
    field. split; lra. }
  done.
Qed.

(** ** The running sum and the exact sum *)

Lemma normal_exponent m e :
  Double.digits m = 53 →
  (1 # 4 <= inject_Z (Z.pos m) * (2 # 1) ^ e)%Q →
  (inject_Z (Z.pos m) * (2 # 1) ^ e <= inject_Z (2 ^ 60))%Q →
  -54 ≤ e ≤ 8.
Proof.
  intros Hd Hlo Hhi. pose proof (digits_bounds m) as [Hm1 Hm2].
  rewrite Hd in Hm1, Hm2. change (2 ^ (53 - 1)) with (2 ^ 52) in Hm1.
  rewrite Zle_Qle in Hm1. rewrite Zlt_Qlt in Hm2.
  pose proof (pow2_pos e) as Hpos.
  split.
  - destruct (Z.le_gt_cases (-54) e) as [|Hgt]; [done|]. exfalso.
    assert ((2 # 1) ^ e <= (2 # 1) ^ (-55))%Q as Hle
      by (apply Qpower_le_compat_l; [lia|done]).
    assert ((2 # 1) ^ (-55) == 1 # 2 ^ 55)%Q as Hval by done.
    rewrite Hval in Hle.
    assert (inject_Z (Z.pos m) * (2 # 1) ^ e
            <= inject_Z (2 ^ 53) * (1 # 2 ^ 55))%Q as H.
    { apply Qmult_le_compat_nonneg; split; [|lra|lra|done].
      change 0%Q with (inject_Z 0). rewrite <-Zle_Qle. lia. }
    assert (inject_Z (2 ^ 53) * (1 # 2 ^ 55) == 1 # 4)%Q as H' by done.
    rewrite H' in H.
    assert (inject_Z (Z.pos m) * (2 # 1) ^ e < inject_Z (2 ^ 53) * (2 # 1) ^ e)%Q
      as Hstrict by (by apply Qmult_lt_r).
    assert (inject_Z (2 ^ 53) * (2 # 1) ^ e
            <= inject_Z (2 ^ 53) * (1 # 2 ^ 55))%Q as H''.
    { apply Qmult_le_l; [done|done]. }
    rewrite H' in H''. lra.
  - destruct (Z.le_gt_cases e 8) as [|Hgt]; [done|]. exfalso.
    assert ((2 # 1) ^ 9 <= (2 # 1) ^ e)%Q as Hle
      by (apply Qpower_le_compat_l; [lia|done]).
    assert ((2 # 1) ^ 9 == 512)%Q as Hval by done.
    rewrite Hval in Hle.
    assert (inject_Z (2 ^ 52) * 512 <= inject_Z (Z.pos m) * (2 # 1) ^ e)%Q as H.
    { apply Qmult_le_compat_nonneg; split; [done|done|lra|done]. }
    assert (inject_Z (2 ^ 52) * 512 == inject_Z (2 ^ 61))%Q as H' by done.
    rewrite H' in H.
    assert (inject_Z (2 ^ 60) < inject_Z (2 ^ 61))%Q by done.
    lra.
Qed.

Lemma summand_normalized d :
  positive53 d →
  (1 # 4 <= Double.to_Q d)%Q → (Double.to_Q d <= inject_Z (2 ^ 60))%Q →
  normalized d.
Proof.
  intros (m & e & -> & Hd) Hlo Hhi.
  rewrite to_Q_finite in Hlo, Hhi.
  pose proof (normal_exponent m e Hd Hlo Hhi).
  exists m, e. split_and!; [done|done|lia|lia].
Qed.

(** The double of a grade's literal: +0 for F, and otherwise within 2^-53,
    relatively, of the decimal value. *)
Lemma grade_double g :
  (gradeTenths g = 0 ∧ Double.of_ratio false (gradeTenths g) 10 = Double.zero)
  ∨ (7 ≤ gradeTenths g ≤ 40
     ∧ normalized (Double.of_ratio false (gradeTenths g) 10)
     ∧ (- (unitRoundoff * (gradeTenths g # 10))
        <= Double.to_Q (Double.of_ratio false (gradeTenths g) 10)
           - (gradeTenths g # 10))%Q
     ∧ (Double.to_Q (Double.of_ratio false (gradeTenths g) 10)
        - (gradeTenths g # 10)
        <= unitRoundoff * (gradeTenths g # 10))%Q).
Proof.
  destruct g; try (left; split; reflexivity); right;
    (split; [cbn; lia|]);
    (split; [eexists _, _; split; [vm_compute; reflexivity|];
             split; [reflexivity|cbn; lia]|]);
    split; by vm_compute.
Qed.

Lemma to_Q_canonical p :
  Z.pos p < 2 ^ 53 →
  (Double.to_Q (Double.canonical false p) == inject_Z (Z.pos p))%Q.
Proof.
  intros Hp. unfold Double.canonical. rewrite to_Q_finite.
  rewrite canonical_mantissa_value by done.
  pose proof (digits_le_53 p Hp). pose proof (digits_pos p).
  rewrite inject_Z_mult, <-pow2_Z, <-Qmult_assoc, <-pow2_add by lia.
  replace (53 - Double.digits p + (Double.digits p - 53)) with 0 by lia.
  change ((2 # 1) ^ 0)%Q with 1%Q. ring.
Qed.

Lemma canonical_normalized p :
  Z.pos p < 2 ^ 53 → normalized (Double.canonical false p).
Proof.
  intros Hp. pose proof (digits_le_53 p Hp). pose proof (digits_pos p).
  eexists _, _. split; [reflexivity|].
  split; [by apply canonical_mantissa_digits|lia].
Qed.

(** One step of the sum: the error bound [c], relative to the exact sum,
    grows by 2^-52. *)
Lemma sum_step (c X x T p T' : Q) :
  (0 <= X)%Q → (0 <= x)%Q → (0 <= c)%Q → (c <= 1)%Q →
  (5 * unitRoundoff <= c + 2 * unitRoundoff)%Q →
  (- (c * X) <= T - X)%Q → (T - X <= c * X)%Q →
  (- (3 * unitRoundoff * x) <= p - x)%Q → (p - x <= 3 * unitRoundoff * x)%Q →
  (- (unitRoundoff * (T + p)) <= T' - (T + p))%Q →
  (T' - (T + p) <= unitRoundoff * (T + p))%Q →
  (- ((c + 2 * unitRoundoff) * (X + x)) <= T' - (X + x))%Q
  ∧ (T' - (X + x) <= (c + 2 * unitRoundoff) * (X + x))%Q.
Proof.
  intros HX Hx Hc0 Hc1 Hc5 HT1 HT2 Hp1 Hp2 HT'1 HT'2.
  assert (c * X <= X)%Q as HcX.
  { rewrite <-(Qmult_1_l X) at 2. by apply Qmult_le_compat_r. }
  assert (0 <= c * X)%Q as HcX0 by (by apply Qmult_le_0_compat).
  assert (3 * unitRoundoff * x <= c * x)%Q as Hcx.
  { apply Qmult_le_compat_r; [|done]. lra. }
  unfold unitRoundoff in *. split; lra.
Qed.

Lemma tenths_bounds g :
  7 ≤ gradeTenths g ≤ 40 →
  (7 # 10 <= gradeTenths g # 10)%Q ∧ (gradeTenths g # 10 <= 4)%Q.
Proof. intros Hg. unfold Qle. cbn. lia. Qed.

Lemma inject_Z_nonneg z : 0 ≤ z → (0 <= inject_Z z)%Q.
Proof. intros Hz. change 0%Q with (inject_Z 0). by rewrite <-Zle_Qle. Qed.

Lemma inject_Z_ge_1 z : 1 ≤ z → (1 <= inject_Z z)%Q.
Proof. intros Hz. change 1%Q with (inject_Z 1). by rewrite <-Zle_Qle. Qed.

Lemma gradePoints_gradeName g :
  gradePoints (gradeName g)
  = Some (Double.of_ratio false (gradeTenths g) 10).
Proof. by destruct g. Qed.

Lemma exactPoints_gradeName g : exactPoints (gradeName g) = (gradeTenths g # 10).
Proof. by destruct g. Qed.

(** The points of one course: +0 when the grade is F or the credits are 0,
    and otherwise within 3 * 2^-53, relatively, of the exact product. *)
Lemma coursePoints_near course g :
  course_grade course = gradeName g →
  0 ≤ course_credits course < 2 ^ 53 →
  (coursePoints course = Double.zero
   ∧ ((gradeTenths g # 10) * inject_Z (course_credits course) == 0)%Q)
  ∨ (positive53 (coursePoints course)
     ∧ (7 # 10 <= (gradeTenths g # 10) * inject_Z (course_credits course))%Q
     ∧ (- (3 * unitRoundoff
           * ((gradeTenths g # 10) * inject_Z (course_credits course)))
        <= Double.to_Q (coursePoints course)
           - (gradeTenths g # 10) * inject_Z (course_credits course))%Q
     ∧ (Double.to_Q (coursePoints course)
        - (gradeTenths g # 10) * inject_Z (course_credits course)
        <= 3 * unitRoundoff
           * ((gradeTenths g # 10) * inject_Z (course_credits course)))%Q).
Proof.
  intros Hgrade Hc. unfold coursePoints.
  rewrite Hgrade, gradePoints_gradeName.
  destruct (grade_double g) as [[Ht ->]|(Ht & Hg & Hg1 & Hg2)].
  - left. rewrite Ht. split; [|reflexivity].
    destruct (course_credits course) as [|p|p]; [done| |lia].
    by rewrite of_Z_pos by lia.
  - destruct (course_credits course) as [|p|p] eqn:Hcredits; [| |lia].
    + left. change (Double.of_Z 0) with Double.zero.
      destruct Hg as (m & e & -> & _). split; [done|].
      change (inject_Z 0) with 0%Q. ring.
    + right. assert (Z.pos p < 2 ^ 53) as Hp by lia.
      rewrite of_Z_pos by done.
      destruct (mul_normalized _ _ Hg (canonical_normalized p Hp))
        as (Hpos & Herr1 & Herr2).
      rewrite to_Q_canonical in Herr1, Herr2 by done.
      destruct (tenths_bounds g Ht) as [Ht1 Ht2].
      pose proof (inject_Z_ge_1 (Z.pos p) ltac:(lia)) as HC.
      set (G := Double.to_Q (Double.of_ratio false (gradeTenths g) 10)) in *.
      set (C := inject_Z (Z.pos p)) in *.
      set (tq := (gradeTenths g # 10)%Q) in *.
      set (P := Double.to_Q (Double.mul (Double.of_ratio false (gradeTenths g) 10)
                               (Double.canonical false p))) in *.
      assert (tq * 1 <= tq * C)%Q as Hx by (apply Qmult_le_l; lra).
      assert (- (unitRoundoff * tq) * C <= (G - tq) * C)%Q as HG1
        by (apply Qmult_le_compat_r; lra).
      assert ((G - tq) * C <= unitRoundoff * tq * C)%Q as HG2
        by (apply Qmult_le_compat_r; lra).
      clearbody G C tq P. unfold unitRoundoff in *.
      split; [done|]. split; [lra|]. split; lra.
Qed.

Lemma errorBound_succ k :
  (errorBound (k + 1) == errorBound k + 2 * unitRoundoff)%Q.
Proof.
  unfold errorBound. replace (2 * (k + 1) + 3) with (2 * k + 3 + 2) by lia.
  rewrite inject_Z_plus. change (inject_Z 2) with 2%Q. ring.
Qed.

Lemma errorBound_lower k : 0 ≤ k → (3 * unitRoundoff <= errorBound k)%Q.
Proof.
  intros Hk. unfold errorBound. apply Qmult_le_compat_r; [|done].
  change 3%Q with (inject_Z 3). rewrite <-Zle_Qle. lia.
Qed.

Lemma errorBound_mono k k' : k ≤ k' → (errorBound k <= errorBound k')%Q.
Proof.
  intros Hk. unfold errorBound. apply Qmult_le_compat_r; [|done].
  rewrite <-Zle_Qle. lia.
Qed.

Lemma to_Q_summand_nonneg d : summand d → (0 <= Double.to_Q d)%Q.
Proof. intros [->|(_ & Hlo & _)]; [done|lra]. Qed.

(** Adding to a summand a double that is +0 or has a full mantissa. *)
Lemma add_summand T p :
  summand T →
  p = Double.zero ∨ (positive53 p ∧ (1 # 4 <= Double.to_Q p)%Q
                     ∧ (Double.to_Q p <= inject_Z (2 ^ 59))%Q) →
  (Double.to_Q T <= inject_Z (2 ^ 59))%Q →
  (Double.add T p = Double.zero ∨ positive53 (Double.add T p))
  ∧ (- (unitRoundoff * (Double.to_Q T + Double.to_Q p))
     <= Double.to_Q (Double.add T p) - (Double.to_Q T + Double.to_Q p))%Q
  ∧ (Double.to_Q (Double.add T p) - (Double.to_Q T + Double.to_Q p)
     <= unitRoundoff * (Double.to_Q T + Double.to_Q p))%Q.
Proof.
  intros HT Hp HTle.
  destruct HT as [->|(HT & HT1 & HT2)], Hp as [->|(Hp & Hp1 & Hp2)].
  - split; [by left|]. by vm_compute.
  - destruct Hp as (m & e & -> & Hd).
    change (Double.add Double.zero (S754_finite false m e))
      with (S754_finite false m e).
    split; [right; by exists m, e|].
    pose proof (to_Q_positive m e). change (Double.to_Q Double.zero) with 0%Q.
    unfold unitRoundoff. split; lra.
  - destruct HT as (m & e & -> & Hd).
    change (Double.add (S754_finite false m e) Double.zero)
      with (S754_finite false m e).
    split; [right; by exists m, e|].
    pose proof (to_Q_positive m e). change (Double.to_Q Double.zero) with 0%Q.
    unfold unitRoundoff. split; lra.
  - assert (Double.to_Q p <= inject_Z (2 ^ 60))%Q as Hp2'.
    { assert (inject_Z (2 ^ 59) <= inject_Z (2 ^ 60))%Q by done. lra. }
    destruct (add_normalized T p) as (Hpos & Herr1 & Herr2);
      [by apply summand_normalized..|].
    split; [by right|done].
Qed.

Lemma gradePoints_listed key :
  is_Some (gradePoints key) → ∃ g, key = gradeName g.
Proof.
  unfold gradePoints, gradeOfName. intros [p Hp].
  destruct (list_find _ allGrades) as [[i g]|] eqn:Hfind; [|done].
  apply list_find_Some in Hfind as (_ & Hg & _). by exists g.
Qed.

Lemma exactTotalPoints_cons course courses :
  exactTotalPoints (course :: courses)
  = (exactPoints (course_grade course) * inject_Z (course_credits course)
     + exactTotalPoints courses)%Q.
Proof. done. Qed.

Lemma exactPoints_nonneg key : (0 <= exactPoints key)%Q.
Proof.
  unfold exactPoints. destruct (gradeOfName key) as [g|]; [|done].
  unfold Qle. cbn. destruct g; cbn; lia.
Qed.

Lemma exactTotalPoints_nonneg courses :
  Forall (λ course, 0 ≤ course_credits course) courses →
  (0 <= exactTotalPoints courses)%Q.
Proof.
  induction 1 as [|course courses Hc _ IH]; [done|].
  rewrite exactTotalPoints_cons.
  pose proof (Qmult_le_0_compat _ _ (exactPoints_nonneg (course_grade course))
                (inject_Z_nonneg _ Hc)).
  lra.
Qed.

(** The running sum of the points stays within [errorBound] of the exact
    sum, relatively. *)
Lemma totalPoints_near courses T X k :
  Forall (λ course, (∃ g, course_grade course = gradeName g)
                    ∧ 0 ≤ course_credits course < 2 ^ 53) courses →
  0 ≤ k → summand T → (0 <= X)%Q →
  (- (errorBound k * X) <= Double.to_Q T - X)%Q →
  (Double.to_Q T - X <= errorBound k * X)%Q →
  (errorBound (k + Z.of_nat (length courses)) <= 1)%Q →
  (X + exactTotalPoints courses <= inject_Z (2 ^ 58))%Q →
  summand (foldl (λ acc course, Double.add acc (coursePoints course)) T courses)
  ∧ (- (errorBound (k + Z.of_nat (length courses))
        * (X + exactTotalPoints courses))
     <= Double.to_Q
          (foldl (λ acc course, Double.add acc (coursePoints course)) T courses)
        - (X + exactTotalPoints courses))%Q
  ∧ (Double.to_Q
       (foldl (λ acc course, Double.add acc (coursePoints course)) T courses)
     - (X + exactTotalPoints courses)
     <= errorBound (k + Z.of_nat (length courses))
        * (X + exactTotalPoints courses))%Q.
Proof.
  intros Hall. revert T X k.
  induction Hall as [|course courses [[g Hg] Hc] Hall IH];
    intros T X k Hk HT HX Hlo Hhi Hbound Hsize.
  { cbn [foldl length]. change (exactTotalPoints []) with 0%Q.
    rewrite Z.add_0_r. split; [done|].
    set (c := errorBound k) in *. clearbody c.
    assert (c * (X + 0) == c * X)%Q as -> by ring. split; lra. }
  cbn [foldl length]. cbn [length] in Hbound. rewrite exactTotalPoints_cons in *.
  rewrite Hg, exactPoints_gradeName in *.
  rewrite Nat2Z.inj_succ in *.
  replace (k + Z.succ (Z.of_nat (length courses)))
    with (k + 1 + Z.of_nat (length courses)) in * by lia.
  assert (0 <= exactTotalPoints courses)%Q as HE.
  { apply exactTotalPoints_nonneg. eapply Forall_impl; [done|].
    intros ? [_ ?]. cbn in *. lia. }
  pose proof (errorBound_mono (k + 1) (k + 1 + Z.of_nat (length courses))
                ltac:(lia)) as Hmono.
  pose proof (errorBound_succ k) as Hsucc.
  pose proof (errorBound_lower k Hk) as Hlower.
  pose proof (to_Q_summand_nonneg T HT) as HT0.
  specialize (IH (Double.add T (coursePoints course))
                ((X + (gradeTenths g # 10) * inject_Z (course_credits course))%Q)
                (k + 1) ltac:(lia)).
  pose proof (coursePoints_near course g Hg Hc) as Hcourse.
  remember ((gradeTenths g # 10) * inject_Z (course_credits course))%Q as x.
  remember (exactTotalPoints courses) as E.
  remember (errorBound k) as c.
  remember (errorBound (k + 1)) as c'.
  remember (errorBound (k + 1 + Z.of_nat (length courses))) as cn.
  remember (foldl (λ acc course0, Double.add acc (coursePoints course0))
              (Double.add T (coursePoints course)) courses) as Tn.
  assert (c <= 1)%Q as Hc1 by (unfold unitRoundoff in *; lra).
  assert (c * X <= X)%Q as HcX.
  { rewrite <-(Qmult_1_l X) at 2. by apply Qmult_le_compat_r. }
  assert (0 <= c * X)%Q as HcX0.
  { apply Qmult_le_0_compat; [|done]. unfold unitRoundoff in *. lra. }
  assert (X + x + E == X + (x + E))%Q as Hassoc by ring.
  assert (summand Tn
          ∧ (- (cn * (X + x + E)) <= Double.to_Q Tn - (X + x + E))%Q
          ∧ (Double.to_Q Tn - (X + x + E) <= cn * (X + x + E))%Q)
    as (H1 & H2 & H3); [|split; [done|]; rewrite <-!Hassoc; done].
  destruct Hcourse as [[Hzero Hx]|(Hp & Hx & Hp1 & Hp2)].
  - rewrite Hzero in *.
    assert (Double.add T Double.zero = T) as HTT.
    { destruct HT as [->|((m & e & -> & _) & _)]; done. }
    rewrite HTT in *. apply IH; try done.
    + lra.
    + assert (c' * (X + x) == c * X + 2 * unitRoundoff * X)%Q as ->
        by (rewrite Hsucc, Hx; ring).
      unfold unitRoundoff in *. lra.
    + assert (c' * (X + x) == c * X + 2 * unitRoundoff * X)%Q as ->
        by (rewrite Hsucc, Hx; ring).
      unfold unitRoundoff in *. lra.
    + by rewrite Hassoc.
  - assert (0 <= x)%Q as Hx0 by lra.
    destruct (add_summand T (coursePoints course) HT) as (Hsum & Herr1 & Herr2).
    { right. split; [done|]. unfold unitRoundoff in *.
      assert (inject_Z (2 ^ 58) * 2 == inject_Z (2 ^ 59))%Q by done.
      split; lra. }
    { assert (inject_Z (2 ^ 58) * 2 == inject_Z (2 ^ 59))%Q by done. lra. }
    remember (Double.to_Q (coursePoints course)) as p.
    remember (Double.add T (coursePoints course)) as T'.
    destruct (sum_step c X x (Double.to_Q T) p (Double.to_Q T'))
      as [Hnew1 Hnew2]; try done.
    { unfold unitRoundoff in *. lra. }
    { unfold unitRoundoff in *. lra. }
    assert (c + 2 * unitRoundoff == c')%Q as Hc' by (by rewrite Hsucc).
    rewrite Hc' in Hnew1, Hnew2.
    assert (c' <= 1)%Q as Hc'1 by lra.
    assert (summand T') as HT'.
    { right.
      assert (inject_Z (2 ^ 58) * 4 == inject_Z (2 ^ 60))%Q as H60 by done.
      assert ((1 # 4 <= Double.to_Q T')%Q
              ∧ (Double.to_Q T' <= inject_Z (2 ^ 60))%Q) as [Hlo' Hhi'].
      { unfold unitRoundoff in *. split; lra. }
      split; [|done]. destruct Hsum as [Hzero|Hpos]; [|done].
      rewrite Hzero in Hlo'. vm_compute in Hlo'. by destruct Hlo'. }
    apply IH; try done.
    + lra.
    + by rewrite Hassoc.
Qed.

(** ** Rounding to hundredths near a rational *)

Lemma Qfloor_unique x k :
  (inject_Z k <= x)%Q → (x < inject_Z k + 1)%Q → Qfloor x = k.
Proof.
  intros Hlo Hhi. pose proof (Qfloor_le x) as Hf1.
  pose proof (Qlt_floor x) as Hf2.
  assert (inject_Z (Qfloor x) < inject_Z (k + 1))%Q as H1.
  { rewrite inject_Z_plus. change (inject_Z 1) with 1%Q. lra. }
  assert (inject_Z k < inject_Z (Qfloor x + 1))%Q as H2 by lra.
  rewrite <-Zlt_Qlt in H1, H2. lia.
Qed.

(** A number within 1/D of the fraction N/D has the floor of N/D, or, when
    N/D is an integer, possibly the integer below. *)
Lemma floor_stable (N D : Z) (w w' : Q) :
  0 < D → (w * inject_Z D == inject_Z N)%Q →
  (-1 < (w' - w) * inject_Z D)%Q → ((w' - w) * inject_Z D < 1)%Q →
  Qfloor w' = Qfloor w
  ∨ (Qfloor w' = Qfloor w - 1 ∧ (w == inject_Z (Qfloor w))%Q).
Proof.
  intros HD Hw Hlo Hhi.
  assert (0 < inject_Z D)%Q as HDq.
  { change 0%Q with (inject_Z 0). by rewrite <-Zlt_Qlt. }
  assert (1 <= inject_Z D)%Q as HD1 by (apply inject_Z_ge_1; lia).
  pose proof (Qfloor_le w) as Hf1. pose proof (Qlt_floor w) as Hf2.
  set (k := Qfloor w) in *. clearbody k.
  rewrite inject_Z_plus in Hf2. change (inject_Z 1) with 1%Q in Hf2.
  assert (inject_Z k * inject_Z D <= w * inject_Z D)%Q as Hk1
    by (by apply Qmult_le_compat_r; [|lra]).
  assert (w * inject_Z D < (inject_Z k + 1) * inject_Z D)%Q as Hk2
    by (by apply Qmult_lt_r).
  rewrite Hw in Hk1, Hk2.
  assert (k * D ≤ N) as HkN.
  { rewrite Zle_Qle, inject_Z_mult. done. }
  assert (N < (k + 1) * D) as HkN'.
  { rewrite Zlt_Qlt, inject_Z_mult, inject_Z_plus. done. }
  assert (∀ a b : Q, (a * inject_Z D < b * inject_Z D)%Q → (a < b)%Q) as Hlt.
  { intros a b. by apply Qmult_lt_r. }
  assert (∀ a b : Q, (a * inject_Z D <= b * inject_Z D)%Q → (a <= b)%Q) as Hle.
  { intros a b. by apply Qmult_le_r. }
  assert ((w' - w) * inject_Z D == w' * inject_Z D - inject_Z N)%Q as Hdiff
    by (rewrite <-Hw; ring).
  rewrite Hdiff in Hlo, Hhi.
  destruct (decide (N = k * D)) as [Htie|Hne].
  - assert (w == inject_Z k)%Q as Hwk.
    { assert (w * inject_Z D == inject_Z k * inject_Z D)%Q as H
        by (by rewrite Hw, Htie, inject_Z_mult).
      apply Qmult_inj_r in H; [done|lra]. }
    rewrite Htie, inject_Z_mult in Hlo, Hhi.
    destruct (Qlt_le_dec w' (inject_Z k)) as [Hbelow|Habove].
    + right. split; [|done]. apply Qfloor_unique.
      * unfold Z.sub. rewrite inject_Z_plus. change (inject_Z (- (1))) with (-1)%Q.
        apply Hle.
        assert ((inject_Z k + -1) * inject_Z D
                == inject_Z k * inject_Z D - inject_Z D)%Q as -> by ring.
        lra.
      * unfold Z.sub. rewrite inject_Z_plus.
        change (inject_Z (- (1))) with (-1)%Q. lra.
    + left. apply Qfloor_unique; [done|]. apply Hlt.
      assert ((inject_Z k + 1) * inject_Z D
              == inject_Z k * inject_Z D + inject_Z D)%Q as -> by ring.
      lra.
  - left.
    assert (inject_Z (k * D + 1) <= inject_Z N)%Q as H1
      by (rewrite <-Zle_Qle; lia).
    assert (inject_Z N <= inject_Z ((k + 1) * D - 1))%Q as H2
      by (rewrite <-Zle_Qle; lia).
    rewrite inject_Z_plus, inject_Z_mult in H1.
    unfold Z.sub in H2.
    rewrite inject_Z_plus, inject_Z_mult, inject_Z_plus in H2.
    change (inject_Z (- (1))) with (-1)%Q in H2.
    change (inject_Z 1) with 1%Q in *.
    apply Qfloor_unique.
    + apply Hle. lra.
    + apply Hlt.
      assert ((inject_Z k + 1) * inject_Z D
              == inject_Z k * inject_Z D + inject_Z D)%Q as -> by ring.
      lra.
Qed.

(** ** The exact average *)

Lemma credits_nonneg_sums courses :
  Forall (λ course, 0 ≤ course_credits course) courses →
  sumAbsCredits courses = sumCredits courses
  ∧ 0 ≤ sumCredits courses
  ∧ Forall (λ course, course_credits course ≤ sumCredits courses) courses.
Proof.
  induction 1 as [|course courses Hc _ (IH1 & IH2 & IH3)]; [done|].
  change (sumAbsCredits (course :: courses))
    with (Z.abs (course_credits course) + sumAbsCredits courses).
  change (sumCredits (course :: courses))
    with (course_credits course + sumCredits courses).
  split_and!; [lia|lia|].
  apply Forall_cons. split; [lia|].
  eapply Forall_impl; [done|]. intros c. cbn. lia.
Qed.

(** The exact sum of the points is a whole number of tenths, and at most
    four times the credits. *)
Lemma exactTotalPoints_tenths courses :
  Forall gradedCourse courses →
  ∃ P, 0 ≤ P ≤ 40 * sumCredits courses
       ∧ (exactTotalPoints courses * 10 == inject_Z P)%Q.
Proof.
  induction 1 as [|course courses [Hg Hc] _ (P & HP & IH)].
  - exists 0. split; [done|]. reflexivity.
  - apply gradePoints_listed in Hg as [g Hg].
    exists (gradeTenths g * course_credits course + P).
    change (sumCredits (course :: courses))
      with (course_credits course + sumCredits courses).
    split.
    + assert (0 ≤ gradeTenths g ≤ 40) by (destruct g; cbn; lia). nia.
    + rewrite exactTotalPoints_cons, Hg, exactPoints_gradeName.
      rewrite inject_Z_plus, inject_Z_mult, <-IH.
      assert (gradeTenths g # 10 == inject_Z (gradeTenths g) * (1 # 10))%Q as ->.
      { unfold Qeq. cbn. lia. }
      ring.
Qed.

(** The result against the exact average rounded the way [toFixed] rounds. *)
Lemma calculateGPA_near_roundedGPA courses :
  Forall gradedCourse courses →
  1600 * (Z.of_nat (length courses) + 3) * sumCredits courses < 2 ^ 53 →
  if 0 <? sumCredits courses
  then ∃ n, calculateGPA courses = Double.of_ratio false n 100
            ∧ (n = roundedGPA courses
               ∨ (n = roundedGPA courses - 1
                  ∧ (100 * exactGPA courses + (1 # 2)
                     == inject_Z (roundedGPA courses))%Q))
  else calculateGPA courses = Double.zero.
Proof.
  intros Hall Hbound.
  assert (Forall (λ course, 0 ≤ course_credits course) courses) as Hcred.
  { eapply Forall_impl; [done|]. by intros course [_ ?]. }
  destruct (credits_nonneg_sums courses Hcred) as (Habs & HS0 & Hle).
  destruct (exactTotalPoints_tenths courses Hall) as (P & HP & HP10).
  pose proof (exactTotalPoints_nonneg courses Hcred) as HX0.
  set (n := Z.of_nat (length courses)) in *.
  assert (0 ≤ n) as Hn by (unfold n; lia).
  set (S := sumCredits courses) in *.
  assert (S < 2 ^ 53) as HS by nia.
  unfold calculateGPA. rewrite foldl_accumulate. cbn [fst snd].
  pose proof (totalCredits_exact courses 0) as Hcredits.
  change (Double.of_Z 0) with Double.zero in Hcredits.
  rewrite Hcredits, Z.add_0_l by (rewrite Habs; cbn [Z.abs]; lia).
  fold S. rewrite gt_of_Z by lia.
  destruct (Z.ltb_spec 0 S) as [Hpos|Hzero]; [|done].
  assert (1 <= inject_Z S)%Q as HSq by (apply inject_Z_ge_1; lia).
  assert (errorBound n <= 1 # 2)%Q as Heps.
  { unfold errorBound, unitRoundoff.
    assert (inject_Z (2 * n + 3) <= inject_Z (2 ^ 52))%Q as H
      by (rewrite <-Zle_Qle; nia).
    assert (inject_Z (2 ^ 52) * (1 # 9007199254740992) == 1 # 2)%Q as <- by done.
    by apply Qmult_le_compat_r. }
  assert (exactTotalPoints courses <= 4 * inject_Z S)%Q as HX4.
  { assert (inject_Z P <= inject_Z (40 * S))%Q as H by (rewrite <-Zle_Qle; lia).
    rewrite inject_Z_mult in H. change (inject_Z 40) with 40%Q in H. lra. }
  assert (inject_Z S <= inject_Z (2 ^ 53))%Q as HSle by (rewrite <-Zle_Qle; lia).
  destruct (totalPoints_near courses Double.zero 0 0)
    as (HT & Herr1 & Herr2).
  { apply Forall_forall. intros course Hcourse.
    rewrite Forall_forall in Hall, Hle.
    destruct (Hall course Hcourse) as [Hg Hc]. specialize (Hle course Hcourse).
    split; [by apply gradePoints_listed|]. cbn in Hle. fold S in Hle. lia. }
  { done. }
  { by left. }
  { done. }
  { change (Double.to_Q Double.zero) with 0%Q. lra. }
  { change (Double.to_Q Double.zero) with 0%Q. lra. }
  { rewrite Z.add_0_l. fold n. lra. }
  { assert (inject_Z (2 ^ 53) * 4 <= inject_Z (2 ^ 58))%Q by done. lra. }
  rewrite Z.add_0_l in Herr1, Herr2. fold n in Herr1, Herr2.
  remember (foldl (λ a course, Double.add a (coursePoints course)) Double.zero
              courses) as T.
  remember (exactTotalPoints courses) as X.
  remember (errorBound n) as eps.
  assert (0 + X == X)%Q as H0X by ring. rewrite H0X in Herr1, Herr2. clear H0X.
  assert (eps * X <= (1 # 2) * X)%Q as HepsX by (by apply Qmult_le_compat_r).
  assert (0 <= eps)%Q as Heps0.
  { subst eps. pose proof (errorBound_lower n Hn). unfold unitRoundoff in *. lra. }
  assert (0 <= eps * X)%Q as HepsX0 by (by apply Qmult_le_0_compat).
  assert (exactGPA courses * inject_Z S == X)%Q as HE.
  { unfold exactGPA. fold S. rewrite <-HeqX. field. lra. }
  assert ((100 * exactGPA courses + (1 # 2)) * inject_Z (2 * S)
          == inject_Z (20 * P + S))%Q as Hw.
  { rewrite inject_Z_plus, !inject_Z_mult, <-HP10.
    change (inject_Z 2) with 2%Q. change (inject_Z 20) with 20%Q.
    assert ((100 * exactGPA courses + (1 # 2)) * (2 * inject_Z S)
            == 200 * (exactGPA courses * inject_Z S) + inject_Z S)%Q as ->
      by ring.
    rewrite HE. ring. }
  assert (∃ p, S = Z.pos p) as [p HSp] by (exists (Z.to_pos S); lia).
  replace (Double.of_Z S) with (Double.canonical false p)
    by (rewrite HSp; symmetry; apply of_Z_pos; lia).
  pose proof (to_Q_canonical p ltac:(lia)) as HSd. rewrite <-HSp in HSd.
  destruct HT as [HTzero|(HT53 & HTlo & HThi)].
  - rewrite HTzero in *. change (Double.to_Q Double.zero) with 0%Q in *.
    assert (X == 0)%Q as HXz by lra.
    exists 0. split; [done|]. left. symmetry.
    unfold roundedGPA, Double.nearestHundredths.
    assert (exactGPA courses == 0)%Q as HEz.
    { assert (exactGPA courses * inject_Z S == 0 * inject_Z S)%Q as H
        by (rewrite HE, HXz; ring).
      apply Qmult_inj_r in H; [done|lra]. }
    apply Qfloor_unique; change (inject_Z 0) with 0%Q; lra.
  - destruct (div_normalized T (Double.canonical false p))
      as (Hq53 & Hq1 & Hq2);
      [by apply summand_normalized|apply canonical_normalized; lia|].
    rewrite HSd in Hq1, Hq2.
    remember (Double.div T (Double.canonical false p)) as q.
    destruct Hq53 as (m & e & Hq & _).
    pose proof (to_Q_positive m e) as Hv0. rewrite <-Hq in Hv0.
    remember (Double.to_Q q) as v. remember (Double.to_Q T) as Tq.
    assert ((Tq / inject_Z S) * inject_Z S == Tq)%Q as HR by (field; lra).
    assert (- (unitRoundoff * Tq) <= v * inject_Z S - Tq)%Q as Hv1.
    { assert (v * inject_Z S - Tq == (v - Tq / inject_Z S) * inject_Z S)%Q as ->
        by (field; lra).
      assert (- (unitRoundoff * Tq)
              == - (unitRoundoff * (Tq / inject_Z S)) * inject_Z S)%Q as ->
        by (field; lra).
      apply Qmult_le_compat_r; [done|lra]. }
    assert (v * inject_Z S - Tq <= unitRoundoff * Tq)%Q as Hv2.
    { assert (v * inject_Z S - Tq == (v - Tq / inject_Z S) * inject_Z S)%Q as ->
        by (field; lra).
      assert (unitRoundoff * Tq
              == unitRoundoff * (Tq / inject_Z S) * inject_Z S)%Q as ->
        by (field; lra).
      apply Qmult_le_compat_r; [done|lra]. }
    assert ((eps + 2 * unitRoundoff) * (4 * inject_Z S) * 200 < 1)%Q as Hsmall.
    { subst eps. unfold errorBound.
      assert ((inject_Z (2 * n + 3) * unitRoundoff + 2 * unitRoundoff)
              * (4 * inject_Z S) * 200
              == inject_Z (800 * (2 * n + 5) * S) * unitRoundoff)%Q as ->.
      { rewrite !inject_Z_mult, !inject_Z_plus, !inject_Z_mult.
        change (inject_Z 800) with 800%Q. change (inject_Z 2) with 2%Q.
        change (inject_Z 3) with 3%Q. change (inject_Z 5) with 5%Q. ring. }
      assert (inject_Z (800 * (2 * n + 5) * S) < inject_Z (2 ^ 53))%Q as H
        by (rewrite <-Zlt_Qlt; nia).
      assert (inject_Z (2 ^ 53) * unitRoundoff == 1)%Q as <- by done.
      by apply Qmult_lt_compat_r. }
    assert ((eps + 2 * unitRoundoff) * X
            <= (eps + 2 * unitRoundoff) * (4 * inject_Z S))%Q as HBX.
    { apply Qmult_le_l; [unfold unitRoundoff; lra|done]. }
    assert ((eps + 2 * unitRoundoff) * X == eps * X + 2 * unitRoundoff * X)%Q
      as HBX' by ring.
    assert (- (1 # 200) < v * inject_Z S - X)%Q as Hd1
      by (unfold unitRoundoff in *; lra).
    assert (v * inject_Z S - X < 1 # 200)%Q as Hd2
      by (unfold unitRoundoff in *; lra).
    assert (v < inject_Z (10 ^ 21))%Q as Hv21.
    { apply (Qmult_lt_r _ _ (inject_Z S)); [lra|].
      assert (inject_Z (10 ^ 21) * inject_Z S
              == 5 * inject_Z S + (inject_Z (10 ^ 21) - 5) * inject_Z S)%Q
        as -> by ring.
      assert (0 <= (inject_Z (10 ^ 21) - 5) * inject_Z S)%Q.
      { apply Qmult_le_0_compat; [done|lra]. }
      lra. }
    exists (Qfloor (100 * v + (1 # 2))). split.
    + rewrite Hq. unfold Double.toFixed2. rewrite <-Hq, <-Heqv.
      assert (Qabs v == v)%Q as Habsv by (apply Qabs_pos; lra).
      destruct (Qle_bool (inject_Z (10 ^ 21)) (Qabs v)) eqn:Hbig.
      { apply Qle_bool_iff in Hbig. rewrite Habsv in Hbig. lra. }
      cbn [Double.parseFloat]. unfold Double.nearestHundredths.
      by rewrite Habsv.
    + unfold roundedGPA, Double.nearestHundredths.
      apply (floor_stable (20 * P + S) (2 * S)); [lia|done| |].
      * assert ((100 * v + (1 # 2) - (100 * exactGPA courses + (1 # 2)))
                * inject_Z (2 * S)
                == 200 * (v * inject_Z S - exactGPA courses * inject_Z S))%Q
          as ->.
        { rewrite inject_Z_mult. change (inject_Z 2) with 2%Q. ring. }
        rewrite HE. lra.
      * assert ((100 * v + (1 # 2) - (100 * exactGPA courses + (1 # 2)))
                * inject_Z (2 * S)
                == 200 * (v * inject_Z S - exactGPA courses * inject_Z S))%Q
          as ->.
        { rewrite inject_Z_mult. change (inject_Z 2) with 2%Q. ring. }
        rewrite HE. lra.
Qed.

(** C1 (amended): for courses whose grades are keys of the grade table and
    whose credits are non-negative integers, few enough that
    1600 * (number of courses + 3) * (sum of the credits) stays below 2^53:
    when the sum of the credits is 0 (the empty list included),
    [calculateGPA] returns exactly 0; when it is positive, [calculateGPA]
    returns the double of n/100, where n/100 is the exact weighted average
    sum(points * credits) / sum(credits) rounded to the nearest hundredth,
    the upper one of two that are equally near, with one exception: when
    the exact average lies exactly halfway between two hundredths, n/100 may
    be the lower one. *)
Theorem calculateGPA_rounds_the_weighted_average courses :
  Forall gradedCourse courses →
  1600 * (Z.of_nat (length courses) + 3) * sumCredits courses < 2 ^ 53 →
  if 0 <? sumCredits courses
  then ∃ n, calculateGPA courses = Double.of_ratio false n 100
            ∧ (nearestInteger (100 * exactGPA courses) n
               ∨ (nearestInteger (100 * exactGPA courses) (n + 1)
                  ∧ (100 * exactGPA courses == inject_Z n + (1 # 2))%Q))
  else calculateGPA courses = Double.zero.
Proof.
  intros Hall Hbound.
  pose proof (calculateGPA_near_roundedGPA courses Hall Hbound) as Hnear.
  destruct (0 <? sumCredits courses); [|done].
  destruct Hnear as (n & Hn & Hcase). exists n. split; [done|].
  destruct Hcase as [->|[-> Htie]].
  - left. apply nearestHundredths_nearest.
  - right. replace (roundedGPA courses - 1 + 1) with (roundedGPA courses) by lia.
    split; [apply nearestHundredths_nearest|].
    unfold Z.sub. rewrite inject_Z_plus.
    change (inject_Z (- (1))) with (-1)%Q. lra.
Qed.

(** The theorem of C1 at the courses A/3 and B-/1, whose exact average 3.675
    is halfway between 3.67 and 3.68. *)
Lemma calculateGPA_rounds_the_weighted_average_witness :
  Forall gradedCourse halfwayCourses
  ∧ 1600 * (Z.of_nat (length halfwayCourses) + 3) * sumCredits halfwayCourses
    < 2 ^ 53
  ∧ ∃ n, calculateGPA halfwayCourses = Double.of_ratio false n 100
         ∧ (nearestInteger (100 * exactGPA halfwayCourses) n
            ∨ (nearestInteger (100 * exactGPA halfwayCourses) (n + 1)
               ∧ (100 * exactGPA halfwayCourses == inject_Z n + (1 # 2))%Q)).
Proof.
  assert (Forall gradedCourse halfwayCourses) as Hall.
  { repeat constructor; vm_compute; eauto; discriminate. }
  split; [exact Hall|]. split; [reflexivity|].
  exact (calculateGPA_rounds_the_weighted_average halfwayCourses Hall eq_refl).
Defined.
